(** * Document-conversion service (krypton-graph, src/services/docling)

    A shallow embedding of the conversion service's pure and stateful code:
    the status hub ([websocket_handler.py]), the PDF validator and readers
    ([converters/pdf_converter.py]), the HTTP endpoints ([api.py]), the
    quality checker ([utils/quality_checker.py]), the markdown formatter
    ([utils/markdown_formatter.py]), the conversion service
    ([docling_service.py]) and the image naming code
    ([converters/image_handler.py], [docling_service.py]).

    Conventions.
    - A Python [str] that is processed character by character is a
      [list ascii]; a character is a code point below 256, so the character
      classes of [re] and [str] are the ones Python uses on that range.
      Identifiers and messages that are only compared or stored are [string].
    - Python [float] scores are exact rationals ([Q]).
    - A [dict] is a [gmap], a [set] a [gset].
    - An exception is a value of a sum type; [try]/[except] is a [match].
    - A coroutine runs alone between two of its [await]s. The hub of module
      [Hub] runs every operation in one turn of the event loop; module
      [EventLoop] follows a broadcast whose sends are awaited while other
      coroutines change the manager. *)

From Stdlib Require Import ZArith QArith Qminmax Lia Lqa Ascii String.
From stdpp Require Import base option list gmap sets strings pretty.

Local Open Scope list_scope.
#[local] Set Warnings "-clear-no-such-hyp".

(** ** The status hub: [websocket_handler.py] *)

Module Hub.

(** A live socket object; only its identity matters here. *)
Definition WebSocket := nat.

(** [ConnectionManager.__init__]: the connection table and the per-document
    subscriber sets. *)
Record ConnectionManager := mkManager {
  active_connections : gmap string WebSocket;
  document_subscribers : gmap string (gset string)
}.

Definition init : ConnectionManager := mkManager ∅ ∅.

(** [connect]: [self.active_connections[client_id] = websocket]. *)
Definition connect (m : ConnectionManager) (websocket : WebSocket)
    (client_id : string) : ConnectionManager :=
  mkManager (<[client_id := websocket]> (active_connections m))
            (document_subscribers m).

(** [disconnect]: a known client leaves the table and every subscriber set
    (the sets stay in the map, also when they become empty). *)
Definition disconnect (m : ConnectionManager) (client_id : string)
    : ConnectionManager :=
  match active_connections m !! client_id with
  | Some _ =>
      mkManager (delete client_id (active_connections m))
                ((λ subscribers, subscribers ∖ {[client_id]})
                   <$> document_subscribers m)
  | None => m
  end.

(** [subscribe_to_document]: create the set when the document has none, then
    [add] the client. *)
Definition subscribe_to_document (m : ConnectionManager)
    (client_id document_id : string) : ConnectionManager :=
  let subs :=
    match document_subscribers m !! document_id with
    | None => <[document_id := ∅]> (document_subscribers m)
    | Some _ => document_subscribers m
    end in
  mkManager (active_connections m)
            (alter (λ s, s ∪ {[client_id]}) document_id subs).

(** [unsubscribe_from_document]: [discard] the client; [del] the entry when
    the set is empty afterwards. *)
Definition unsubscribe_from_document (m : ConnectionManager)
    (client_id document_id : string) : ConnectionManager :=
  match document_subscribers m !! document_id with
  | Some s =>
      let s' := s ∖ {[client_id]} in
      mkManager (active_connections m)
                (if decide (s' = ∅)
                 then delete document_id (document_subscribers m)
                 else <[document_id := s']> (document_subscribers m))
  | None => m
  end.

(** The subscriber set of a document, empty when the map has no entry. *)
Definition subscribers (m : ConnectionManager) (document_id : string)
    : gset string :=
  default ∅ (document_subscribers m !! document_id).

(** The [for client_id in self.document_subscribers[document_id]] loop of
    [broadcast_to_document_subscribers]. [send_fails c] says that
    [send_text] raises on the socket of [c]. The result is the clients
    [send_text] was called for, in order, and [disconnected_clients]. *)
Fixpoint send_loop (send_fails : string → bool) (m : ConnectionManager)
    (clients : list string) : list string * list string :=
  match clients with
  | [] => ([], [])
  | client_id :: rest =>
      let '(sent, disconnected_clients) := send_loop send_fails m rest in
      match active_connections m !! client_id with
      | Some _ =>
          (client_id :: sent,
           if send_fails client_id
           then client_id :: disconnected_clients
           else disconnected_clients)
      | None => (sent, disconnected_clients)
      end
  end.

(** [broadcast_to_document_subscribers]: the new manager and the clients the
    message was sent to. The hub runs in one event-loop turn: no other
    operation runs between two sends. Module [EventLoop] follows the sends
    one by one, with the other coroutines in between. *)
Definition broadcast_to_document_subscribers (send_fails : string → bool)
    (m : ConnectionManager) (document_id : string)
    : ConnectionManager * list string :=
  match document_subscribers m !! document_id with
  | None => (m, [])
  | Some subs =>
      let '(sent, disconnected_clients) :=
        send_loop send_fails m (elements subs) in
      (foldl disconnect m disconnected_clients, sent)
  end.

(** The [status_update] dictionary of [ConversionStatusTracker.update_status]. *)
Record StatusEvent := mkEvent {
  ev_type : string;
  ev_documentId : string;
  ev_status : string;
  ev_progress : Z;
  ev_message : string;
  ev_timestamp : string;
  ev_metadata : gmap string string
}.

(** [ConversionStatusTracker]: the manager it was built with and the latest
    event of each document. *)
Record ConversionStatusTracker := mkTracker {
  connection_manager : ConnectionManager;
  conversion_status : gmap string StatusEvent
}.

(** One delivery: [send_text] called on the socket of a client with the
    JSON of an event. *)
Definition Delivery : Type := string * StatusEvent.

(** [update_status]; [now] is [datetime.now().isoformat()], [metadata] is
    [None] when the caller passes none ([metadata or {}]). *)
Definition update_status (send_fails : string → bool)
    (t : ConversionStatusTracker) (document_id status : string)
    (progress : Z) (message now : string)
    (metadata : option (gmap string string))
    : ConversionStatusTracker * list Delivery :=
  let status_update :=
    mkEvent "conversion_status" document_id status progress message now
            (default ∅ metadata) in
  let '(m', sent) :=
    broadcast_to_document_subscribers send_fails (connection_manager t)
                                      document_id in
  (mkTracker m' (<[document_id := status_update]> (conversion_status t)),
   (λ c, (c, status_update)) <$> sent).

(** What a client or the orchestrator asks of the hub. *)
Inductive Op :=
| OpConnect (websocket : WebSocket) (client_id : string)
| OpDisconnect (client_id : string)
| OpSubscribe (client_id document_id : string)
| OpUnsubscribe (client_id document_id : string)
| OpPublish (send_fails : string → bool) (document_id status : string)
            (progress : Z) (message now : string)
            (metadata : option (gmap string string)).

Definition with_manager (t : ConversionStatusTracker)
    (f : ConnectionManager → ConnectionManager) : ConversionStatusTracker :=
  mkTracker (f (connection_manager t)) (conversion_status t).

(** One operation: the new hub and what it delivered. *)
Definition step (t : ConversionStatusTracker) (o : Op)
    : ConversionStatusTracker * list Delivery :=
  match o with
  | OpConnect ws c => (with_manager t (λ m, connect m ws c), [])
  | OpDisconnect c => (with_manager t (λ m, disconnect m c), [])
  | OpSubscribe c d => (with_manager t (λ m, subscribe_to_document m c d), [])
  | OpUnsubscribe c d =>
      (with_manager t (λ m, unsubscribe_from_document m c d), [])
  | OpPublish f d st p msg now md => update_status f t d st p msg now md
  end.

(** A sequence of operations: the final hub and every delivery, in order. *)
Fixpoint run (t : ConversionStatusTracker) (ops : list Op)
    : ConversionStatusTracker * list Delivery :=
  match ops with
  | [] => (t, [])
  | o :: rest =>
      let '(t1, log1) := step t o in
      let '(t2, log2) := run t1 rest in
      (t2, log1 ++ log2)
  end.

(** A hub with clients [a] and [b] connected and both subscribed to
    documents [D1] and [D2]. *)
Definition two_clients : ConversionStatusTracker :=
  (run (mkTracker init ∅)
       [OpConnect 1 "a"; OpConnect 2 "b";
        OpSubscribe "a" "D1"; OpSubscribe "b" "D1";
        OpSubscribe "a" "D2"; OpSubscribe "b" "D2"]).1.

Definition publish_both : list Op :=
  [OpPublish (λ _, false) "D1" "processing" 0 "Starting PDF conversion..."
             "t1" None;
   OpPublish (λ _, false) "D2" "processing" 0 "Starting PDF conversion..."
             "t2" None].

(** The event of [D2] that [publish_both] builds. *)
Definition event_D2 : StatusEvent :=
  mkEvent "conversion_status" "D2" "processing" 0
          "Starting PDF conversion..." "t2" ∅.

End Hub.

(** ** Python strings *)

Module PyStr.

(** A [str] processed character by character. *)
Abbreviation str := (list ascii).

(** A literal. *)
Definition s2l (s : string) : str := list_ascii_of_string s.

Definition code (c : ascii) : N := N_of_ascii c.

(** The line feed. *)
Definition NL : ascii := ascii_of_N 10.

Definition chr_eqb (a b : ascii) : bool := bool_decide (a = b).

Definition in_range (lo hi : N) (c : ascii) : bool :=
  ((lo <=? code c) && (code c <=? hi))%N.

(** [str.isspace] and the class [\s] of [re]: code points 9-13, 28-32, 133
    and 160. *)
Definition isspace (c : ascii) : bool :=
  in_range 9 13 c || in_range 28 32 c || (code c =? 133)%N || (code c =? 160)%N.

(** The class [\d] of [re]: the decimal digits. *)
Definition isdigit (c : ascii) : bool := in_range 48 57 c.

(** The class [\w] of [re]: letters, digits and numeric characters of the
    range, and the underscore. *)
Definition isword (c : ascii) : bool :=
  in_range 48 57 c || in_range 65 90 c || (code c =? 95)%N || in_range 97 122 c
  || (code c =? 170)%N || in_range 178 179 c || (code c =? 181)%N
  || in_range 185 186 c || in_range 188 190 c || in_range 192 214 c
  || in_range 216 246 c || in_range 248 255 c.

(** [str.lower] on one character: the capital letters move up by 32. *)
Definition lower_chr (c : ascii) : ascii :=
  if in_range 65 90 c || in_range 192 214 c || in_range 216 222 c
  then ascii_of_N (code c + 32) else c.

Definition lower (s : str) : str := map lower_chr s.

(** [s.split(sep)] for a one-character separator: never empty. *)
Fixpoint split_on (sep : ascii) (s : str) : list str :=
  match s with
  | [] => [[]]
  | c :: r =>
      if chr_eqb c sep then [] :: split_on sep r
      else match split_on sep r with
           | l :: ls => (c :: l) :: ls
           | [] => [[c]]
           end
  end.

(** [s.split('\n')]. *)
Definition split_lines (s : str) : list str := split_on NL s.

(** [sep.join(parts)]. *)
Fixpoint join (sep : str) (parts : list str) : str :=
  match parts with
  | [] => []
  | [l] => l
  | l :: ls => l ++ sep ++ join sep ls
  end.

(** ['\n'.join(lines)]. *)
Definition join_lines (lines : list str) : str := join [NL] lines.

(** [s.split()]: the maximal runs of characters that are not whitespace. *)
Fixpoint split_ws (s : str) : list str :=
  match s with
  | [] => []
  | c :: r =>
      if isspace c then split_ws r
      else match r with
           | [] => [[c]]
           | c' :: _ =>
               if isspace c' then [c] :: split_ws r
               else match split_ws r with
                    | w :: ws => (c :: w) :: ws
                    | [] => [[c]]
                    end
           end
  end.

(** [s.lstrip()]. *)
Fixpoint lstrip (s : str) : str :=
  match s with
  | c :: r => if isspace c then lstrip r else s
  | [] => []
  end.

(** [s.startswith(p)]. *)
Fixpoint startswith (p s : str) : bool :=
  match p, s with
  | [], _ => true
  | a :: p', b :: s' => chr_eqb a b && startswith p' s'
  | _ :: _, [] => false
  end.

(** [s.rfind(c)] for one character; [None] is Python's -1. *)
Fixpoint rfind (c : ascii) (s : str) : option nat :=
  match s with
  | [] => None
  | x :: r =>
      match rfind c r with
      | Some i => Some (S i)
      | None => if chr_eqb x c then Some 0 else None
      end
  end.

(** [len(s.encode())]: one byte below 128, two from there on. *)
Definition utf8_len (s : str) : nat :=
  list_sum (map (λ c, if (code c <? 128)%N then 1 else 2) s).

(** [ch * n]. *)
Definition rep (c : ascii) (n : nat) : str := replicate n c.

(** The longest prefix whose characters all satisfy [p], and the rest: what
    a greedy [[class]*] takes first. *)
Fixpoint span (p : ascii → bool) (s : str) : str * str :=
  match s with
  | c :: r =>
      if p c then let '(a, b) := span p r in (c :: a, b) else ([], s)
  | [] => ([], [])
  end.

(** What comes after the run does not belong to it. *)
Definition stops (p : ascii → bool) (s : str) : Prop :=
  match s with c :: _ => p c = false | [] => True end.

Definition nonempty (s : str) : bool :=
  match s with [] => false | _ :: _ => true end.

Definition nonempty_list {A} (l : list A) : bool :=
  match l with [] => false | _ :: _ => true end.

End PyStr.

(** ** Scanning a text with a pattern, as [re.findall], [re.search] and
    [re.sub] do *)

Module Re.
Import PyStr.

(** A pattern compiled by hand: given whether the position is the start of
    a line (where [^] matches under [re.MULTILINE]) and the text from the
    position on, the length of the match that the backtracking search of
    [re] finds there and what it captures. No pattern of this program
    matches the empty string. *)
Definition Matcher (A : Type) : Type := bool → str → option (nat * A).

(** Left to right over the text: [skip] characters of the last match are
    still to pass; a match is looked for at every other position, and the
    next one is looked for where it ends. *)
Fixpoint scan {A} (m : Matcher A) (bol : bool) (skip : nat) (s : str)
    : list A :=
  match s with
  | [] => []
  | c :: r =>
      let bol' := chr_eqb c NL in
      match skip with
      | S k => scan m bol' k r
      | O =>
          match m bol s with
          | Some (S n, a) => a :: scan m bol' n r
          | _ => scan m bol' 0 r
          end
      end
  end.

(** [re.findall(pattern, s)]. *)
Definition findall {A} (m : Matcher A) (s : str) : list A := scan m true 0 s.

(** [bool(re.search(pattern, s))]. *)
Definition search {A} (m : Matcher A) (s : str) : bool :=
  match findall m s with [] => false | _ :: _ => true end.

(** [re.sub(pattern, repl, s)] for a constant replacement. *)
Fixpoint sub_scan {A} (m : Matcher A) (repl : str) (bol : bool) (skip : nat)
    (s : str) : str :=
  match s with
  | [] => []
  | c :: r =>
      let bol' := chr_eqb c NL in
      match skip with
      | S k => sub_scan m repl bol' k r
      | O =>
          match m bol s with
          | Some (S n, _) => repl ++ sub_scan m repl bol' n r
          | _ => c :: sub_scan m repl bol' 0 r
          end
      end
  end.

Definition sub {A} (m : Matcher A) (repl : str) (s : str) : str :=
  sub_scan m repl true 0 s.

(** [[class]{lo,}]: the whole run of [class] characters, when it has [lo]
    of them. *)
Definition run_at_least (lo : nat) (p : ascii → bool) : Matcher unit :=
  λ _ s, let '(a, _) := span p s in
         if (lo <=? length a)%nat then Some (length a, ()) else None.

(** A literal. *)
Definition literal (lit : str) : Matcher unit :=
  λ _ s, if startswith lit s then Some (length lit, ()) else None.

(** Whether a position is the start of a line, given whether the position
    [skipped] characters before it was one. *)
Definition bol_after (bol : bool) (skipped : str) : bool :=
  from_option (λ c, chr_eqb c NL) bol (last skipped).

(** A pattern that reads one line: what it finds in a line does not depend
    on the lines after it, and its match stays within the text. *)
Definition line_local {A} (m : Matcher A) : Prop :=
  (∀ bol l rest, NL ∉ l → m bol (l ++ NL :: rest) = m bol l) ∧
  (∀ bol s n a, m bol s = Some (n, a) → n ≤ length s).

(** The text with every run of [c0] cut down to [limit] characters; [k] of
    the run are behind. *)
Fixpoint cap (c0 : ascii) (limit k : nat) (s : str) : str :=
  match s with
  | [] => []
  | c :: r =>
      if chr_eqb c0 c
      then if (k <? limit)%nat then c :: cap c0 limit (S k) r
           else cap c0 limit (S k) r
      else c :: cap c0 limit 0 r
  end.

(** No run of [c0] is longer than [limit]; [k] of the first run are
    behind. *)
Fixpoint capped (c0 : ascii) (limit k : nat) (s : str) : Prop :=
  match s with
  | [] => True
  | c :: r =>
      if chr_eqb c0 c then k < limit ∧ capped c0 limit (S k) r
      else capped c0 limit 0 r
  end.

End Re.

(** ** [pathlib] on POSIX paths *)

Module PyPath.
Import PyStr.

(** [Path(p).name]: the last component; empty and [.] components are not
    components. *)
Definition name (p : str) : str :=
  default [] (last (filter (λ part, part ≠ [] ∧ part ≠ s2l ".")
                           (split_on "/"%char p))).

(** [Path(p).suffix]: from the last dot of the name on, when that dot is
    neither its first nor its last character. *)
Definition suffix (p : str) : str :=
  let n := name p in
  match rfind "."%char n with
  | Some i => if (0 <? i) && (i <? length n - 1) then drop i n else []
  | None => []
  end.

(** [Path(p).is_absolute()]. *)
Definition is_absolute (p : string) : bool := startswith (s2l "/") (s2l p).

(** The root of a path: [//] for exactly two slashes at its start, [/]
    for one and for three and more. *)
Definition root (p : str) : str :=
  if startswith (s2l "///") p then s2l "/"
  else if startswith (s2l "//") p then s2l "//"
  else if startswith (s2l "/") p then s2l "/"
  else [].

(** The components of a path: what stands between its slashes, without
    the empty components and the components [.]. *)
Definition components (p : str) : list str :=
  filter (λ part, part ≠ [] ∧ part ≠ s2l ".") (split_on "/"%char p).

(** The root and the components as [pathlib] prints them; [.] for the
    empty path. *)
Definition printed (root : str) (components : list str) : str :=
  match root ++ join (s2l "/") components with
  | [] => s2l "."
  | path => path
  end.

(** [str(Path(p))]. *)
Definition str_path (p : str) : str := printed (root p) (components p).

(** [str(Path(a) / b)]: an absolute [b] replaces [a]. *)
Definition joinpath (a b : str) : str :=
  if startswith (s2l "/") b then str_path b
  else printed (root a) (components a ++ components b).

(** The same on the text of a path. *)
Definition printed_path (p : string) : string :=
  string_of_list_ascii (str_path (s2l p)).

Definition joined_path (a b : string) : string :=
  string_of_list_ascii (joinpath (s2l a) (s2l b)).

End PyPath.

(** ** The PDF validator: [converters/pdf_converter.py] *)

Module PDFConverter.
Import PyStr.

(** What the [try] block of [validate_pdf] can raise. *)
Inductive Exn :=
| PdfReadError
| OtherException (str_e : string).

(** A [pypdf.PdfReader] that could be built: its [is_encrypted] flag and
    [len(reader.pages)], which may raise. *)
Record PdfReader := mkReader {
  is_encrypted : bool;
  num_pages : Exn + nat
}.

(** A file on disk: [stat().st_size] and what opening it with
    [pypdf.PdfReader] gives. *)
Record File := mkFile {
  st_size : N;
  reader : Exn + PdfReader
}.

(** The file system: the paths that exist. *)
Abbreviation FileSystem := (gmap string File).

Definition Result : Type := bool * option string.

Definition max_size : N := 100 * 1024 * 1024.

(** The body of the [try] block. *)
Definition validate_pdf_try (fs : FileSystem) (file_path : string)
    : Exn + Result :=
  match fs !! file_path with
  | None => inr (false, Some "File does not exist")
  | Some f =>
      if negb (bool_decide (lower (PyPath.suffix (s2l file_path)) = s2l ".pdf"))
      then inr (false, Some "File is not a PDF")
      else if (st_size f =? 0)%N
      then inr (false, Some "PDF file is empty")
      else if (max_size <? st_size f)%N
      then inr (false, Some "PDF file is too large (>100MB)")
      else
        match reader f with
        | inl e => inl e
        | inr pdf_reader =>
            if is_encrypted pdf_reader
            then inr (false, Some "PDF is encrypted")
            else match num_pages pdf_reader with
                 | inl e => inl e
                 | inr n =>
                     if (n =? 0)%nat
                     then inr (false, Some "PDF has no pages")
                     else inr (true, None)
                 end
        end
  end.

(** The two [except] clauses. *)
Definition except (e : Exn) : Result :=
  match e with
  | PdfReadError => (false, Some "PDF is corrupted or unreadable")
  | OtherException str_e => (false, Some ("Validation error: " +:+ str_e))
  end.

Definition validate_pdf (fs : FileSystem) (file_path : string) : Result :=
  match validate_pdf_try fs file_path with
  | inr r => r
  | inl e => except e
  end.

(** The checks as the specification lists them, in its order. *)
Inductive Check :=
| FileExists
| ExtensionIsPdf
| SizePositive
| SizeWithinMaximum
| Parseable
| NotEncrypted
| HasPages.

Definition checks_in_order : list Check :=
  [FileExists; ExtensionIsPdf; SizePositive; SizeWithinMaximum; Parseable;
   NotEncrypted; HasPages].

(** The reason of a check that cannot read the file: one text for what the
    PDF reader itself rejects, and the text of any other error after
    [Validation error]. *)
Definition unreadable (e : Exn) : string :=
  match e with
  | PdfReadError => "PDF is corrupted or unreadable"
  | OtherException str_e => "Validation error: " +:+ str_e
  end.

(** One check on its own: [None] when it passes, its reason when it fails.
    A check that needs the file, or the reader, passes when there is none:
    an earlier check has failed then. The pages are counted by the last
    check, which fails as unreadable when they cannot be. *)
Definition check_failure (fs : FileSystem) (file_path : string) (c : Check)
    : option string :=
  match c with
  | FileExists =>
      match fs !! file_path with
      | None => Some "File does not exist"
      | Some _ => None
      end
  | ExtensionIsPdf =>
      if bool_decide (lower (PyPath.suffix (s2l file_path)) = s2l ".pdf")
      then None else Some "File is not a PDF"
  | SizePositive =>
      match fs !! file_path with
      | Some f => if (0 <? st_size f)%N then None
                  else Some "PDF file is empty"
      | None => None
      end
  | SizeWithinMaximum =>
      match fs !! file_path with
      | Some f => if (st_size f <=? max_size)%N then None
                  else Some "PDF file is too large (>100MB)"
      | None => None
      end
  | Parseable =>
      match reader <$> fs !! file_path with
      | Some (inl e) => Some (unreadable e)
      | _ => None
      end
  | NotEncrypted =>
      match reader <$> fs !! file_path with
      | Some (inr r) => if is_encrypted r then Some "PDF is encrypted" else None
      | _ => None
      end
  | HasPages =>
      match reader <$> fs !! file_path with
      | Some (inr r) =>
          match num_pages r with
          | inl e => Some (unreadable e)
          | inr n => if (0 <? n)%nat then None else Some "PDF has no pages"
          end
      | _ => None
      end
  end.

(** The reason of the first check that fails, going through [checks]. *)
Fixpoint first_failure (fs : FileSystem) (file_path : string)
    (checks : list Check) : option string :=
  match checks with
  | [] => None
  | c :: rest =>
      match check_failure fs file_path c with
      | Some reason => Some reason
      | None => first_failure fs file_path rest
      end
  end.

(** The result the specification asks for. *)
Definition validate_spec (fs : FileSystem) (file_path : string) : Result :=
  match first_failure fs file_path checks_in_order with
  | Some reason => (false, Some reason)
  | None => (true, None)
  end.

(** A file system with one file, [empty.pdf], of no bytes. *)
Definition fs_empty_pdf : FileSystem :=
  {[ "empty.pdf" := mkFile 0 (inl PdfReadError) ]}.

(** A file system with one file of ten bytes that the reader rejects. *)
Definition fs_broken_pdf : FileSystem :=
  {[ "broken.pdf" := mkFile 10 (inl PdfReadError) ]}.

End PDFConverter.

(** ** The conversion endpoint: [api.py] *)

Module Api.
Import PyStr.

(** [ConversionRequest]. *)
Record ConversionRequest := mkRequest {
  req_documentId : string;
  req_filePath : string;
  req_options : option (gmap string string)
}.

(** [ConversionResponse], also the shape of the dictionary that
    [DoclingService.convert_pdf_to_markdown] returns. *)
Record ConversionResponse := mkResponse {
  documentId : string;
  markdown : string;
  images : list string;
  metadata : gmap string string;
  status : string;
  errors : list string
}.

(** What can be raised inside the handler. *)
Inductive Exn :=
| HTTPException (status_code : nat) (detail : string)
| OtherException (str_e : string).

(** What the client gets: the JSON of a response model with HTTP 200, or
    an HTTP error. *)
Inductive HttpResponse :=
| Ok200 (body : ConversionResponse)
| HttpError (status_code : nat) (detail : string).

(** The calls a handler makes on [status_tracker]. *)
Inductive TrackerCall :=
| StartConversion (document_id : string)
| CompleteConversion (document_id : string) (metadata : gmap string string)
| FailConversion (document_id error : string).

(** FastAPI around a handler: an [HTTPException] that leaves the handler
    becomes the HTTP error it names, any other exception a 500. *)
Definition fastapi {A} (served : A → ConversionResponse) (handled : Exn + A)
    : HttpResponse :=
  match handled with
  | inr a => Ok200 (served a)
  | inl (HTTPException status_code detail) => HttpError status_code detail
  | inl (OtherException _) => HttpError 500 "Internal Server Error"
  end.

Section Endpoint.

(** [Path.cwd()]. *)
Variable cwd : string.
(** The files on disk. *)
Variable fs : PDFConverter.FileSystem.
(** [str(e)] of an [HTTPException]: the installed Starlette decides. *)
Variable str_http : nat → string → string.
(** [docling_service.convert_pdf_to_markdown]: it catches what the external
    converter raises and always returns a result dictionary. *)
Variable convert_pdf_to_markdown :
  string → string → option (gmap string string) → ConversionResponse.

Definition str_exn (e : Exn) : string :=
  match e with
  | HTTPException status_code detail => str_http status_code detail
  | OtherException str_e => str_e
  end.

(** [DoclingService.check_pdf_encryption]: [False] when opening or reading
    the file raises. *)
Definition check_pdf_encryption (file_path : string) : bool :=
  match fs !! file_path with
  | Some f =>
      match PDFConverter.reader f with
      | inr pdf_reader => PDFConverter.is_encrypted pdf_reader
      | inl _ => false
      end
  | None => false
  end.

(** [file_path] after
    [if not file_path.is_absolute(): file_path = Path.cwd() / file_path],
    as [pathlib] prints it. *)
Definition resolve (filePath : string) : string :=
  if PyPath.is_absolute filePath then PyPath.printed_path filePath
  else PyPath.joined_path cwd filePath.

Definition encrypted_response (document_id : string) : ConversionResponse :=
  mkResponse document_id "" [] ∅ "failed"
    ["PDF_ENCRYPTED: PDF is password protected. Please unlock before uploading."].

(** The [try] block of [convert_pdf] when the calls on the tracker return:
    the response it returns and the tracker calls it made, or the exception
    it raised. *)
Definition convert_pdf_try (request : ConversionRequest)
    : Exn + (ConversionResponse * list TrackerCall) :=
  let file_path := resolve (req_filePath request) in
  match fs !! file_path with
  | None => inl (HTTPException 404 ("File not found: " +:+ file_path))
  | Some _ =>
      if check_pdf_encryption file_path
      then inr (encrypted_response (req_documentId request), [])
      else
        let result :=
          convert_pdf_to_markdown file_path (req_documentId request)
                                  (req_options request) in
        let after :=
          if bool_decide (status result = "success")
          then [CompleteConversion (req_documentId request) (metadata result)]
          else if bool_decide (status result = "failed")
          then [FailConversion (req_documentId request)
                  (default "Unknown error" (head (errors result)))]
          else [] in
        inr (result, StartConversion (req_documentId request) :: after)
  end.

(** [convert_pdf]: the [except Exception as e] clause answers every
    exception of the [try] block with a failed response. *)
Definition convert_pdf (request : ConversionRequest)
    : Exn + (ConversionResponse * list TrackerCall) :=
  match convert_pdf_try request with
  | inr r => inr r
  | inl e =>
      inr (mkResponse (req_documentId request) "" [] ∅ "failed" [str_exn e],
           [])
  end.

(** [POST /api/documents/convert]. *)
Definition post_convert (request : ConversionRequest) : HttpResponse :=
  fastapi fst (convert_pdf request).

End Endpoint.

(** Starlette's [HTTPException.__str__]: the code, a colon, the detail. *)
Definition starlette_str (status_code : nat) (detail : string) : string :=
  pretty status_code +:+ ": " +:+ detail.

(** A result dictionary that no scenario below reaches. *)
Definition no_result (file_path document_id : string)
    (options : option (gmap string string)) : ConversionResponse :=
  mkResponse document_id "" [] ∅ "success" [].

End Api.

(** ** The quality checker: [utils/quality_checker.py] *)

Module QualityChecker.
Import PyStr Re.

Definition eqc (c : ascii) : ascii → bool := chr_eqb c.
Definition is_not_nl (c : ascii) : bool := negb (chr_eqb c NL).

(** [^(#{1,6})\s+] under [re.MULTILINE]; the capture is the number of
    hashes. More than six hashes in a row match nowhere: the seventh is no
    whitespace. *)
Definition heading_re : Matcher nat :=
  λ bol s,
    if bol then
      let '(hashes, r) := span (eqc "#") s in
      let '(ws, _) := span isspace r in
      if (1 <=? length hashes)%nat && (length hashes <=? 6)%nat && nonempty ws
      then Some (length hashes + length ws, length hashes)
      else None
    else None.

Definition table_sep_class (c : ascii) : bool :=
  eqc "-" c || eqc ":" c || isspace c || eqc "|" c.

(** The index after the last [|] of [cls] that is not its first character:
    where [[-:\s|]+\|] ends in the run [cls] of class characters. *)
Fixpoint last_bar_end (cls : str) (i : nat) : option nat :=
  match cls with
  | [] => None
  | c :: r =>
      match last_bar_end r (S i) with
      | Some e => Some e
      | None => if eqc "|" c && (1 <=? i)%nat then Some (S i) else None
      end
  end.

(** [\|.*\|.*\n\|[-:\s|]+\|]: a bar, a second bar later on the line, the
    end of the line, a bar, and class characters up to a last bar. *)
Definition table_re : Matcher unit :=
  λ _ s,
    match s with
    | c :: r =>
        let '(line, r1) := span is_not_nl r in
        if eqc "|" c && existsb (eqc "|") line then
          match r1 with
          | _ :: c2 :: r3 =>
              if eqc "|" c2 then
                let '(cls, _) := span table_sep_class r3 in
                match last_bar_end cls 0 with
                | Some e => Some (1 + length line + 2 + e, ())
                | None => None
                end
              else None
          | _ => None
          end
        else None
    | [] => None
    end.

Definition is_bullet (c : ascii) : bool := eqc "-" c || eqc "*" c || eqc "+" c.

(** [^[\s]*[-*+]\s+] under [re.MULTILINE]. *)
Definition bullet_re : Matcher unit :=
  λ bol s,
    if bol then
      let '(indent, r) := span isspace s in
      match r with
      | c :: r' =>
          let '(ws, _) := span isspace r' in
          if is_bullet c && nonempty ws
          then Some (length indent + 1 + length ws, ())
          else None
      | [] => None
      end
    else None.

(** [^[\s]*\d+\.\s+] under [re.MULTILINE]. *)
Definition numbered_re : Matcher unit :=
  λ bol s,
    if bol then
      let '(indent, r) := span isspace s in
      let '(digits, r') := span isdigit r in
      match r' with
      | c :: r'' =>
          let '(ws, _) := span isspace r'' in
          if nonempty digits && eqc "." c && nonempty ws
          then Some (length indent + length digits + 1 + length ws, ())
          else None
      | [] => None
      end
    else None.

(** [min(100, (count / expected) * 100)]. *)
Definition score_of (count : nat) (expected : Z) : Q :=
  Qmin 100 ((inject_Z (Z.of_nat count) / inject_Z expected) * 100)%Q.

(** The [if key in expected_elements: ... if expected > 0: scores.append]
    steps. *)
Definition score_for (expected_elements : gmap string Z) (key : string)
    (count : nat) : list Q :=
  match expected_elements !! key with
  | Some expected => if (0 <? expected)%Z then [score_of count expected] else []
  | None => []
  end.

Definition word_count (markdown : str) : nat := length (split_ws markdown).

(** [sum(scores)]. *)
Definition Qsum (scores : list Q) : Q := foldr Qplus 0%Q scores.

(** [calculate_accuracy_score]. *)
Definition calculate_accuracy_score (markdown : str)
    (expected_elements : gmap string Z) : Q :=
  if negb (nonempty markdown) then 0%Q
  else
    let scores :=
      score_for expected_elements "headings"
                (length (findall heading_re markdown))
      ++ score_for expected_elements "tables"
                   (length (findall table_re markdown))
      ++ score_for expected_elements "lists"
                   (length (findall bullet_re markdown)
                    + length (findall numbered_re markdown))
      ++ score_for expected_elements "min_words" (word_count markdown) in
    match scores with
    | [] =>
        if (word_count markdown <? 10)%nat then 0%Q
        else if (word_count markdown <? 100)%nat then 50%Q
        else 75%Q
    | _ :: _ => (Qsum scores / inject_Z (Z.of_nat (length scores)))%Q
    end.

(** [!\[.*?\]\(.*?\)] when [bang], [\[.*?\]\(.*?\)] otherwise: a bracket,
    on the same line a closing bracket followed by a parenthesis, and on
    that line a closing parenthesis. The length is of no use to [search]. *)
Fixpoint closes_link (line : str) : bool :=
  match line with
  | c :: r =>
      (eqc "]" c && match r with
                   | c2 :: r2 => eqc "(" c2 && existsb (eqc ")") r2
                   | [] => false
                   end)
      || closes_link r
  | [] => false
  end.

Definition link_re (bang : bool) : Matcher unit :=
  λ _ s,
    let body := if bang then match s with
                             | c :: r => if eqc "!" c then Some r else None
                             | [] => None
                             end
                else Some s in
    match body with
    | Some (c :: r) =>
        if eqc "[" c && closes_link (span is_not_nl r).1 then Some (1%nat, ())
        else None
    | _ => None
    end.

(** [_check_heading_hierarchy]: no level more than one above the level
    before it. *)
Fixpoint levels_ok (levels : list nat) : bool :=
  match levels with
  | a :: (b :: _) as rest => negb (a + 1 <? b)%nat && levels_ok rest
  | _ => true
  end.

Definition _check_heading_hierarchy (markdown : str) : bool :=
  levels_ok (findall heading_re markdown).

(** The dictionary of [check_structure_preservation]. *)
Record Structure := mkStructure {
  has_headings : bool;
  has_paragraphs : bool;
  has_lists : bool;
  has_tables : bool;
  has_images : bool;
  has_links : bool;
  proper_hierarchy : bool
}.

(** [check_structure_preservation]; [re.split(r'\n\n+', markdown)] has more
    than one part when the text has two line feeds in a row. *)
Definition check_structure_preservation (markdown : str) : Structure :=
  mkStructure
    (search heading_re markdown)
    (search (run_at_least 2 (eqc NL)) markdown)
    (search bullet_re markdown || search numbered_re markdown)
    (search table_re markdown)
    (search (link_re true) markdown)
    (search (link_re false) markdown)
    (_check_heading_hierarchy markdown).

Definition is_garbled (c : ascii) : bool :=
  (code c =? 239)%N || (code c =? 191)%N || (code c =? 189)%N.

Definition not_bar_nl (c : ascii) : bool := negb (eqc "|" c || eqc NL c).

(** [\|(?:[^|\n]*\|){1}[^|\n]*\n(?!\|)]. *)
Definition broken_table_re : Matcher unit :=
  λ _ s,
    match s with
    | c :: r =>
        let '(a, r1) := span not_bar_nl r in
        match r1 with
        | c1 :: r2 =>
            let '(b, r3) := span not_bar_nl r2 in
            match r3 with
            | c3 :: r4 =>
                if eqc "|" c && eqc "|" c1 && eqc NL c3
                   && negb (startswith (s2l "|") r4)
                then Some (1 + length a + 1 + length b + 1, ())
                else None
            | [] => None
            end
        | [] => None
        end
    | [] => None
    end.

(** [detect_conversion_issues]. *)
Definition detect_conversion_issues (markdown : str) : list string :=
  let garbled_count := length (findall (run_at_least 1 is_garbled) markdown) in
  (if search (run_at_least 1 (λ c, (127 <? code c)%N)) markdown
      && (10 <? garbled_count)%nat
   then ["Encoding issues detected (" +:+ pretty garbled_count
         +:+ " garbled characters)"]
   else [])
  ++ (if search (run_at_least 10 (eqc ".")) markdown
         || search (run_at_least 10 (eqc "_")) markdown
      then ["Excessive repeated characters (possible OCR error)"]
      else [])
  ++ (let broken_tables := findall broken_table_re markdown in
      if nonempty_list broken_tables
      then ["Potentially broken tables detected ("
            +:+ pretty (length broken_tables) +:+ ")"]
      else [])
  ++ (if (word_count markdown <? 10)%nat
      then ["Very low word count - possible extraction failure"]
      else [])
  ++ (let long_lines :=
        filter (λ line, (500 < length line)%nat) (split_lines markdown) in
      if (5 <? length long_lines)%nat
      then ["Many excessively long lines - possible formatting issues"]
      else [])
  ++ (if (10 <? length (findall (literal [NL; NL; NL]) markdown))%nat
      then ["Excessive blank lines"]
      else []).

(** [calculate_completeness_score]. *)
Definition calculate_completeness_score (markdown : str) (source_size : Z)
    : Q * string :=
  if (source_size =? 0)%Z then (0%Q, "Source file is empty")
  else
    let markdown_size := utf8_len markdown in
    let ratio :=
      (inject_Z (Z.of_nat markdown_size) / inject_Z source_size)%Q in
    if Qlt_le_dec ratio (1 # 100) then (10%Q, "Very poor extraction")
    else if Qlt_le_dec ratio (5 # 100) then (30%Q, "Poor extraction")
    else if Qlt_le_dec ratio (1 # 10) then (50%Q, "Partial extraction")
    else if Qlt_le_dec ratio (3 # 10) then (70%Q, "Good extraction")
    else if Qlt_le_dec ratio 1 then (85%Q, "Very good extraction")
    else (95%Q, "Excellent extraction").

(** The dictionary of [generate_quality_report]. *)
Record QualityReport := mkReport {
  overall_score : Q;
  completeness_score : Q;
  completeness_assessment : string;
  accuracy_score : Q;
  structure_preservation : Structure;
  detected_issues : list string;
  processing_time : Q;
  report_word_count : nat;
  character_count : nat;
  line_count : nat
}.

(** [generate_quality_report]. *)
Definition generate_quality_report (markdown : str) (source_size : Z)
    (processing_time : Q) : QualityReport :=
  let structure := check_structure_preservation markdown in
  let issues := detect_conversion_issues markdown in
  let '(completeness_score, completeness_assessment) :=
    calculate_completeness_score markdown source_size in
  let accuracy_score :=
    calculate_accuracy_score markdown {[ "min_words" := 100%Z ]} in
  let overall_score := ((completeness_score + accuracy_score) / 2)%Q in
  mkReport overall_score completeness_score completeness_assessment
           accuracy_score structure issues processing_time
           (word_count markdown) (length markdown)
           (length (split_lines markdown)).

(** A score between 0 and 100. *)
Definition in_0_100 (q : Q) : Prop := (0 <= q)%Q ∧ (q <= 100)%Q.

(** The markdown of the issue scenario: [Text], twenty dots, six line
    feeds, [More]. *)
Definition dots_and_blanks : str :=
  s2l "Text" ++ rep "." 20 ++ rep NL 6 ++ s2l "More".

End QualityChecker.

(** ** The markdown formatter: [utils/markdown_formatter.py] *)

Module MarkdownFormatter.
Import PyStr Re.

Definition eqc (c : ascii) : ascii → bool := chr_eqb c.
Definition is_sp_tab (c : ascii) : bool := eqc " " c || (code c =? 9)%N.

(** [^[ \t]+] under [re.MULTILINE]. *)
Definition leading_blanks_re : Matcher unit :=
  λ bol s, if bol then run_at_least 1 is_sp_tab bol s else None.

(** [[ \t]+$] under [re.MULTILINE]: a run of blanks that ends where the
    line ends. *)
Definition trailing_blanks_re : Matcher unit :=
  λ _ s,
    let '(a, r) := span is_sp_tab s in
    if nonempty a && (negb (nonempty r) || startswith [NL] r)
    then Some (length a, ()) else None.

(** The loop of [clean_markdown]: an empty line goes between two lines
    that both start with a hash. *)
Fixpoint separate_headings (prev_was_heading : bool) (lines : list str)
    : list str :=
  match lines with
  | [] => []
  | line :: rest =>
      let is_heading := startswith (s2l "#") line in
      (if is_heading && prev_was_heading then [[]] else [])
      ++ line :: separate_headings is_heading rest
  end.

(** [clean_markdown]. *)
Definition clean_markdown (content : str) : str :=
  let content := sub (run_at_least 3 (eqc NL)) [NL; NL] content in
  let content := sub (run_at_least 2 (eqc " ")) (s2l " ") content in
  let content := sub leading_blanks_re [] content in
  let content := sub trailing_blanks_re [] content in
  join_lines (separate_headings false (split_lines content)).

(** What [\s+(.+)$] leaves for the group after the whitespace run [ws] on
    a line: the rest of the line, or, when nothing is left, the last
    character of a run of two or more, which [\s+] gives back. *)
Definition rest_group (ws rest : str) : option str :=
  match ws, rest with
  | [], _ => None
  | _ :: _, _ :: _ => Some rest
  | [_], [] => None
  | _ :: c :: ws', [] => Some [List.last ws' c]
  end.

(** [re.match(r'^(#+)\s+(.+)$', line)] on a line, which holds no line
    feed: the two groups. *)
Definition heading_match (line : str) : option (str * str) :=
  let '(hashes, r) := span (eqc "#") line in
  let '(ws, rest) := span isspace r in
  if nonempty hashes
  then (λ title, (hashes, title)) <$> rest_group ws rest
  else None.

(** [while heading_stack and heading_stack[-1] >= level: heading_stack.pop()];
    the top of the stack is the head of the list. *)
Fixpoint pop_to (heading_stack : list nat) (level : nat) : list nat :=
  match heading_stack with
  | top :: below =>
      if (level <=? top)%nat then pop_to below level else heading_stack
  | [] => []
  end.

(** The body of the loop of [fix_heading_hierarchy] for a line that is a
    heading of [level] with [title]: the level and the line after the
    clamp. *)
Definition clamp (heading_stack : list nat) (level : nat) (title line : str)
    : nat * str :=
  match heading_stack with
  | last_level :: _ =>
      if (last_level + 1 <? level)%nat
      then (last_level + 1, rep "#" (last_level + 1) ++ s2l " " ++ title)%nat
      else (level, line)
  | [] => (level, line)
  end.

(** The body of the loop of [fix_heading_hierarchy] on one line: the stack
    and the line appended to [fixed_lines]. *)
Definition fix_step (heading_stack : list nat) (line : str)
    : list nat * str :=
  match (if startswith (s2l "#") line then heading_match line else None) with
  | Some (hashes, title) =>
      let '(level, line) := clamp heading_stack (length hashes) title line in
      (level :: pop_to heading_stack level, line)
  | None => (heading_stack, line)
  end.

(** The loop of [fix_heading_hierarchy]: the stack it ends with and
    [fixed_lines]. *)
Fixpoint fix_loop (heading_stack : list nat) (lines : list str)
    : list nat * list str :=
  match lines with
  | [] => (heading_stack, [])
  | line :: rest =>
      let '(heading_stack, line) := fix_step heading_stack line in
      let '(final_stack, fixed_lines) := fix_loop heading_stack rest in
      (final_stack, line :: fixed_lines)
  end.

(** [fix_heading_hierarchy]. *)
Definition fix_heading_hierarchy (content : str) : str :=
  join_lines (fix_loop [] (split_lines content)).2.

(** The level of a line that the formatter reads as a heading: the number
    of its hashes. *)
Definition heading_level (line : str) : option nat :=
  if startswith (s2l "#") line
  then (λ groups, length groups.1) <$> heading_match line
  else None.

(** The levels of the headings of a text, top to bottom. *)
Definition heading_levels (content : str) : list nat :=
  omap heading_level (split_lines content).

(** No level is more than one above the level before it. *)
Definition no_skip (levels : list nat) : Prop :=
  ∀ i a b, levels !! i = Some a → levels !! S i = Some b → b ≤ a + 1.

(** One character of a class. *)
Definition one_of (p : ascii → bool) : Matcher unit :=
  λ _ s, match s with
         | c :: _ => if p c then Some (1%nat, ()) else None
         | [] => None
         end.

(** [re.sub(r'[-\s]+', '-', re.sub(r'[^\w\s-]', '', title.lower()))]. *)
Definition anchor_of (title : str) : str :=
  let anchor :=
    sub (one_of (λ c, negb (isword c || isspace c || eqc "-" c))) []
        (lower title) in
  sub (run_at_least 1 (λ c, eqc "-" c || isspace c)) (s2l "-") anchor.

(** The entry of a heading in the table of contents. *)
Definition toc_entry (level : nat) (title : str) : str :=
  concat (replicate (level - 1) (s2l "  "))
  ++ s2l "- [" ++ title ++ s2l "](#" ++ anchor_of title ++ s2l ")".

(** The loop of [add_table_of_contents]: the entries appended to
    [toc_lines], one for each heading of level 3 at most. *)
Fixpoint toc_entries (lines : list str) : list str :=
  match lines with
  | [] => []
  | line :: rest =>
      match (if startswith (s2l "#") line then heading_match line else None) with
      | Some (hashes, title) =>
          if (length hashes <=? 3)%nat
          then toc_entry (length hashes) title :: toc_entries rest
          else toc_entries rest
      | None => toc_entries rest
      end
  end.

(** A line that the formatter reads as a heading of level 3 at most. *)
Definition qualifies (line : str) : bool :=
  match heading_level line with
  | Some level => (level <=? 3)%nat
  | None => false
  end.

(** The number of lines of a text that the formatter reads so. *)
Definition qualifying_headings (content : str) : nat :=
  length (filter (λ line, qualifies line) (split_lines content)).

(** The number of hashes a line starts with. *)
Fixpoint leading_hashes (line : str) : nat :=
  match line with
  | c :: rest => if eqc "#" c then S (leading_hashes rest) else 0
  | [] => 0
  end.

(** A heading of level 3 at most, as markdown writes one: one, two or
    three hashes, a whitespace character and a title of one character at
    least. *)
Definition heading_up_to_3 (line : str) : bool :=
  let level := leading_hashes line in
  (1 <=? level)%nat && (level <=? 3)%nat &&
  match drop level line with
  | space :: _ :: _ => isspace space
  | _ => false
  end.

(** The number of such headings among the lines of a text. *)
Definition headings_up_to_3 (content : str) : nat :=
  length (filter (λ line, heading_up_to_3 line) (split_lines content)).

(** [add_table_of_contents]; [headings] grows with [toc_lines], so its
    length is the number of entries. *)
Definition add_table_of_contents (content : str) : str :=
  let entries := toc_entries (split_lines content) in
  let toc_lines := (s2l "## Table of Contents" ++ [NL]) :: entries in
  if (2 <? length entries)%nat
  then join_lines toc_lines ++ [NL; NL] ++ content
  else content.

Definition is_bullet (c : ascii) : bool := eqc "-" c || eqc "*" c || eqc "+" c.

(** [re.match(r'^[-*+]\s+', stripped)]. *)
Definition bullet_match (stripped : str) : bool :=
  match stripped with
  | c :: c' :: _ => is_bullet c && isspace c'
  | _ => false
  end.

(** [re.match(r'^\d+\.\s+', stripped)]. *)
Definition numbered_prefix_match (stripped : str) : bool :=
  let '(digits, r) := span isdigit stripped in
  match r with
  | c :: c' :: _ => nonempty digits && eqc "." c && isspace c'
  | _ => false
  end.

(** [re.match(r'^(\d+)\.\s+(.+)$', stripped)] on a line: the two groups. *)
Definition numbered_match (stripped : str) : option (str * str) :=
  let '(digits, r) := span isdigit stripped in
  match r with
  | c :: r' =>
      let '(ws, rest) := span isspace r' in
      if nonempty digits && eqc "." c
      then (λ text, (digits, text)) <$> rest_group ws rest
      else None
  | [] => None
  end.

(** The body of the loop of [format_lists]. *)
Definition format_line (line : str) : str :=
  let stripped := lstrip line in
  let indent_level := (length line - length stripped)%nat in
  if bullet_match stripped then
    let indent_level := (indent_level / 2 * 2)%nat in
    rep " " indent_level ++ s2l "- " ++ drop 2 stripped
  else if numbered_prefix_match stripped then
    let indent_level := (indent_level / 2 * 2)%nat in
    match numbered_match stripped with
    | Some (num, text) => rep " " indent_level ++ num ++ s2l ". " ++ text
    | None => line
    end
  else line.

(** [format_lists]. *)
Definition format_lists (content : str) : str :=
  join_lines (map format_line (split_lines content)).

(** The group that [\s+(.+)$] captures is the rest of a line, which does
    not start with whitespace, or one whitespace character. *)
Definition group_shape (text : str) : Prop :=
  (text ≠ [] ∧ stops isspace text) ∨ (∃ c, text = [c] ∧ isspace c = true).

(** From [prev] on, no level is more than one above the level before it. *)
Fixpoint chain (prev : option nat) (levels : list nat) : Prop :=
  match levels with
  | [] => True
  | b :: rest =>
      match prev with Some a => b ≤ a + 1 | None => True end
      ∧ chain (Some b) rest
  end.

(** The test of the repository: a title, a heading two levels below it,
    and a heading of level 2. *)
Definition skipped_level : str :=
  s2l "# Title" ++ [NL] ++ s2l "### Skipped Level" ++ [NL]
  ++ s2l "## Back to Level 2".

(** Two headings and a paragraph. *)
Definition two_headings : str :=
  s2l "# Title" ++ [NL] ++ s2l "text" ++ [NL] ++ s2l "## Part".

(** What the three substitutions of [clean_markdown] that work within
    lines do to one line. *)
Definition clean_line (line : str) : str :=
  sub trailing_blanks_re []
      (sub leading_blanks_re []
           (sub (run_at_least 2 (eqc " ")) (s2l " ") line)).

(** A line without its blanks at the end. *)
Fixpoint rtrim (s : str) : str :=
  match s with
  | [] => []
  | c :: r => if forallb is_sp_tab s then [] else c :: rtrim r
  end.

(** Joined by line feeds, the lines have no more than two line feeds in a
    row; [k] line feeds come right before the first line. *)
Fixpoint gaps (k : nat) (lines : list str) : Prop :=
  match lines with
  | [] => True
  | line :: rest =>
      match rest with
      | [] => True
      | _ :: _ =>
          let k' := if nonempty line then 0 else k in
          k' < 2 ∧ gaps (S k') rest
      end
  end.

(** A line, a line of one space, a second one, and a line. *)
Definition blank_lines_with_spaces : str :=
  s2l "a" ++ [NL] ++ s2l " " ++ [NL] ++ s2l " " ++ [NL] ++ s2l "b".

(** ["\n\n\n" in s]: three line feeds in a row. *)
Definition three_line_feeds (s : str) : Prop :=
  ∃ before after, s = before ++ [NL; NL; NL] ++ after.

End MarkdownFormatter.

(** ** [hashlib.md5] *)

Module MD5.

Local Open Scope Z_scope.

Definition add32 (a b : Z) : Z := (a + b) `mod` 2 ^ 32.

Definition not32 (x : Z) : Z := Z.lxor x 0xffffffff.

(** Rotation to the left of a 32-bit word. *)
Definition rotl32 (x c : Z) : Z :=
  Z.lor (Z.shiftl x c `mod` 2 ^ 32) (Z.shiftr x (32 - c)).

Definition shifts : list Z :=
  [7; 12; 17; 22; 7; 12; 17; 22; 7; 12; 17; 22; 7; 12; 17; 22;
   5; 9; 14; 20; 5; 9; 14; 20; 5; 9; 14; 20; 5; 9; 14; 20;
   4; 11; 16; 23; 4; 11; 16; 23; 4; 11; 16; 23; 4; 11; 16; 23;
   6; 10; 15; 21; 6; 10; 15; 21; 6; 10; 15; 21; 6; 10; 15; 21].

(** The integer parts of [2^32 * |sin (i + 1)|]. *)
Definition sines : list Z :=
  [0xd76aa478; 0xe8c7b756; 0x242070db; 0xc1bdceee;
   0xf57c0faf; 0x4787c62a; 0xa8304613; 0xfd469501;
   0x698098d8; 0x8b44f7af; 0xffff5bb1; 0x895cd7be;
   0x6b901122; 0xfd987193; 0xa679438e; 0x49b40821;
   0xf61e2562; 0xc040b340; 0x265e5a51; 0xe9b6c7aa;
   0xd62f105d; 0x02441453; 0xd8a1e681; 0xe7d3fbc8;
   0x21e1cde6; 0xc33707d6; 0xf4d50d87; 0x455a14ed;
   0xa9e3e905; 0xfcefa3f8; 0x676f02d9; 0x8d2a4c8a;
   0xfffa3942; 0x8771f681; 0x6d9d6122; 0xfde5380c;
   0xa4beea44; 0x4bdecfa9; 0xf6bb4b60; 0xbebfbc70;
   0x289b7ec6; 0xeaa127fa; 0xd4ef3085; 0x04881d05;
   0xd9d4d039; 0xe6db99e5; 0x1fa27cf8; 0xc4ac5665;
   0xf4292244; 0x432aff97; 0xab9423a7; 0xfc93a039;
   0x655b59c3; 0x8f0ccc92; 0xffeff47d; 0x85845dd1;
   0x6fa87e4f; 0xfe2ce6e0; 0xa3014314; 0x4e0811a1;
   0xf7537e82; 0xbd3af235; 0x2ad7d2bb; 0xeb86d391].

(** [n] bytes of [x], the least significant first. *)
Fixpoint le_bytes (n : nat) (x : Z) : list Z :=
  match n with
  | O => []
  | S k => x `mod` 256 :: le_bytes k (x `div` 256)
  end.

(** The value of bytes read the least significant first. *)
Fixpoint le_value (bytes : list Z) : Z :=
  match bytes with
  | [] => 0
  | b :: rest => b + 256 * le_value rest
  end.

(** The message, a 1 bit, zeros up to 56 modulo 64 bytes, and the length
    in bits on 8 bytes. *)
Definition pad (msg : list Z) : list Z :=
  let len := Z.of_nat (length msg) in
  msg ++ [0x80] ++ replicate (Z.to_nat ((55 - len) `mod` 64)) 0
      ++ le_bytes 8 (8 * len).

(** [n] pieces of [size] elements. *)
Fixpoint pieces {A} (n size : nat) (l : list A) : list (list A) :=
  match n with
  | O => []
  | S k => take size l :: pieces k size (drop size l)
  end.

(** One of the 64 operations on the state [(a, b, c, d)] with the 16 words
    [m] of the block. *)
Definition operation (m : list Z) (st : Z * Z * Z * Z) (i : nat)
    : Z * Z * Z * Z :=
  let '(a, b, c, d) := st in
  let '(f, g) :=
    if (i <? 16)%nat then (Z.lor (Z.land b c) (Z.land (not32 b) d), i)
    else if (i <? 32)%nat
    then (Z.lor (Z.land d b) (Z.land (not32 d) c), (5 * i + 1) mod 16)%nat
    else if (i <? 48)%nat
    then (Z.lxor (Z.lxor b c) d, (3 * i + 5) mod 16)%nat
    else (Z.lxor c (Z.lor b (not32 d)), (7 * i) mod 16)%nat in
  let f := add32 (add32 (add32 f a) (nth i sines 0)) (nth g m 0) in
  (d, add32 b (rotl32 f (nth i shifts 0)), b, c).

(** One block of 64 bytes. *)
Definition block (st : Z * Z * Z * Z) (bytes : list Z) : Z * Z * Z * Z :=
  let m := le_value <$> pieces 16 4 bytes in
  let '(a0, b0, c0, d0) := st in
  let '(a, b, c, d) := foldl (operation m) st (seq 0 64) in
  (add32 a0 a, add32 b0 b, add32 c0 c, add32 d0 d).

(** [hashlib.md5(data).digest()], a byte a number. *)
Definition digest (data : list Z) : list Z :=
  let padded := pad data in
  let '(a, b, c, d) :=
    foldl block (0x67452301, 0xefcdab89, 0x98badcfe, 0x10325476)
          (pieces (length padded / 64) 64 padded) in
  le_bytes 4 a ++ le_bytes 4 b ++ le_bytes 4 c ++ le_bytes 4 d.

Definition hex_digit (x : Z) : ascii :=
  ascii_of_N (Z.to_N (if x <? 10 then 48 + x else 87 + x)).

(** [hashlib.md5(data).hexdigest()]. *)
Definition hexdigest (data : list Z) : list ascii :=
  concat ((λ b, [hex_digit (b `div` 16); hex_digit (b `mod` 16)])
            <$> digest data).

End MD5.

(** ** Image files: [converters/image_handler.py] and
    [DoclingService._extract_and_save_images] *)

Module Images.
Import PyStr.

(** [bytes], a byte a number. *)
Abbreviation bytes := (list Z).

(** [s.encode()]: UTF-8 of code points below 256. *)
Definition encode (s : str) : bytes :=
  concat ((λ c, let n := Z.of_N (code c) in
                if (n <? 128)%Z then [n]
                else [192 + n `div` 64; 128 + n `mod` 64]%Z) <$> s).

(** [hashlib.md5(data).hexdigest()[:8]]. *)
Definition image_hash (data : bytes) : string :=
  string_of_list_ascii (take 8 (MD5.hexdigest data)).

(** [s.lower()] and what [s.upper()] does to the letters a to z; no other
    character of the range becomes one of the letters of JPEG. *)
Definition lower_string (s : string) : string :=
  string_of_list_ascii (lower (s2l s)).

Definition upper_chr (c : ascii) : ascii :=
  if in_range 97 122 c then ascii_of_N (code c - 32) else c.

Definition upper_string (s : string) : string :=
  string_of_list_ascii (map upper_chr (s2l s)).

(** [directory / name]: the name alone when it is absolute. *)
Definition path_join (directory name : string) : string :=
  if PyPath.is_absolute name then name else directory +:+ "/" +:+ name.

(** What [save_image] did: the file it wrote, whether it put the image on a
    white background first, and the path it returns. *)
Record Saved := mkSaved {
  file_path : string;
  flattened : bool;
  relative_path : string
}.

(** [ImageHandler.save_image]. [opened] is the mode of the image that
    [Image.open] reads from the bytes, [None] when it raises; [save_ok] says
    that [img.save] does not raise. [image_index] is the text the f-string
    puts for it. *)
Definition save_image (output_dir : string) (opened : option string)
    (save_ok : bool) (image_data : bytes)
    (document_id image_index format : string) : option Saved :=
  let image_hash := image_hash image_data in
  let filename :=
    document_id +:+ "_img_" +:+ image_index +:+ "_" +:+ image_hash
    +:+ "." +:+ lower_string format in
  let file_path := path_join output_dir filename in
  match opened with
  | None => None
  | Some mode =>
      let flatten :=
        bool_decide (mode = "RGBA")
        && bool_decide (upper_string format ∈ ["JPEG"; "JPG"]) in
      if save_ok
      then Some (mkSaved file_path flatten ("/uploads/images/" +:+ filename))
      else None
  end.

(** A picture of the converted document: [str(image_data)], the bytes of
    the image it carries, which [_extract_and_save_images] never reads, and
    its [pil_image] when it has one, with whether saving it works. *)
Record Picture := mkPicture {
  picture_str : str;
  picture_bytes : bytes;
  pil_image : option bool
}.

(** The loop of [_extract_and_save_images] from position [idx] on: the file
    written and the reference path of each image saved. *)
Fixpoint extract_loop (image_output_dir document_id : string) (idx : nat)
    (images : list Picture) : list (string * string) :=
  match images with
  | [] => []
  | image_data :: rest =>
      let image_hash := image_hash (encode (picture_str image_data)) in
      let image_filename :=
        document_id +:+ "_img_" +:+ pretty (idx + 1)%nat +:+ "_"
        +:+ image_hash +:+ ".png" in
      let image_path := path_join image_output_dir image_filename in
      match pil_image image_data with
      | Some true =>
          (image_path, "/uploads/images/" +:+ image_filename)
          :: extract_loop image_output_dir document_id (S idx) rest
      | _ => extract_loop image_output_dir document_id (S idx) rest
      end
  end.

(** [_extract_and_save_images]: [saved_images] is the list of the second
    components. *)
Definition _extract_and_save_images (image_output_dir : string)
    (images : list Picture) (document_id : string) : list (string * string) :=
  extract_loop image_output_dir document_id 0 images.

(** The name the specification gives an image file. *)
Definition spec_filename (document_id index hash ext : string) : string :=
  document_id +:+ "_" +:+ index +:+ "_" +:+ hash +:+ "." +:+ ext.

(** The name the code gives it. *)
Definition code_filename (document_id index hash ext : string) : string :=
  document_id +:+ "_img_" +:+ index +:+ "_" +:+ hash +:+ "." +:+ ext.

(** A PNG file of 69 bytes: one red pixel, 8 bits for each of red, green
    and blue. [Image.open] reads it as an image of mode [RGB]. *)
Definition red_pixel_png : bytes :=
  [137; 80; 78; 71; 13; 10; 26; 10;
   0; 0; 0; 13; 73; 72; 68; 82; 0; 0; 0; 1; 0; 0; 0; 1; 8; 2; 0; 0; 0;
   144; 119; 83; 222;
   0; 0; 0; 12; 73; 68; 65; 84; 120; 218; 99; 248; 207; 192; 0; 0; 3; 1; 1; 0;
   247; 3; 65; 67;
   0; 0; 0; 0; 73; 69; 78; 68; 174; 66; 96; 130]%Z.

(** A picture object that prints as [picture 1] and carries that image. *)
Definition printed_picture : Picture :=
  mkPicture (s2l "picture 1") red_pixel_png (Some true).

(** The text holds no slash. *)
Definition no_slash (s : string) : Prop := "/"%char ∉ s2l s.

(** [file] is written below [directory]: its path is the directory, a
    slash and more. *)
Definition under (directory file : string) : Prop :=
  ∃ rest, file = directory +:+ "/" +:+ rest.

End Images.

(** ** The status tracker: the rest of [websocket_handler.py] *)

Module StatusTracker.
Import Hub.

(** The dictionary that [get_status] returns: a stored event has the key
    [metadata], the dictionary of an unknown document has not. *)
Record Status := mkStatus {
  st_type : string;
  st_documentId : string;
  st_status : string;
  st_progress : Z;
  st_message : string;
  st_timestamp : string;
  st_metadata : option (gmap string string)
}.

(** A stored event, as a dictionary. *)
Definition stored (e : StatusEvent) : Status :=
  mkStatus (ev_type e) (ev_documentId e) (ev_status e) (ev_progress e)
           (ev_message e) (ev_timestamp e) (Some (ev_metadata e)).

(** The default of [self.conversion_status.get(document_id, {...})]. *)
Definition unknown (document_id now : string) : Status :=
  mkStatus "conversion_status" document_id "unknown" 0 "No status available"
           now None.

(** [get_status]. *)
Definition get_status (t : ConversionStatusTracker) (document_id now : string)
    : Status :=
  match conversion_status t !! document_id with
  | Some e => stored e
  | None => unknown document_id now
  end.

(** [start_conversion]. *)
Definition start_conversion (send_fails : string → bool)
    (t : ConversionStatusTracker) (document_id now : string)
    : ConversionStatusTracker * list Delivery :=
  update_status send_fails t document_id "processing" 0
                "Starting PDF conversion..." now None.

(** [complete_conversion]. *)
Definition complete_conversion (send_fails : string → bool)
    (t : ConversionStatusTracker) (document_id : string)
    (metadata : gmap string string) (now : string)
    : ConversionStatusTracker * list Delivery :=
  update_status send_fails t document_id "completed" 100
                "Conversion completed successfully" now (Some metadata).

(** [fail_conversion]. *)
Definition fail_conversion (send_fails : string → bool)
    (t : ConversionStatusTracker) (document_id error now : string)
    : ConversionStatusTracker * list Delivery :=
  update_status send_fails t document_id "failed" 0
                ("Conversion failed: " +:+ error) now None.

(** The event that the last [OpPublish] for [document_id] in [ops] builds;
    [before] when there is none. *)
Fixpoint last_published (ops : list Op) (document_id : string)
    (before : option StatusEvent) : option StatusEvent :=
  match ops with
  | [] => before
  | OpPublish _ d status progress message now metadata :: rest =>
      last_published rest document_id
        (if decide (d = document_id)
         then Some (mkEvent "conversion_status" d status progress message now
                            (default ∅ metadata))
         else before)
  | _ :: rest => last_published rest document_id before
  end.

(** The clients of a document whose socket is open and fails on [send_text]. *)
Definition failing (send_fails : string → bool) (m : ConnectionManager)
    (document_id client_id : string) : Prop :=
  client_id ∈ subscribers m document_id ∧
  is_Some (active_connections m !! client_id) ∧
  send_fails client_id = true.

End StatusTracker.

(** ** The broadcast among the other coroutines of the event loop *)

Module EventLoop.
Import Hub.

(** What the other coroutines do to the manager while a coroutine waits at
    an [await]: the four operations that change the manager. The broadcast
    of another coroutine changes it by [disconnect] only. *)
Inductive Mutation :=
| Connect (websocket : WebSocket) (client_id : string)
| Disconnect (client_id : string)
| Subscribe (client_id document_id : string)
| Unsubscribe (client_id document_id : string).

Definition mutate (m : ConnectionManager) (mutation : Mutation)
    : ConnectionManager :=
  match mutation with
  | Connect websocket client_id => connect m websocket client_id
  | Disconnect client_id => disconnect m client_id
  | Subscribe client_id document_id =>
      subscribe_to_document m client_id document_id
  | Unsubscribe client_id document_id =>
      unsubscribe_from_document m client_id document_id
  end.

(** The loop [for client_id in self.document_subscribers[document_id]]
    under way: the manager; whether the set object that the loop iterates
    is still the one the dictionary holds for the document
    ([unsubscribe_from_document] deletes the entry of a set it has emptied,
    and a later subscription makes a new set); whether the object has been
    changed since the loop began. *)
Record Iteration := mkIteration {
  manager : ConnectionManager;
  attached : bool;
  changed : bool
}.

(** The elements of the set object that the loop iterates; the set that has
    left the dictionary is empty. *)
Definition iterated (document_id : string) (it : Iteration) : gset string :=
  if attached it then subscribers (manager it) document_id else ∅.

(** One operation of another coroutine while the loop waits for a send. *)
Definition interfere (document_id : string) (it : Iteration)
    (mutation : Mutation) : Iteration :=
  let m := mutate (manager it) mutation in
  let attached :=
    attached it && bool_decide (is_Some (document_subscribers m !! document_id)) in
  mkIteration m attached
    (changed it
     || bool_decide (iterated document_id (mkIteration m attached false)
                     ≠ iterated document_id it)).

(** How the loop ends. *)
Inductive Outcome :=
| Completed
    (* the iterator is exhausted *)
| SetChangedSize
    (* RuntimeError: Set changed size during iteration *)
| TableDependent.
    (* the set was changed and has the size again that it had when the loop
       began: what the iterator yields next depends on its hash table *)

(** The loop from the iterator's point of view: every step first compares
    the size of the set with the size it had when the loop began.
    [send_fails client_id] says that [send_text] raises an [Exception] on
    the socket of [client_id], and [during client_id] is what the other
    coroutines do while the send to [client_id] is awaited. The coroutine
    runs until the loop ends or raises; its cancellation is left out. The
    result is the state the loop ends in, the clients [send_text] was
    called for, [disconnected_clients], and how the loop ended. *)
Fixpoint send_loop (send_fails : string → bool)
    (during : string → list Mutation) (document_id : string) (size0 : nat)
    (it : Iteration) (clients : list string)
    : Iteration * list string * list string * Outcome :=
  if negb (size (iterated document_id it) =? size0)
  then (it, [], [], SetChangedSize)
  else if changed it then (it, [], [], TableDependent)
  else
    match clients with
    | [] => (it, [], [], Completed)
    | client_id :: rest =>
        match active_connections (manager it) !! client_id with
        | Some _ =>
            let it := foldl (interfere document_id) it (during client_id) in
            let '(it, sent, disconnected_clients, outcome) :=
              send_loop send_fails during document_id size0 it rest in
            (it, client_id :: sent,
             if send_fails client_id
             then client_id :: disconnected_clients
             else disconnected_clients,
             outcome)
        | None => send_loop send_fails during document_id size0 it rest
        end
    end.

(** [broadcast_to_document_subscribers] among other coroutines. [order] is
    the order in which a set is iterated. The clients whose send failed are
    disconnected when the loop has ended; an exception of the loop leaves
    the function before. *)
Definition broadcast_to_document_subscribers
    (order : gset string → list string) (send_fails : string → bool)
    (during : string → list Mutation) (m : ConnectionManager)
    (document_id : string) : ConnectionManager * list string * Outcome :=
  match document_subscribers m !! document_id with
  | None => (m, [], Completed)
  | Some subs =>
      let '(it, sent, disconnected_clients, outcome) :=
        send_loop send_fails during document_id (size subs)
                  (mkIteration m true false) (order subs) in
      match outcome with
      | Completed =>
          (foldl disconnect (manager it) disconnected_clients, sent, Completed)
      | _ => (manager it, sent, outcome)
      end
  end.

(** An operation on the subscriptions to another document. *)
Definition elsewhere (document_id : string) (mutation : Mutation) : Prop :=
  match mutation with
  | Subscribe _ d | Unsubscribe _ d => d ≠ document_id
  | Connect _ _ | Disconnect _ => False
  end.

(** While the sends of a broadcast for [document_id] are awaited, the other
    coroutines connect and disconnect nobody and leave the subscriptions to
    the document alone. *)
Definition quiet (document_id : string) (during : string → list Mutation)
    : Prop :=
  ∀ client_id, Forall (elsewhere document_id) (during client_id).

(** The set that the loop iterates after the operations of the other
    coroutines in one wait. *)
Definition set_after (document_id : string) (m : ConnectionManager)
    (mutations : list Mutation) : gset string :=
  iterated document_id
           (foldl (interfere document_id) (mkIteration m true false) mutations).

(** An iteration that nobody has disturbed. *)
Definition undisturbed (d : string) (m0 : ConnectionManager) (s0 : gset string)
    (it : Iteration) : Prop :=
  attached it = true ∧ changed it = false ∧
  active_connections (manager it) = active_connections m0 ∧
  document_subscribers (manager it) !! d = Some s0.

(** Client [z] subscribes to document [D2] while the send to [a] is
    awaited, and to [D1] in [joins_D1]. *)
Definition joins_D2 (client_id : string) : list Mutation :=
  if String.eqb client_id "a" then [Subscribe "z" "D2"] else [].

Definition joins_D1 (client_id : string) : list Mutation :=
  if String.eqb client_id "a" then [Subscribe "z" "D1"] else [].

End EventLoop.

(** ** What the formatter's output looks like *)

Module Layout.
Import PyStr Re MarkdownFormatter.

(** A line that neither starts nor ends with a space or a tab. *)
Definition no_blank_at_ends (line : str) : Prop :=
  (∀ c, head line = Some c → is_sp_tab c = false) ∧
  (∀ c, last line = Some c → is_sp_tab c = false).

(** A line without two spaces in a row. *)
Definition single_spaced (line : str) : Prop :=
  ∀ i, line !! i = Some " "%char → line !! S i ≠ Some " "%char.

(** No two lines in a row start with a hash. *)
Definition headings_apart (lines : list str) : Prop :=
  ∀ i a b, lines !! i = Some a → lines !! S i = Some b →
           ¬ (startswith (s2l "#") a = true ∧ startswith (s2l "#") b = true).

(** A character that is neither a space, a tab nor a line feed. *)
Definition visible (c : ascii) : bool := negb (is_sp_tab c || chr_eqb c NL).

(** The text without its spaces, tabs and line feeds. *)
Definition ink (s : str) : str := List.filter visible s.

(** What [fix_heading_hierarchy] may do to a line: nothing, or write a
    heading with fewer hashes, one space and the title it had. *)
Definition same_or_lowered (line fixed : str) : Prop :=
  fixed = line ∨
  ∃ hashes title n,
    heading_match line = Some (hashes, title) ∧
    0 < n < length hashes ∧
    fixed = rep "#" n ++ s2l " " ++ title.

(** A bullet item: whitespace, one of the markers [-], [*] and [+], a
    whitespace character and the rest. *)
Definition bullet_line (line : str) : Prop :=
  ∃ indent marker space rest,
    line = indent ++ marker :: space :: rest ∧
    Forall (λ c, isspace c = true) indent ∧
    is_bullet marker = true ∧ isspace space = true.

(** A numbered item: whitespace, a number, a full stop, whitespace and a
    text. *)
Definition numbered_line (line : str) : Prop :=
  ∃ indent num spaces text,
    line = indent ++ num ++ "."%char :: spaces ++ text ∧
    Forall (λ c, isspace c = true) indent ∧
    num ≠ [] ∧ Forall (λ c, isdigit c = true) num ∧
    spaces ≠ [] ∧ Forall (λ c, isspace c = true) spaces ∧
    text ≠ [].

(** A list item written with a hyphen after an even number of spaces. *)
Definition hyphen_item (line : str) : Prop :=
  ∃ k rest, line = rep " " (2 * k) ++ s2l "- " ++ rest.

(** A numbered item written with its number, a full stop and one space
    after an even number of spaces. *)
Definition numbered_item (line : str) : Prop :=
  ∃ k num text,
    num ≠ [] ∧ Forall (λ c, isdigit c = true) num ∧ text ≠ [] ∧
    line = rep " " (2 * k) ++ num ++ s2l ". " ++ text.

End Layout.

(** ** The anchors of the table of contents *)

Module Anchors.
Import PyStr Re MarkdownFormatter.

(** The text with every run of characters of a class made one hyphen;
    [in_run] says that the character before belongs to such a run. *)
Fixpoint collapse (q : ascii → bool) (in_run : bool) (s : str) : str :=
  match s with
  | [] => []
  | c :: r =>
      if q c then (if in_run then [] else s2l "-") ++ collapse q true r
      else c :: collapse q false r
  end.

(** No two hyphens in a row. *)
Definition single_hyphens (s : str) : Prop :=
  ∀ i, s !! i = Some "-"%char → s !! S i ≠ Some "-"%char.

End Anchors.

(** ** Tables: [MarkdownFormatter.format_table] *)

Module Tables.
Import PyStr.

(** [s.ljust(width)]. *)
Definition ljust (width : nat) (s : str) : str :=
  s ++ rep " " (width - length s).

(** [len(str(row[col_idx])) if col_idx < len(row) else 0]. *)
Definition cell_width (col_idx : nat) (row : list str) : nat :=
  match row !! col_idx with
  | Some cell => length cell
  | None => 0
  end.

(** The loop that fills [col_widths]: for each column of the first row the
    longest cell of the column, and 3 at least. *)
Definition col_widths (table_data : list (list str)) (header_row : list str)
    : list nat :=
  (λ col_idx, max_list (cell_width col_idx <$> table_data) `max` 3)
    <$> seq 0 (length header_row).

(** [header_line]. *)
Definition header_line (widths : list nat) (header_row : list str) : str :=
  s2l "| "
  ++ join (s2l " | ") (imap (λ i cell, ljust (nth i widths 0) cell) header_row)
  ++ s2l " |".

(** [separator_line]. *)
Definition separator_line (widths : list nat) : str :=
  s2l "|" ++ join (s2l "|") ((λ width, rep "-" (width + 2)) <$> widths)
  ++ s2l "|".

(** [data_line]; [row[i] if i < len(row) else ''] is the cell. *)
Definition data_line (widths : list nat) (row : list str) : str :=
  s2l "| "
  ++ join (s2l " | ")
          ((λ i, ljust (nth i widths 0) (default [] (row !! i)))
             <$> seq 0 (length widths))
  ++ s2l " |".

(** [markdown_lines]. *)
Definition table_lines (table_data : list (list str)) : list str :=
  match table_data with
  | [] => []
  | [] :: _ => []
  | header_row :: rows =>
      let widths := col_widths table_data header_row in
      header_line widths header_row :: separator_line widths
      :: (data_line widths <$> rows)
  end.

(** [format_table]. *)
Definition format_table (table_data : list (list str)) : str :=
  join_lines (table_lines table_data).

(** The width of the table: its columns, a space on both sides of each
    cell, and the bars. *)
Definition table_width (table_data : list (list str)) : nat :=
  match table_data with
  | header_row :: _ =>
      list_sum (col_widths table_data header_row) + 3 * length header_row + 1
  | [] => 0
  end.

End Tables.

(** ** Escaping: [MarkdownFormatter.escape_special_chars] *)

Module Escape.
Import PyStr Re.

(** The backslash. *)
Definition BS : ascii := ascii_of_N 92.

(** The class [[*_`\[\]{}()#+\-.!]]. *)
Definition special (c : ascii) : bool :=
  existsb (chr_eqb c) (s2l "*_`[]{}()#+-.!").

(** [re.sub(r'(?<!\\)([*_`\[\]{}()#+\-.!])', r'\\\1', content)]: a
    backslash goes before every special character that has no backslash
    before it in the text; [prev] is the character before. *)
Fixpoint escape_scan (prev : option ascii) (content : str) : str :=
  match content with
  | [] => []
  | c :: rest =>
      (if special c && negb (bool_decide (prev = Some BS)) then [BS; c]
       else [c])
      ++ escape_scan (Some c) rest
  end.

(** [re.sub(pattern, repl, s)] for a replacement made from what the
    pattern captures. *)
Fixpoint sub_scan_with {A} (m : Matcher A) (repl : A → str) (bol : bool)
    (skip : nat) (s : str) : str :=
  match s with
  | [] => []
  | c :: r =>
      let bol' := chr_eqb c NL in
      match skip with
      | S k => sub_scan_with m repl bol' k r
      | O =>
          match m bol s with
          | Some (S n, a) => repl a ++ sub_scan_with m repl bol' n r
          | _ => c :: sub_scan_with m repl bol' 0 r
          end
      end
  end.

Definition sub_with {A} (m : Matcher A) (repl : A → str) (s : str) : str :=
  sub_scan_with m repl true 0 s.

(** [\\(#{1,6}\s)]: a backslash, one to six hashes and a whitespace
    character; the group is captured. After more than six hashes comes a
    hash, which is no whitespace. *)
Definition escaped_heading_re : Matcher str :=
  λ _ s,
    match s with
    | c :: r =>
        let '(hashes, r') := span (chr_eqb "#") r in
        match r' with
        | w :: _ =>
            if chr_eqb c BS && (1 <=? length hashes)%nat
               && (length hashes <=? 6)%nat && isspace w
            then Some (1 + length hashes + 1, hashes ++ [w])
            else None
        | [] => None
        end
    | [] => None
    end.

(** [\\\|(?=[^|]*\|)]: a backslash and a bar, when a bar comes later in
    the text. *)
Definition escaped_bar_re : Matcher unit :=
  λ _ s,
    match s with
    | c :: c' :: r =>
        if chr_eqb c BS && chr_eqb c' "|" && existsb (chr_eqb "|") r
        then Some (2, ()) else None
    | _ => None
    end.

(** [escape_special_chars]. *)
Definition escape_special_chars (content : str) : str :=
  let content := escape_scan None content in
  let content := sub_with escaped_heading_re id content in
  sub escaped_bar_re (s2l "|") content.

(** The text without its backslashes. *)
Definition unescaped (s : str) : str :=
  List.filter (λ c, negb (chr_eqb c BS)) s.

(** Every special character other than the hash has a backslash before
    it; [after_backslash] says whether the character before the text is
    one. *)
Fixpoint guarded (after_backslash : bool) (s : str) : Prop :=
  match s with
  | [] => True
  | c :: rest =>
      (special c = true → c ≠ "#"%char → after_backslash = true)
      ∧ guarded (chr_eqb c BS) rest
  end.

(** [t] is [s] without some of its backslashes, each of which stands before
    a hash or a bar. *)
Inductive drops : str → str → Prop :=
| drops_nil : drops [] []
| drops_keep c s t : drops s t → drops (c :: s) (c :: t)
| drops_backslash d s t :
    d = "#"%char ∨ d = "|"%char → drops (d :: s) t → drops (BS :: d :: s) t.

End Escape.

(** ** What the quality checker reports *)

Module Report.
Import PyStr Re QualityChecker.

(** The count that [calculate_accuracy_score] compares with the expected
    number of a key. *)
Definition counted (markdown : str) (key : string) : nat :=
  if bool_decide (key = "headings") then length (findall heading_re markdown)
  else if bool_decide (key = "tables") then length (findall table_re markdown)
  else if bool_decide (key = "lists")
  then length (findall bullet_re markdown)
       + length (findall numbered_re markdown)
  else word_count markdown.

(** The keys that [calculate_accuracy_score] reads. *)
Definition scored_keys : list string :=
  ["headings"; "tables"; "lists"; "min_words"].

(** Ten characters [c] in a row somewhere in the text. *)
Definition has_run_of_ten (c : ascii) (markdown : str) : Prop :=
  ∃ before after, markdown = before ++ rep c 10 ++ after.

End Report.

(** ** The conversion service: [docling_service.py] *)

Module DoclingService.
Import PyStr Re.

(** [lines.insert(i, x)]. *)
Definition list_insert {A} (i : nat) (x : A) (l : list A) : list A :=
  take i l ++ x :: drop i l.

(** [_insert_image_reference]. *)
Definition _insert_image_reference (markdown image_ref : str) (position : nat)
    : str :=
  let lines := split_lines markdown in
  let insert_position := (position * 10) `min` length lines in
  let lines := list_insert insert_position [] lines in
  let lines := list_insert (insert_position + 1) image_ref lines in
  let lines := list_insert (insert_position + 2) [] lines in
  join_lines lines.

(** [f"![Image {idx + 1}]({image_path})"]. *)
Definition image_ref (idx : nat) (image_path : str) : str :=
  s2l "![Image " ++ s2l (pretty (idx + 1)) ++ s2l "](" ++ image_path ++ s2l ")".

(** The loop [for idx, image_path in enumerate(extracted_images)] of
    [convert_pdf_to_markdown], from position [idx] on. *)
Fixpoint insert_references (markdown_content : str) (idx : nat)
    (extracted_images : list str) : str :=
  match extracted_images with
  | [] => markdown_content
  | image_path :: rest =>
      insert_references
        (_insert_image_reference markdown_content (image_ref idx image_path) idx)
        (S idx) rest
  end.

(** The same loop on the list of lines: the blank line, the reference and
    the blank line go in at [insert_position]. *)
Fixpoint insert_reference_lines (lines : list str) (idx : nat)
    (extracted_images : list str) : list str :=
  match extracted_images with
  | [] => lines
  | image_path :: rest =>
      let insert_position := (idx * 10) `min` length lines in
      insert_reference_lines
        (take insert_position lines
         ++ [] :: image_ref idx image_path :: [] :: drop insert_position lines)
        (S idx) rest
  end.

(** Where the reference of image [i] ends up in a text of [n] lines. *)
Definition reference_line (n i : nat) : nat := (i * 10) `min` (n + 3 * i) + 1.

(** [_calculate_accuracy]; [file_size] is [file_path.stat().st_size]. *)
Definition _calculate_accuracy (markdown : str) (file_size : N) : Q :=
  if negb (nonempty markdown) then 0%Q
  else
    let markdown_size := utf8_len markdown in
    if (file_size =? 0)%N then 0%Q
    else
      let ratio :=
        (inject_Z (Z.of_nat markdown_size) / inject_Z (Z.of_N file_size))%Q in
      if Qlt_le_dec ratio (1 # 10) then 50%Q
      else if Qlt_le_dec 1 ratio then 95%Q
      else Qmin 95 (50 + ratio * 45)%Q.

(** The test of [_count_tables] on a line: it has a bar and a hyphen, and
    bars, hyphens, colons and spaces only. *)
Definition is_separator (line : str) : bool :=
  existsb (chr_eqb "|") line && existsb (chr_eqb "-") line
  && forallb (λ c, existsb (chr_eqb c) (s2l "|-: ")) line.

(** [_count_tables]. *)
Definition _count_tables (markdown : str) : nat :=
  length (List.filter is_separator (split_lines markdown)).

(** What the [try] block of [convert_pdf_to_markdown] can raise. *)
Inductive Raised :=
| FileNotFoundError (str_e : string)
| Exception (str_e : string).

(** The document of a conversion result: [export_to_markdown()], which may
    raise, [pictures] and [len(pages)] when the document has them. *)
Record Document := mkDocument {
  export_to_markdown : Raised + str;
  pictures : option (list Images.Picture);
  pages : option nat
}.

(** The [metadata] of a successful conversion. *)
Record Metadata := mkMetadata {
  pageCount : nat;
  processingTime : Q;
  accuracy : Q;
  extractedTables : nat;
  characterCount : nat
}.

(** The [result] dictionary; [metadata] is [None] for the empty
    dictionary. *)
Record Result := mkResult {
  documentId : string;
  markdown : str;
  images : list string;
  metadata : option Metadata;
  status : string;
  errors : list string
}.

Section Convert.

(** The files on disk: what the operating system finds for a path, which
    is the same for a path and for what [pathlib] prints for it. *)
Variable fs : PDFConverter.FileSystem.
(** [self.converter.convert(path)]: the document, or what it raises. *)
Variable convert : string → Raised + Document.
(** [self.config['extract_images']] and [IMAGE_OUTPUT_DIR]. *)
Variable extract_images : bool.
Variable image_output_dir : string.
(** The seconds between [start_time] and [end_time]. *)
Variable processing_time : Q.

(** The body of the [try] block: the values [result.update] is called
    with. The path is read as [Path(file_path)], and printed as such in the
    error and for the converter. *)
Definition convert_try (file_path document_id : string)
    : Raised + (str * list string * Metadata) :=
  match fs !! file_path with
  | None =>
      inl (FileNotFoundError
             ("PDF file not found: " +:+ PyPath.printed_path file_path))
  | Some file =>
      if negb (bool_decide (lower (PyPath.suffix (s2l file_path)) = s2l ".pdf"))
      then inl (Exception "File must be a PDF")
      else
        match convert (PyPath.printed_path file_path) with
        | inl e => inl e
        | inr document =>
            match export_to_markdown document with
            | inl e => inl e
            | inr markdown_content =>
                let extracted_images :=
                  match pictures document with
                  | Some pictures =>
                      if extract_images
                      then (Images._extract_and_save_images
                              image_output_dir pictures document_id).*2
                      else []
                  | None => []
                  end in
                let markdown_content :=
                  insert_references markdown_content 0
                                    (s2l <$> extracted_images) in
                let page_count := default 1 (pages document) in
                inr (markdown_content, extracted_images,
                     mkMetadata page_count processing_time
                       (_calculate_accuracy markdown_content
                                            (PDFConverter.st_size file))
                       (_count_tables markdown_content)
                       (length markdown_content))
            end
        end
  end.

(** [convert_pdf_to_markdown]: the two [except] clauses put the text of
    the exception in [errors]. *)
Definition convert_pdf_to_markdown (file_path document_id : string)
    (options : option (gmap string string)) : Result :=
  match convert_try file_path document_id with
  | inr (markdown_content, extracted_images, metadata) =>
      mkResult document_id markdown_content extracted_images (Some metadata)
               "success" []
  | inl (FileNotFoundError str_e) =>
      mkResult document_id [] [] None "failed" [str_e]
  | inl (Exception str_e) =>
      mkResult document_id [] [] None "failed" ["Conversion error: " +:+ str_e]
  end.

End Convert.

End DoclingService.

(** ** The other endpoints of [api.py], and the service behind them *)

Module Endpoints.
Import PyStr Api.

(** The [ConversionResponse] built from the keys of [result]; [render]
    writes the metadata of a successful conversion as the response carries
    it. *)
Definition response_of
    (render : DoclingService.Metadata → gmap string string)
    (result : DoclingService.Result) : ConversionResponse :=
  mkResponse (DoclingService.documentId result)
             (string_of_list_ascii (DoclingService.markdown result))
             (DoclingService.images result)
             (from_option render ∅ (DoclingService.metadata result))
             (DoclingService.status result)
             (DoclingService.errors result).

(** [s.endswith(suffix)]. *)
Definition endswith (suffix s : str) : bool :=
  startswith (reverse suffix) (reverse s).

Section Upload.

(** [UPLOAD_DIR]. *)
Variable upload_dir : string.
(** The files on disk before the upload. *)
Variable fs : PDFConverter.FileSystem.
(** [str(e)] of an [HTTPException]. *)
Variable str_http : nat → string → string.
(** What creating the directory, opening the upload path and writing the
    content raise for a path: the text of the exception, [None] when they
    succeed. *)
Variable write_fails : string → option string.
(** [docling_service.convert_pdf_to_markdown] on a disk. *)
Variable convert_pdf_to_markdown :
  PDFConverter.FileSystem → string → string → option (gmap string string)
  → ConversionResponse.
(** What FastAPI writes about a form that lacks a field. *)
Variable validation_error : string.

(** The [try] block of [upload_and_convert]; [file] is the uploaded content
    as a file on disk. The file that [os.remove] deletes is not looked at
    again. *)
Definition upload_and_convert_try (documentId filename : string)
    (file : PDFConverter.File) : Exn + ConversionResponse :=
  if negb (endswith (s2l ".pdf") (lower (s2l filename)))
  then inl (HTTPException 400 "Only PDF files are supported")
  else
    let upload_path := Images.path_join upload_dir filename in
    match write_fails upload_path with
    | Some str_e => inl (OtherException str_e)
    | None =>
        let fs := <[upload_path := file]> fs in
        if check_pdf_encryption fs upload_path
        then inr (encrypted_response documentId)
        else inr (convert_pdf_to_markdown fs upload_path documentId None)
    end.

(** [upload_and_convert]: every exception of the [try] block is raised
    again as an [HTTPException] with code 500 and its text. *)
Definition upload_and_convert (documentId filename : string)
    (file : PDFConverter.File) : Exn + ConversionResponse :=
  match upload_and_convert_try documentId filename file with
  | inr response => inr response
  | inl e => inl (HTTPException 500 (str_exn str_http e))
  end.

(** [POST /api/documents/upload-convert]. FastAPI reads the form first:
    [documentId] and [file] are required, and a request without one of them
    is answered with HTTP 422 before the handler runs. [file] is the name
    and the content of the upload. *)
Definition post_upload_convert (documentId : option string)
    (file : option (string * PDFConverter.File)) : HttpResponse :=
  match documentId, file with
  | Some documentId, Some (filename, content) =>
      fastapi id (upload_and_convert documentId filename content)
  | _, _ => HttpError 422 validation_error
  end.

End Upload.

(** [GET /health]. *)
Definition health_check : list (string * string) :=
  [("status", "healthy"); ("service", "docling-pdf-converter")].

(** [GET /api/documents/status/{document_id}]. *)
Definition get_conversion_status (t : Hub.ConversionStatusTracker)
    (document_id now : string) : StatusTracker.Status :=
  StatusTracker.get_status t document_id now.

End Endpoints.

(** ** The conversion endpoint and its calls on the status tracker *)

Module Tracked.
Import PyStr Api Hub Endpoints.

(** How an awaited call on the status tracker ends: it returns, or the
    broadcast raises an [Exception] and the call with it; [str_e] is
    [str(e)]. The handler runs until it answers; its cancellation is left
    out. *)
Inductive Awaited :=
| Returned
| Raised (str_e : string).

(** The event that a call stores: [start_conversion], [complete_conversion]
    and [fail_conversion] with the arguments they pass to [update_status]. *)
Definition status_update (call : TrackerCall) (now : string) : StatusEvent :=
  match call with
  | StartConversion document_id =>
      mkEvent "conversion_status" document_id "processing" 0
              "Starting PDF conversion..." now ∅
  | CompleteConversion document_id metadata =>
      mkEvent "conversion_status" document_id "completed" 100
              "Conversion completed successfully" now metadata
  | FailConversion document_id error =>
      mkEvent "conversion_status" document_id "failed" 0
              ("Conversion failed: " +:+ error) now ∅
  end.

Section Endpoint.

(** [Path.cwd()]. *)
Variable cwd : string.
(** The files on disk. *)
Variable fs : PDFConverter.FileSystem.
(** [str(e)] of an [HTTPException]. *)
Variable str_http : nat → string → string.
(** [docling_service.convert_pdf_to_markdown]. *)
Variable convert_pdf_to_markdown :
  string → string → option (gmap string string) → ConversionResponse.
(** How the broadcast of each call on the tracker ends, and the time of the
    call. *)
Variable broadcast : TrackerCall → Awaited.
Variable now : TrackerCall → string.

(** [update_status] as its caller sees it: the event is stored in
    [conversion_status] before the broadcast is awaited. *)
Definition update_status (conversion_status : gmap string StatusEvent)
    (call : TrackerCall) : gmap string StatusEvent * Awaited :=
  let event := status_update call (now call) in
  (<[ev_documentId event := event]> conversion_status, broadcast call).

(** The [try] block of [convert_pdf]: the response it returns or the
    exception it raises, and the statuses that the tracker holds then. *)
Definition convert_pdf_try (conversion_status : gmap string StatusEvent)
    (request : ConversionRequest)
    : (Exn + ConversionResponse) * gmap string StatusEvent :=
  let document_id := req_documentId request in
  let file_path := resolve cwd (req_filePath request) in
  match fs !! file_path with
  | None =>
      (inl (HTTPException 404 ("File not found: " +:+ file_path)),
       conversion_status)
  | Some _ =>
      if check_pdf_encryption fs file_path
      then (inr (encrypted_response document_id), conversion_status)
      else
        match update_status conversion_status (StartConversion document_id) with
        | (conversion_status, Raised str_e) =>
            (inl (OtherException str_e), conversion_status)
        | (conversion_status, Returned) =>
            let result :=
              convert_pdf_to_markdown file_path document_id
                                      (req_options request) in
            let announced :=
              if bool_decide (status result = "success")
              then update_status conversion_status
                     (CompleteConversion document_id (metadata result))
              else if bool_decide (status result = "failed")
              then update_status conversion_status
                     (FailConversion document_id
                        (default "Unknown error" (head (errors result))))
              else (conversion_status, Returned) in
            match announced with
            | (conversion_status, Raised str_e) =>
                (inl (OtherException str_e), conversion_status)
            | (conversion_status, Returned) =>
                (inr result, conversion_status)
            end
        end
  end.

(** [convert_pdf]: the [except Exception as e] clause answers every
    exception of the [try] block with a failed response. *)
Definition convert_pdf (conversion_status : gmap string StatusEvent)
    (request : ConversionRequest)
    : ConversionResponse * gmap string StatusEvent :=
  match convert_pdf_try conversion_status request with
  | (inr response, conversion_status) => (response, conversion_status)
  | (inl e, conversion_status) =>
      (mkResponse (req_documentId request) "" [] ∅ "failed"
                  [str_exn str_http e],
       conversion_status)
  end.

End Endpoint.

Section Served.

Variable cwd : string.
Variable fs : PDFConverter.FileSystem.
Variable str_http : nat → string → string.
(** The converter and the configuration of the conversion service. *)
Variable convert : string → DoclingService.Raised + DoclingService.Document.
Variable extract_images : bool.
Variable image_output_dir : string.
Variable processing_time : Q.
(** How the response carries the metadata of a conversion. *)
Variable render : DoclingService.Metadata → gmap string string.
Variable broadcast : TrackerCall → Awaited.
Variable now : TrackerCall → string.

(** The endpoint with the conversion service behind it. *)
Definition served (conversion_status : gmap string StatusEvent)
    (request : ConversionRequest)
    : ConversionResponse * gmap string StatusEvent :=
  convert_pdf cwd fs str_http
    (λ file_path document_id options,
       response_of render
         (DoclingService.convert_pdf_to_markdown
            fs convert extract_images image_output_dir processing_time
            file_path document_id options))
    broadcast now conversion_status request.

End Served.

(** A readable PDF of one page at [/srv/doc.pdf]. *)
Definition fs_one_pdf : PDFConverter.FileSystem :=
  {[ "/srv/doc.pdf" :=
       PDFConverter.mkFile 1000 (inr (PDFConverter.mkReader false (inr 1))) ]}.

(** The broadcast of [start_conversion] raises the error of a set that
    changed size. *)
Definition start_raises (call : TrackerCall) : Awaited :=
  match call with
  | StartConversion _ => Raised "Set changed size during iteration"
  | _ => Returned
  end.

(** The status that the tracker holds for a document. *)
Definition status_of (conversion_status : gmap string StatusEvent)
    (document_id : string) : option string :=
  ev_status <$> conversion_status !! document_id.

End Tracked.

(** ** The other readers of [converters/pdf_converter.py] *)

Module PDFReaders.
Import PyStr PDFConverter.

(** The dictionary of [get_pdf_metadata]. *)
Record PdfMetadata := mkPdfMetadata {
  title : string;
  author : string;
  subject : string;
  creator : string;
  producer : string;
  creation_date : option string;
  modification_date : option string;
  pages : nat
}.

(** The dictionary before the file is read. *)
Definition no_metadata : PdfMetadata :=
  mkPdfMetadata "" "" "" "" "" None None 0.

(** [get_pdf_metadata]. [info file_path] is [pdf_reader.metadata] of the
    file: what reading it raises, or the information dictionary, [None]
    when the document has none. *)
Definition get_pdf_metadata (fs : FileSystem)
    (info : string → Exn + option (gmap string string)) (file_path : string)
    : PdfMetadata :=
  match reader <$> fs !! file_path with
  | Some (inr pdf_reader) =>
      match num_pages pdf_reader with
      | inr n =>
          match info file_path with
          | inr (Some info) =>
              if bool_decide (info = ∅) then
                mkPdfMetadata "" "" "" "" "" None None n
              else
                mkPdfMetadata (default "" (info !! "/Title"))
                              (default "" (info !! "/Author"))
                              (default "" (info !! "/Subject"))
                              (default "" (info !! "/Creator"))
                              (default "" (info !! "/Producer"))
                              (info !! "/CreationDate")
                              (info !! "/ModDate")
                              n
          | _ => mkPdfMetadata "" "" "" "" "" None None n
          end
      | inl _ => no_metadata
      end
  | _ => no_metadata
  end.

(** [f"\n## Page {page_num + 1}\n\n"], the text of the page, and two line
    feeds. *)
Definition page_section (page_num : nat) (page_text : str) : str :=
  [NL] ++ s2l "## Page " ++ s2l (pretty (page_num + 1)) ++ [NL; NL]
  ++ page_text ++ [NL; NL].

(** The loop of [extract_text_fallback] from page [page_num] on; a page is
    its text, or [None] when [extract_text] raises: the [except] clause
    then returns the text read so far. *)
Fixpoint extract_pages (page_num : nat) (pages : list (option str))
    (text : str) : str :=
  match pages with
  | [] => text
  | None :: _ => text
  | Some page_text :: rest =>
      extract_pages (S page_num) rest
        (if nonempty page_text then text ++ page_section page_num page_text
         else text)
  end.

(** [extract_text_fallback]; [pdf_reader] is [None] when the file cannot be
    opened or read. *)
Definition extract_text_fallback (pdf_reader : option (list (option str)))
    : str :=
  match pdf_reader with
  | Some pages => extract_pages 0 pages []
  | None => []
  end.

(** The sections of the pages that have a text, numbered by their place in
    the document. *)
Definition sections (page_num : nat) (texts : list str) : str :=
  concat (imap (λ i page_text,
                  if nonempty page_text
                  then page_section (page_num + i) page_text else [])
               texts).

End PDFReaders.

(** ** The images of a page: [ImageHandler.extract_images_from_page] *)

Module PageImages.
Import PyStr Images.

(** An image of a page: its [data] when it has the attribute, the mode
    that [Image.open] reads from the data ([None] when it raises), and
    whether saving works. *)
Record PageImage := mkPageImage {
  data : option bytes;
  opened : option string;
  save_ok : bool
}.

(** [f"{page_num}_{idx + 1}"]. *)
Definition image_index (page_num : Z) (idx : nat) : string :=
  pretty page_num +:+ "_" +:+ pretty (idx + 1).

(** The loop of [extract_images_from_page] from position [idx] on. An
    element [None] is a place where going through the images raises: the
    [except] clause then returns what was saved before. *)
Fixpoint extract_loop (output_dir document_id : string) (page_num : Z)
    (idx : nat) (images : list (option PageImage)) : list string :=
  match images with
  | [] => []
  | None :: _ => []
  | Some image :: rest =>
      let saved_images :=
        extract_loop output_dir document_id page_num (S idx) rest in
      match data image with
      | Some image_data =>
          match save_image output_dir (opened image) (save_ok image)
                           image_data document_id
                           (image_index page_num idx) "PNG" with
          | Some saved => relative_path saved :: saved_images
          | None => saved_images
          end
      | None => saved_images
      end
  end.

(** [extract_images_from_page]; [images] is [page_data.images], [None]
    when the page has no such attribute or reading it raises. *)
Definition extract_images_from_page (output_dir : string)
    (images : option (list (option PageImage))) (document_id : string)
    (page_num : Z) : list string :=
  match images with
  | Some images => extract_loop output_dir document_id page_num 0 images
  | None => []
  end.

End PageImages.

(** ** The hash in the name of an image file *)

Module HashNames.
Import PyStr.

(** A digit of a hexadecimal number in lower case. *)
Definition is_hex (c : ascii) : bool := in_range 48 57 c || in_range 97 102 c.

End HashNames.

(** * Theorems *)

Module HubFacts.
Import Hub.

Lemma subscribers_connect m ws c d :
  subscribers (connect m ws c) d = subscribers m d.
Proof. reflexivity. Qed.

Lemma subscribers_disconnect m c d :
  subscribers (disconnect m c) d ⊆ subscribers m d.
Proof.
  unfold disconnect, subscribers.
  destruct (active_connections m !! c); simpl; [|done].
  rewrite lookup_fmap.
  destruct (document_subscribers m !! d); simpl; set_solver.
Qed.

Lemma subscribers_foldl_disconnect l m d :
  subscribers (foldl disconnect m l) d ⊆ subscribers m d.
Proof.
  revert m. induction l as [|c l IH]; intros m; simpl; [done|].
  etrans; [apply IH|apply subscribers_disconnect].
Qed.

Lemma subscribers_subscribe m c d d' :
  subscribers (subscribe_to_document m c d') d =
  if decide (d' = d) then subscribers m d ∪ {[c]} else subscribers m d.
Proof.
  unfold subscribe_to_document, subscribers; simpl.
  case_decide as Hd.
  - subst d'. destruct (document_subscribers m !! d) as [s|] eqn:E.
    + by rewrite lookup_alter_eq, E.
    + by rewrite lookup_alter_eq, lookup_insert_eq.
  - destruct (document_subscribers m !! d') eqn:E.
    + by rewrite lookup_alter_ne.
    + by rewrite lookup_alter_ne, lookup_insert_ne.
Qed.

Lemma subscribers_unsubscribe m c d d' :
  subscribers (unsubscribe_from_document m c d') d =
  if decide (d' = d) then subscribers m d ∖ {[c]} else subscribers m d.
Proof.
  unfold unsubscribe_from_document, subscribers.
  case_decide as Hd.
  - subst d'. destruct (document_subscribers m !! d) as [s|] eqn:E; simpl.
    + case_decide as He.
      * rewrite lookup_delete_eq. simpl. by rewrite He.
      * by rewrite lookup_insert_eq.
    + rewrite E. simpl. set_solver.
  - destruct (document_subscribers m !! d') as [s|] eqn:E; simpl; [|done].
    case_decide.
    + by rewrite lookup_delete_ne.
    + by rewrite lookup_insert_ne.
Qed.

Lemma send_loop_sent f m l c :
  c ∈ (send_loop f m l).1 ↔ c ∈ l ∧ is_Some (active_connections m !! c).
Proof.
  induction l as [|x l IH]; simpl.
  - set_solver.
  - destruct (send_loop f m l) as [sent disc] eqn:E; simpl in *.
    destruct (active_connections m !! x) as [ws|] eqn:Ex; simpl.
    + rewrite !elem_of_cons, IH. split.
      * intros [->|[? ?]]; [split; [by left|by rewrite Ex]|split; [by right|done]].
      * intros [[->|?] ?]; [by left|by right].
    + rewrite elem_of_cons, IH. split.
      * intros [? ?]; split; [by right|done].
      * intros [[->|?] Hs]; [rewrite Ex in Hs; by destruct Hs|done].
Qed.

Lemma broadcast_sent f m d c :
  c ∈ (broadcast_to_document_subscribers f m d).2 ↔
  c ∈ subscribers m d ∧ is_Some (active_connections m !! c).
Proof.
  unfold broadcast_to_document_subscribers, subscribers.
  destruct (document_subscribers m !! d) as [s|]; simpl.
  - pose proof (send_loop_sent f m (elements s) c) as H.
    destruct (send_loop f m (elements s)) as [sent disc]; simpl in *.
    by rewrite H, elem_of_elements.
  - set_solver.
Qed.

Lemma broadcast_subscribers f m d d' :
  subscribers (broadcast_to_document_subscribers f m d').1 d ⊆ subscribers m d.
Proof.
  unfold broadcast_to_document_subscribers.
  destruct (document_subscribers m !! d') as [s|]; simpl; [|done].
  destruct (send_loop f m (elements s)) as [sent disc]; simpl.
  apply subscribers_foldl_disconnect.
Qed.

Lemma update_status_deliveries f t d st p msg now md c e :
  (c, e) ∈ (update_status f t d st p msg now md).2 →
  ev_documentId e = d ∧ c ∈ subscribers (connection_manager t) d ∧
  is_Some (active_connections (connection_manager t) !! c).
Proof.
  unfold update_status.
  pose proof (broadcast_sent f (connection_manager t) d c) as H.
  destruct (broadcast_to_document_subscribers f (connection_manager t) d)
    as [m' sent]; simpl in *.
  intros Hin. apply list_elem_of_fmap in Hin as (c' & Heq & Hc').
  inversion Heq; subst. split; [done|]. by apply H.
Qed.

Lemma update_status_subscribers f t d st p msg now md d0 :
  subscribers (connection_manager (update_status f t d st p msg now md).1) d0
  ⊆ subscribers (connection_manager t) d0.
Proof.
  unfold update_status.
  pose proof (broadcast_subscribers f (connection_manager t) d0 d) as H.
  destruct (broadcast_to_document_subscribers f (connection_manager t) d)
    as [m' sent]; simpl in *. done.
Qed.

(** An operation other than [OpSubscribe c d] does not make [c] a
    subscriber of [d]. *)
Lemma step_keeps_unsubscribed t o c d :
  o ≠ OpSubscribe c d →
  c ∉ subscribers (connection_manager t) d →
  c ∉ subscribers (connection_manager (step t o).1) d.
Proof.
  intros Hne Hc. destruct o as [ws c'|c'|c' d'|c' d'|f d' st p msg now md]; simpl.
  - done.
  - intros H. by apply subscribers_disconnect in H.
  - rewrite subscribers_subscribe. case_decide; [|done].
    subst d'. intros [H|H]%elem_of_union; [done|].
    apply elem_of_singleton in H. subst c'. done.
  - rewrite subscribers_unsubscribe. case_decide; set_solver.
  - intros H. by apply update_status_subscribers in H.
Qed.

Lemma step_deliveries t o c e :
  (c, e) ∈ (step t o).2 →
  c ∈ subscribers (connection_manager t) (ev_documentId e) ∧
  is_Some (active_connections (connection_manager t) !! c).
Proof.
  destruct o as [ws c'|c'|c' d'|c' d'|f d' st p msg now md]; simpl;
    try (intros H0; by apply elem_of_nil in H0).
  intros H. apply update_status_deliveries in H as (-> & ? & ?). done.
Qed.

Lemma run_no_delivery ops : ∀ t c d,
  Forall (λ o, o ≠ OpSubscribe c d) ops →
  c ∉ subscribers (connection_manager t) d →
  ∀ e, (c, e) ∈ (run t ops).2 → ev_documentId e ≠ d.
Proof.
  induction ops as [|o ops IH]; intros t c d Hall Hc e; simpl.
  - intros H0; by apply elem_of_nil in H0.
  - apply Forall_cons in Hall as [Ho Hall].
    pose proof (step_keeps_unsubscribed t o c d Ho Hc) as Hc1.
    pose proof (step_deliveries t o c e) as Hd.
    destruct (step t o) as [t1 log1]; simpl in *.
    pose proof (IH t1 c d Hall Hc1 e) as IH1.
    destruct (run t1 ops) as [t2 log2]; simpl in *.
    intros [H|H]%elem_of_app.
    + intros <-. apply Hd in H as [H _]. done.
    + by apply IH1.
Qed.

(** C3. A status event for document [d] is sent only to clients that are in
    the subscriber set of [d] and in the connection table when it is
    published, and it carries [d] as its document; and once [c] has
    unsubscribed from [d], no later operation delivers an event of [d] to
    [c], whatever the other clients do, until [c] subscribes to [d] again. *)
Theorem C3_events_reach_current_subscribers_only :
  (∀ f t d st p msg now md c e,
     (c, e) ∈ (update_status f t d st p msg now md).2 →
     ev_documentId e = d ∧
     c ∈ subscribers (connection_manager t) d ∧
     is_Some (active_connections (connection_manager t) !! c)) ∧
  (∀ t c d ops e,
     Forall (λ o, o ≠ OpSubscribe c d) ops →
     (c, e) ∈ (run (step t (OpUnsubscribe c d)).1 ops).2 →
     ev_documentId e ≠ d).
Proof.
  split.
  - intros. by eapply update_status_deliveries.
  - intros t c d ops e Hall Hin.
    eapply run_no_delivery; [exact Hall| |exact Hin].
    simpl. rewrite subscribers_unsubscribe. case_decide; set_solver.
Qed.

(** After [a] unsubscribes from [D1], publishing to [D1] and [D2] sends [a]
    the event of [D2] only, while [b] still gets the event of [D1]. *)
Lemma C3_witness :
  Forall (λ o, o ≠ OpSubscribe "a" "D1") publish_both ∧
  (run (step two_clients (OpUnsubscribe "a" "D1")).1 publish_both).2.*1
    = ["b"; "a"; "b"] ∧
  ("a", event_D2) ∈
    (run (step two_clients (OpUnsubscribe "a" "D1")).1 publish_both).2 ∧
  ev_documentId event_D2 ≠ "D1".
Proof.
  assert (Hops : Forall (λ o, o ≠ OpSubscribe "a" "D1") publish_both)
    by (repeat constructor; discriminate).
  assert (Hin : ("a", event_D2) ∈
    (run (step two_clients (OpUnsubscribe "a" "D1")).1 publish_both).2).
  { apply list_elem_of_In. vm_compute. right; left; reflexivity. }
  split; [exact Hops|]. split; [by vm_compute|]. split; [exact Hin|].
  exact (proj2 C3_events_reach_current_subscribers_only two_clients "a" "D1"
               publish_both event_D2 Hops Hin).
Defined.

(** C10. Subscribing twice leaves the hub as subscribing once does; one
    unsubscribe then removes the client from the document's set; the entry
    of a document whose only subscriber unsubscribes is deleted, and it
    stays, without the client, when others remain. *)
Theorem C10_subscription_membership_is_a_set :
  (∀ m c d,
     subscribe_to_document (subscribe_to_document m c d) c d =
     subscribe_to_document m c d) ∧
  (∀ m c d,
     c ∉ subscribers
           (unsubscribe_from_document
              (subscribe_to_document (subscribe_to_document m c d) c d) c d)
           d) ∧
  (∀ m c d,
     subscribers m d ⊆ {[c]} →
     document_subscribers (unsubscribe_from_document m c d) !! d = None) ∧
  (∀ m c d s,
     document_subscribers m !! d = Some s → s ∖ {[c]} ≠ ∅ →
     document_subscribers (unsubscribe_from_document m c d) !! d =
     Some (s ∖ {[c]})).
Proof.
  repeat split.
  - intros m c d. unfold subscribe_to_document; simpl. f_equal.
    destruct (document_subscribers m !! d) as [s|] eqn:E.
    + rewrite lookup_alter_eq, E; simpl.
      apply map_eq; intros k. destruct (decide (d = k)) as [->|Hk].
      * rewrite !lookup_alter_eq, E; simpl. f_equal. set_solver.
      * by rewrite !lookup_alter_ne.
    + rewrite lookup_alter_eq, lookup_insert_eq; simpl.
      apply map_eq; intros k. destruct (decide (d = k)) as [->|Hk].
      * rewrite !lookup_alter_eq, lookup_insert_eq; simpl. f_equal. set_solver.
      * by rewrite !lookup_alter_ne.
  - intros m c d. rewrite subscribers_unsubscribe. case_decide; set_solver.
  - intros m c d Hs. unfold unsubscribe_from_document, subscribers in *.
    destruct (document_subscribers m !! d) as [s|] eqn:E; simpl in *; [|done].
    case_decide as He; [by rewrite lookup_delete_eq|].
    exfalso. apply He. set_solver.
  - intros m c d s E Hne. unfold unsubscribe_from_document. rewrite E; simpl.
    case_decide; [done|]. by rewrite lookup_insert_eq.
Qed.

(** Client [a] subscribes twice to [D1] and unsubscribes once: the entry of
    [D1] is gone. *)
Lemma C10_witness :
  subscribers init "D1" ⊆ {["a"]} ∧
  document_subscribers
    (unsubscribe_from_document
       (subscribe_to_document (subscribe_to_document init "a" "D1") "a" "D1")
       "a" "D1") !! "D1" = None.
Proof.
  split; [set_solver|].
  apply (proj1 (proj2 (proj2 C10_subscription_membership_is_a_set))).
  rewrite !subscribers_subscribe. case_decide; set_solver.
Defined.

End HubFacts.

Module PDFConverterFacts.
Import PyStr PDFConverter.

(** C5. [validate_pdf] returns [False] and the reason of the first failing
    check in the order exists, extension, not empty, not oversized,
    parseable, not encrypted, has pages, and [(True, None)] when none fails,
    which is exactly when the file exists, is named [.pdf], has between 1
    byte and 100 MB, and can be read as a PDF that is not encrypted and has
    a page. A file that passes the first four checks and cannot be read is
    rejected as unreadable. A path that does not exist gives "File does not
    exist" and a file of size 0 whose name is [empty.pdf] gives "PDF file is
    empty". *)
Theorem C5_validate_pdf_checks_in_order :
  (∀ fs file_path, validate_pdf fs file_path = validate_spec fs file_path) ∧
  (∀ fs file_path,
     validate_pdf fs file_path = (true, None) ↔
     ∃ f r n,
       fs !! file_path = Some f ∧
       lower (PyPath.suffix (s2l file_path)) = s2l ".pdf" ∧
       (0 < st_size f ≤ max_size)%N ∧
       reader f = inr r ∧ is_encrypted r = false ∧
       num_pages r = inr n ∧ 0 < n) ∧
  (∀ fs file_path f e,
     fs !! file_path = Some f →
     lower (PyPath.suffix (s2l file_path)) = s2l ".pdf" →
     (0 < st_size f ≤ max_size)%N →
     reader f = inl e →
     validate_pdf fs file_path
     = (false, Some match e with
                    | PdfReadError => "PDF is corrupted or unreadable"
                    | OtherException str_e => "Validation error: " +:+ str_e
                    end)) ∧
  (∀ fs, fs !! "/tmp/missing.pdf" = None →
         validate_pdf fs "/tmp/missing.pdf" = (false, Some "File does not exist")) ∧
  (∀ fs file_path f,
     PyPath.name (s2l file_path) = s2l "empty.pdf" →
     fs !! file_path = Some f → st_size f = 0%N →
     validate_pdf fs file_path = (false, Some "PDF file is empty")).
Proof.
  split; [|split; [|split; [|split]]].
  - intros fs file_path.
    unfold validate_pdf, validate_spec, validate_pdf_try, checks_in_order.
    cbn [first_failure check_failure].
    destruct (fs !! file_path) as [f|] eqn:Ef; cbn [fmap option_fmap option_map]; [|done].
    case_bool_decide; cbn [negb]; [|done].
    destruct (N.eqb_spec (st_size f) 0) as [H0|H0].
    { rewrite H0. done. }
    assert ((0 <? st_size f)%N = true) as -> by (apply N.ltb_lt; lia).
    destruct (N.ltb_spec max_size (st_size f)) as [H1|H1].
    { assert ((st_size f <=? max_size)%N = false) as -> by (apply N.leb_gt; lia).
      done. }
    assert ((st_size f <=? max_size)%N = true) as -> by (apply N.leb_le; lia).
    destruct (reader f) as [e|r]; simpl.
    { by destruct e. }
    destruct (is_encrypted r); [done|].
    destruct (num_pages r) as [e|n]; [by destruct e|].
    destruct n; done.
  - intros fs file_path. unfold validate_pdf, validate_pdf_try. split.
    + destruct (fs !! file_path) as [f|]; [|done].
      case_bool_decide as Hs; cbn [negb]; [|done].
      destruct (N.eqb_spec (st_size f) 0) as [H0|H0]; [done|].
      destruct (N.ltb_spec max_size (st_size f)) as [H1|H1]; [done|].
      destruct (reader f) as [e|r] eqn:Er; [by destruct e|].
      destruct (is_encrypted r) eqn:Ee; [done|].
      destruct (num_pages r) as [e|n] eqn:En; [by destruct e|].
      destruct (Nat.eqb_spec n 0) as [Hn|Hn]; [done|]. intros _.
      exists f, r, n. repeat split; try done; lia.
    + intros (f & r & n & -> & Hs & [Hlo Hhi] & Hr & He & Hn & Hpos).
      rewrite bool_decide_true by done. cbn [negb].
      assert ((st_size f =? 0)%N = false) as -> by (apply N.eqb_neq; lia).
      assert ((max_size <? st_size f)%N = false) as -> by (apply N.ltb_ge; lia).
      rewrite Hr, He, Hn.
      by assert ((n =? 0) = false) as -> by (apply Nat.eqb_neq; lia).
  - intros fs file_path f e Hf Hs [Hlo Hhi] Hr.
    unfold validate_pdf, validate_pdf_try. rewrite Hf.
    rewrite bool_decide_true by done. cbn [negb].
    assert ((st_size f =? 0)%N = false) as -> by (apply N.eqb_neq; lia).
    assert ((max_size <? st_size f)%N = false) as -> by (apply N.ltb_ge; lia).
    rewrite Hr. by destruct e.
  - intros fs Hfs. unfold validate_pdf, validate_pdf_try. by rewrite Hfs.
  - intros fs file_path f Hname Hf Hsize.
    unfold validate_pdf, validate_pdf_try. rewrite Hf.
    unfold PyPath.suffix. rewrite Hname. cbn. by rewrite Hsize.
Qed.

(** The two scenarios and a file that cannot be read, on concrete file
    systems. *)
Lemma C5_witness :
  ((∅ : FileSystem) !! "/tmp/missing.pdf" = None ∧
   validate_pdf ∅ "/tmp/missing.pdf" = (false, Some "File does not exist")) ∧
  (PyPath.name (s2l "empty.pdf") = s2l "empty.pdf" ∧
   fs_empty_pdf !! "empty.pdf" = Some (mkFile 0 (inl PdfReadError)) ∧
   validate_pdf fs_empty_pdf "empty.pdf" = (false, Some "PDF file is empty")) ∧
  (fs_broken_pdf !! "broken.pdf" = Some (mkFile 10 (inl PdfReadError)) ∧
   validate_pdf fs_broken_pdf "broken.pdf"
   = (false, Some "PDF is corrupted or unreadable")).
Proof.
  split; [|split].
  - split; [done|].
    by apply (proj1 (proj2 (proj2 (proj2 C5_validate_pdf_checks_in_order)))).
  - split; [done|]. split; [done|].
    by apply (proj2 (proj2 (proj2 (proj2 C5_validate_pdf_checks_in_order)))
                fs_empty_pdf "empty.pdf" (mkFile 0 (inl PdfReadError))).
  - split; [done|].
    by apply (proj1 (proj2 (proj2 C5_validate_pdf_checks_in_order))
                fs_broken_pdf "broken.pdf" (mkFile 10 (inl PdfReadError))
                PdfReadError).
Defined.

End PDFConverterFacts.

Module ApiFacts.
Import Api.

(** An encrypted PDF is answered with HTTP 200 and a failed body. *)
Lemma post_convert_encrypted cwd fs str_http conv request f r :
  fs !! resolve cwd (req_filePath request) = Some f →
  PDFConverter.reader f = inr r → PDFConverter.is_encrypted r = true →
  post_convert cwd fs str_http conv request =
  Ok200 (encrypted_response (req_documentId request)).
Proof.
  intros Hf Hr He. unfold post_convert, convert_pdf, convert_pdf_try.
  rewrite Hf. unfold check_pdf_encryption. by rewrite Hf, Hr, He.
Qed.

(** The endpoint never answers with an HTTP error. *)
Lemma post_convert_never_http_error cwd fs str_http conv request :
  ∃ body, post_convert cwd fs str_http conv request = Ok200 body.
Proof.
  unfold post_convert, convert_pdf.
  destruct (convert_pdf_try _ _ _ _) as [e|[r calls]]; simpl; eauto.
Qed.

(** C6, as the code has it: when the resolved path does not exist, the
    [HTTPException] with code 404 is caught by the handler's own
    [except Exception], and the client gets HTTP 200 with a failed body whose
    error is the text of that exception. *)
Theorem C6_missing_file_gets_failed_body_not_404 cwd fs str_http conv request :
  fs !! resolve cwd (req_filePath request) = None →
  post_convert cwd fs str_http conv request =
  Ok200 (mkResponse (req_documentId request) "" [] ∅ "failed"
           [str_http 404 ("File not found: "
                          +:+ resolve cwd (req_filePath request))]).
Proof.
  intros Hf. unfold post_convert, convert_pdf, convert_pdf_try.
  by rewrite Hf.
Qed.

(** The request for [/tmp/missing.pdf] on an empty disk. *)
Lemma C6_witness :
  (∅ : PDFConverter.FileSystem) !! resolve "/srv" "/tmp/missing.pdf" = None ∧
  post_convert "/srv" ∅ starlette_str no_result
               (mkRequest "doc-1" "/tmp/missing.pdf" None) =
  Ok200 (mkResponse "doc-1" "" [] ∅ "failed"
           ["404: File not found: /tmp/missing.pdf"]).
Proof.
  split; [done|].
  exact (C6_missing_file_gets_failed_body_not_404 "/srv" ∅ starlette_str
           no_result (mkRequest "doc-1" "/tmp/missing.pdf" None) eq_refl).
Defined.

End ApiFacts.

Module QualityCheckerFacts.
Import PyStr Re QualityChecker.

Lemma score_of_bounds count expected :
  (0 < expected)%Z → in_0_100 (score_of count expected).
Proof.
  intros He. unfold in_0_100, score_of. split.
  - apply Q.min_glb; [discriminate|].
    apply Qmult_le_0_compat; [|discriminate].
    apply Qle_shift_div_l.
    + change 0%Q with (inject_Z 0). rewrite <- Zlt_Qlt. exact He.
    + rewrite Qmult_0_l. change 0%Q with (inject_Z 0). rewrite <- Zle_Qle. lia.
  - apply Q.le_min_l.
Qed.

Lemma score_for_bounds expected_elements key count :
  Forall in_0_100 (score_for expected_elements key count).
Proof.
  unfold score_for. destruct (expected_elements !! key) as [e|]; [|constructor].
  destruct (Z.ltb_spec 0 e); repeat constructor; by apply score_of_bounds.
Qed.

Lemma Qsum_bounds scores :
  Forall in_0_100 scores →
  (0 <= Qsum scores)%Q ∧
  (Qsum scores <= 100 * inject_Z (Z.of_nat (length scores)))%Q.
Proof.
  induction 1 as [|q l [Hq0 Hq1] _ [IH0 IH1]]; simpl.
  - split; discriminate.
  - split; [lra|].
    rewrite Nat2Z.inj_succ. unfold Z.succ. rewrite inject_Z_plus.
    change (inject_Z 1) with 1%Q. lra.
Qed.

Lemma mean_bounds scores :
  scores ≠ [] → Forall in_0_100 scores →
  in_0_100 (Qsum scores / inject_Z (Z.of_nat (length scores))).
Proof.
  intros Hne Hall. destruct (Qsum_bounds scores Hall) as [H0 H1].
  assert (Hn : (0 < inject_Z (Z.of_nat (length scores)))%Q).
  { change 0%Q with (inject_Z 0). rewrite <- Zlt_Qlt.
    destruct scores; [done|]. simpl length. lia. }
  split.
  - apply Qle_shift_div_l; [exact Hn|]. lra.
  - apply Qle_shift_div_r; [exact Hn|]. lra.
Qed.

Lemma accuracy_bounds markdown expected_elements :
  in_0_100 (calculate_accuracy_score markdown expected_elements).
Proof.
  unfold calculate_accuracy_score.
  destruct (nonempty markdown); cbn [negb]; [|split; discriminate].
  match goal with |- context [match ?l with [] => _ | _ :: _ => _ end] =>
    assert (Hall : Forall in_0_100 l)
      by (repeat apply Forall_app_2; apply score_for_bounds);
    generalize dependent l
  end.
  intros [|q scores] Hall.
  - repeat case_match; split; discriminate.
  - apply mean_bounds; [done|exact Hall].
Qed.

Lemma completeness_values markdown source_size :
  (calculate_completeness_score markdown source_size).1 ∈
  [0%Q; 10%Q; 30%Q; 50%Q; 70%Q; 85%Q; 95%Q].
Proof.
  unfold calculate_completeness_score.
  repeat case_match; simpl; set_solver.
Qed.

Lemma completeness_bounds markdown source_size :
  in_0_100 (calculate_completeness_score markdown source_size).1.
Proof.
  pose proof (completeness_values markdown source_size) as H.
  repeat (apply elem_of_cons in H as [->|H]; [split; discriminate|]).
  by apply elem_of_nil in H.
Qed.

Lemma completeness_empty source_size :
  calculate_completeness_score [] source_size =
  if (source_size =? 0)%Z then (0%Q, "Source file is empty")
  else (10%Q, "Very poor extraction").
Proof.
  unfold calculate_completeness_score.
  destruct (source_size =? 0)%Z; [done|].
  change (utf8_len []) with 0%nat. simpl Z.of_nat.
  destruct (Qlt_le_dec _ _) as [_|H]; [done|].
  exfalso. unfold Qdiv in H. rewrite Qmult_0_l in H. lra.
Qed.

Lemma report_scores markdown source_size processing_time :
  let r := generate_quality_report markdown source_size processing_time in
  completeness_score r = (calculate_completeness_score markdown source_size).1 ∧
  accuracy_score r =
    calculate_accuracy_score markdown {[ "min_words" := 100%Z ]} ∧
  overall_score r = ((completeness_score r + accuracy_score r) / 2)%Q.
Proof.
  unfold generate_quality_report.
  destruct (calculate_completeness_score markdown source_size); done.
Qed.

(** C1, as stated, fails: the report of an empty markdown for a source of
    1000 bytes has completeness 10, not 0. *)
Lemma C1_counterexample :
  ¬ (completeness_score (generate_quality_report [] 1000 0) == 0)%Q.
Proof. vm_compute. discriminate. Qed.

(** C1, amended. The three scores of every report lie in [0, 100], and so
    does the accuracy score for any expected counts; for an empty markdown
    the accuracy score is 0, and the completeness score is 0 when the source
    size is 0 and 10 otherwise. *)
Theorem C1_scores_within_0_100 :
  (∀ markdown source_size processing_time,
     let r := generate_quality_report markdown source_size processing_time in
     in_0_100 (completeness_score r) ∧ in_0_100 (accuracy_score r) ∧
     in_0_100 (overall_score r)) ∧
  (∀ markdown expected_elements,
     in_0_100 (calculate_accuracy_score markdown expected_elements)) ∧
  (∀ source_size processing_time,
     let r := generate_quality_report [] source_size processing_time in
     accuracy_score r = 0%Q ∧
     completeness_score r = if (source_size =? 0)%Z then 0%Q else 10%Q).
Proof.
  split; [|split].
  - intros markdown source_size processing_time r.
    destruct (report_scores markdown source_size processing_time)
      as (Hc & Ha & Ho). fold r in Hc, Ha, Ho.
    assert (H1 : in_0_100 (completeness_score r))
      by (rewrite Hc; apply completeness_bounds).
    assert (H2 : in_0_100 (accuracy_score r))
      by (rewrite Ha; apply accuracy_bounds).
    split; [exact H1|]. split; [exact H2|].
    rewrite Ho. destruct H1, H2. split.
    + apply Qle_shift_div_l; [reflexivity|]. lra.
    + apply Qle_shift_div_r; [reflexivity|]. lra.
  - apply accuracy_bounds.
  - intros source_size processing_time r.
    destruct (report_scores [] source_size processing_time) as (Hc & Ha & _).
    fold r in Hc, Ha. split; [by rewrite Ha|].
    rewrite Hc, completeness_empty. by destruct (source_size =? 0)%Z.
Qed.

(** C8, as the code has it: on [Text], twenty dots, six line feeds and
    [More] the issue list is the repeated-characters warning and the low
    word count warning. The six line feeds hold two runs of three, and the
    blank-line warning needs more than ten: it is not in the list. *)
Theorem C8_dots_and_blanks_issues :
  detect_conversion_issues dots_and_blanks =
    ["Excessive repeated characters (possible OCR error)";
     "Very low word count - possible extraction failure"] ∧
  length (findall (literal [NL; NL; NL]) dots_and_blanks) = 2%nat ∧
  "Excessive blank lines" ∉ detect_conversion_issues dots_and_blanks.
Proof.
  assert (H : detect_conversion_issues dots_and_blanks =
    ["Excessive repeated characters (possible OCR error)";
     "Very low word count - possible extraction failure"]) by (by vm_compute).
  split; [exact H|]. split; [by vm_compute|].
  rewrite H. intros Hin.
  repeat (apply elem_of_cons in Hin as [Hin|Hin]; [discriminate Hin|]).
  by apply elem_of_nil in Hin.
Qed.

End QualityCheckerFacts.

Module PyStrFacts.
Import PyStr.

Lemma chr_eqb_true a b : chr_eqb a b = true ↔ a = b.
Proof. unfold chr_eqb. apply bool_decide_eq_true. Qed.

Lemma chr_eqb_false a b : chr_eqb a b = false ↔ a ≠ b.
Proof. unfold chr_eqb. apply bool_decide_eq_false. Qed.

Lemma chr_eqb_refl a : chr_eqb a a = true.
Proof. by apply chr_eqb_true. Qed.

Lemma chr_eqb_ne a b : a ≠ b → chr_eqb a b = false.
Proof. apply chr_eqb_false. Qed.

(** *** [split] and [join] *)

Lemma split_on_nonempty sep s : split_on sep s ≠ [].
Proof.
  induction s as [|c s IH]; simpl; [done|].
  destruct (chr_eqb c sep); [done|]. by destruct (split_on sep s).
Qed.

Lemma join_cons sep l ls :
  ls ≠ [] → join sep (l :: ls) = l ++ sep ++ join sep ls.
Proof. by destruct ls. Qed.

Lemma split_on_app sep l s :
  sep ∉ l → split_on sep (l ++ sep :: s) = l :: split_on sep s.
Proof.
  induction l as [|c l IH]; simpl; intros Hn.
  - by rewrite chr_eqb_refl.
  - apply not_elem_of_cons in Hn as [Hc Hl].
    rewrite chr_eqb_ne by done. by rewrite IH.
Qed.

Lemma split_on_no_sep sep l : sep ∉ l → split_on sep l = [l].
Proof.
  induction l as [|c l IH]; simpl; intros Hn; [done|].
  apply not_elem_of_cons in Hn as [Hc Hl].
  rewrite chr_eqb_ne by done. by rewrite IH.
Qed.

Lemma split_on_parts sep s : Forall (λ l, sep ∉ l) (split_on sep s).
Proof.
  induction s as [|c s IH]; simpl.
  - repeat constructor. set_solver.
  - destruct (chr_eqb c sep) eqn:E.
    + constructor; [set_solver|done].
    + apply chr_eqb_false in E. destruct (split_on sep s) as [|l ls].
      * repeat constructor. set_solver.
      * apply Forall_cons in IH as [Hl Hls]. constructor; [set_solver|done].
Qed.

Lemma join_split_on sep s : join [sep] (split_on sep s) = s.
Proof.
  induction s as [|c s IH]; simpl; [done|].
  pose proof (split_on_nonempty sep s) as Hne.
  destruct (chr_eqb c sep) eqn:E.
  - apply chr_eqb_true in E as ->. rewrite join_cons by done. simpl. by rewrite IH.
  - destruct (split_on sep s) as [|l ls]; [done|].
    destruct ls as [|l' ls]; simpl in *; by rewrite IH.
Qed.

Lemma split_on_join sep ls :
  ls ≠ [] → Forall (λ l, sep ∉ l) ls → split_on sep (join [sep] ls) = ls.
Proof.
  induction ls as [|l ls IH]; [done|]. intros _ Hall.
  apply Forall_cons in Hall as [Hl Hls].
  destruct ls as [|l' ls].
  - simpl. by apply split_on_no_sep.
  - rewrite join_cons by done. cbn [app].
    rewrite split_on_app by done. f_equal. by apply IH.
Qed.

Lemma join_split_lines s : join_lines (split_lines s) = s.
Proof. apply join_split_on. Qed.

Lemma split_join_lines ls :
  ls ≠ [] → Forall (λ l, NL ∉ l) ls → split_lines (join_lines ls) = ls.
Proof. apply split_on_join. Qed.

Lemma split_lines_parts s : Forall (λ l, NL ∉ l) (split_lines s).
Proof. apply split_on_parts. Qed.

Lemma split_lines_nonempty s : split_lines s ≠ [].
Proof. apply split_on_nonempty. Qed.

(** *** [span] *)

Lemma span_app p s : (span p s).1 ++ (span p s).2 = s.
Proof.
  induction s as [|c s IH]; simpl; [done|].
  destruct (p c); [|done]. destruct (span p s); simpl in *. by rewrite IH.
Qed.

Lemma span_all p s : Forall (λ c, p c = true) (span p s).1.
Proof.
  induction s as [|c s IH]; simpl; [constructor|].
  destruct (p c) eqn:E; [|constructor].
  destruct (span p s); simpl in *. by constructor.
Qed.

Lemma span_stops p s : stops p (span p s).2.
Proof.
  induction s as [|c s IH]; simpl; [done|].
  destruct (p c) eqn:E; [|done]. by destruct (span p s).
Qed.

Lemma span_eq p a b :
  Forall (λ c, p c = true) a → stops p b → span p (a ++ b) = (a, b).
Proof.
  intros Ha Hb. induction Ha as [|c a Hc _ IH]; simpl.
  - destruct b as [|c b]; [done|]. simpl in *. by rewrite Hb.
  - by rewrite Hc, IH.
Qed.

Lemma span_none p s : stops p s → span p s = ([], s).
Proof. intros H. by apply (span_eq p [] s). Qed.

Lemma span_sub p s c : c ∈ (span p s).1 ∨ c ∈ (span p s).2 → c ∈ s.
Proof. rewrite <- (span_app p s) at 3. rewrite elem_of_app. done. Qed.

End PyStrFacts.

Module FormatterFacts.
Import PyStr Re MarkdownFormatter PyStrFacts.

(** *** The groups of [heading_match] and [numbered_match] *)

Lemma last_in (w : ascii) ws : List.last ws w ∈ w :: ws.
Proof.
  induction ws as [|x ws IH]; simpl.
  - apply list_elem_of_here.
  - destruct ws as [|y ws].
    + apply list_elem_of_further, list_elem_of_here.
    + apply elem_of_cons in IH as [->|IH].
      * apply list_elem_of_here.
      * by do 2 apply list_elem_of_further.
Qed.

Lemma rest_group_shape ws rest text :
  Forall (λ c, isspace c = true) ws → stops isspace rest →
  rest_group ws rest = Some text →
  group_shape text ∧ ∀ c, c ∈ text → c ∈ ws ∨ c ∈ rest.
Proof.
  intros Hws Hrest. unfold rest_group.
  destruct ws as [|w ws]; [done|]. destruct rest as [|r rest].
  - destruct ws as [|w' ws]; [done|]. intros [= <-].
    pose proof (last_in w' ws) as Hin. split.
    + right. eexists; split; [done|].
      apply Forall_cons in Hws as [_ Hws].
      by apply (proj1 (Forall_forall _ _) Hws).
    + intros c Hc. apply list_elem_of_singleton in Hc as ->. left.
      by apply list_elem_of_further.
  - assert (match ws with [] | _ => Some (r :: rest) end = Some (r :: rest))
      as -> by (by destruct ws).
    intros [= <-]. split; [left; done|]. intros c Hc. by right.
Qed.

Lemma rest_group_rebuild text :
  group_shape text →
  (let '(ws, rest) := span isspace (s2l " " ++ text) in rest_group ws rest)
  = Some text.
Proof.
  intros [[Hne Hst]|(c & -> & Hc)].
  - change (s2l " " ++ text) with ([" "%char] ++ text).
    rewrite span_eq; [|by repeat constructor|done].
    by destruct text.
  - change (s2l " " ++ [c]) with ([" "%char; c] ++ []).
    rewrite span_eq; [done|by repeat constructor|done].
Qed.

Lemma elem_of_rep c d n : c ∈ rep d n → c = d.
Proof. unfold rep. by intros [? _]%elem_of_replicate. Qed.

Lemma span_rep p c n rest :
  p c = true → stops p rest → span p (rep c n ++ rest) = (rep c n, rest).
Proof.
  intros Hc Hr. apply span_eq; [|done].
  apply Forall_forall. by intros x ->%elem_of_rep.
Qed.

Lemma heading_match_spec line hashes title :
  heading_match line = Some (hashes, title) →
  hashes ≠ [] ∧ Forall (λ c, c = "#"%char) hashes ∧ group_shape title ∧
  ∀ c, c ∈ title → c ∈ line.
Proof.
  unfold heading_match.
  pose proof (span_app (eqc "#") line) as Happ.
  pose proof (span_all (eqc "#") line) as Hall.
  destruct (span (eqc "#") line) as [h r]; simpl in *.
  pose proof (span_app isspace r) as Happ2.
  pose proof (span_all isspace r) as Hall2.
  pose proof (span_stops isspace r) as Hst2.
  destruct (span isspace r) as [ws rest]; simpl in *.
  destruct h as [|c h]; [done|]. cbn [nonempty].
  destruct (rest_group ws rest) as [t|] eqn:Eg; [|done].
  intros [= <- <-].
  apply rest_group_shape in Eg as [Hshape Hsub]; [|done..].
  split; [done|]. split.
  - eapply Forall_impl; [exact Hall|]. intros x Hx. symmetry.
    by apply chr_eqb_true.
  - split; [done|]. intros x Hx. rewrite <- Happ, <- Happ2.
    apply Hsub in Hx. set_solver.
Qed.

Lemma hashes_rep hashes :
  Forall (λ c, c = "#"%char) hashes → hashes = rep "#" (length hashes).
Proof. induction 1 as [|c l -> _ IH]; simpl; [done|]. unfold rep in *. simpl. by f_equal. Qed.

Lemma heading_match_rebuild n title :
  n ≠ 0 → group_shape title →
  heading_match (rep "#" n ++ s2l " " ++ title) = Some (rep "#" n, title).
Proof.
  intros Hn Hshape. unfold heading_match.
  rewrite span_rep; [|done|done].
  pose proof (rest_group_rebuild title Hshape) as H.
  destruct (span isspace (s2l " " ++ title)) as [ws rest].
  rewrite H. by destruct n.
Qed.

Lemma heading_level_rebuild n title :
  n ≠ 0 → group_shape title →
  heading_level (rep "#" n ++ s2l " " ++ title) = Some n.
Proof.
  intros Hn Hshape. unfold heading_level.
  rewrite heading_match_rebuild by done. simpl.
  destruct n; [done|]. simpl. unfold rep. by rewrite length_replicate.
Qed.

(** *** The loop of [fix_heading_hierarchy] *)

Lemma fix_step_none stack line :
  heading_level line = None → fix_step stack line = (stack, line).
Proof.
  unfold heading_level, fix_step.
  destruct (startswith (s2l "#") line); [|done].
  by destruct (heading_match line) as [[h t]|].
Qed.

Lemma fix_step_some stack line l :
  heading_level line = Some l →
  ∃ l' line',
    fix_step stack line = (l' :: pop_to stack l', line') ∧
    heading_level line' = Some l' ∧
    match stack with top :: _ => l' ≤ top + 1 | [] => True end ∧
    (NL ∉ line → NL ∉ line').
Proof.
  unfold heading_level at 1, fix_step.
  destruct (startswith (s2l "#") line) eqn:Es; [|done].
  destruct (heading_match line) as [[h t]|] eqn:Em; [|done].
  simpl. intros [= <-].
  assert (Hl : heading_level line = Some (length h)).
  { unfold heading_level. by rewrite Es, Em. }
  apply heading_match_spec in Em as (Hne & Hh & Hshape & Hsub).
  unfold clamp. destruct stack as [|top below].
  { eexists _, _. by repeat split. }
  destruct (Nat.ltb_spec (top + 1) (length h)) as [Hlt|Hge].
  - eexists _, _. split; [done|]. split.
    + apply heading_level_rebuild; [lia|done].
    + split; [lia|]. intros Hnl Hin.
      apply elem_of_app in Hin as [Hin|Hin].
      { by apply elem_of_rep in Hin. }
      apply elem_of_app in Hin as [Hin|Hin].
      { apply list_elem_of_singleton in Hin. done. }
      by apply Hnl, Hsub.
  - eexists _, _. repeat split; [done|lia|done].
Qed.

Lemma fix_loop_lines lines : ∀ stack,
  length (fix_loop stack lines).2 = length lines ∧
  (Forall (λ l, NL ∉ l) lines → Forall (λ l, NL ∉ l) (fix_loop stack lines).2).
Proof.
  induction lines as [|line rest IH]; intros stack; simpl; [done|].
  destruct (heading_level line) as [l|] eqn:El.
  - destruct (fix_step_some stack line l El) as (l' & line' & -> & _ & _ & Hnl).
    specialize (IH (l' :: pop_to stack l')).
    destruct (fix_loop _ rest) as [st out]; simpl in *.
    destruct IH as [IH1 IH2]. split; [by rewrite IH1|].
    intros [? ?]%Forall_cons. constructor; auto.
  - rewrite (fix_step_none stack line El). specialize (IH stack).
    destruct (fix_loop _ rest) as [st out]; simpl in *.
    destruct IH as [IH1 IH2]. split; [by rewrite IH1|].
    intros [? ?]%Forall_cons. constructor; auto.
Qed.

Lemma fix_loop_chain lines : ∀ stack,
  chain (head stack) (omap heading_level (fix_loop stack lines).2).
Proof.
  induction lines as [|line rest IH]; intros stack; simpl; [done|].
  destruct (heading_level line) as [l|] eqn:El.
  - destruct (fix_step_some stack line l El) as (l' & line' & -> & Hl' & Hle & _).
    specialize (IH (l' :: pop_to stack l')).
    destruct (fix_loop _ rest) as [st out]; simpl in *.
    rewrite Hl'. simpl. split; [by destruct stack|done].
  - rewrite (fix_step_none stack line El). specialize (IH stack).
    destruct (fix_loop _ rest) as [st out]; simpl in *.
    by rewrite El.
Qed.

Lemma fix_loop_top lines : ∀ stack,
  head (fix_loop stack lines).1 =
  from_option Some (head stack)
              (last (omap heading_level (fix_loop stack lines).2)).
Proof.
  induction lines as [|line rest IH]; intros stack; simpl; [done|].
  destruct (heading_level line) as [l|] eqn:El.
  - destruct (fix_step_some stack line l El) as (l' & line' & -> & Hl' & _ & _).
    specialize (IH (l' :: pop_to stack l')).
    destruct (fix_loop _ rest) as [st out]; simpl in *.
    rewrite Hl', IH. simpl. rewrite last_cons. unfold omap.
    by destruct (last _).
  - rewrite (fix_step_none stack line El). specialize (IH stack).
    destruct (fix_loop _ rest) as [st out]; simpl in *.
    by rewrite El.
Qed.

Lemma chain_no_skip levels : ∀ prev, chain prev levels → no_skip levels.
Proof.
  induction levels as [|b rest IH]; intros prev Hc i x y Hx Hy; [done|].
  destruct Hc as [_ Hc]. destruct i as [|i]; simpl in *.
  - injection Hx as ->. destruct rest as [|b' rest]; [done|].
    simpl in *. injection Hy as ->. by destruct Hc.
  - by eapply IH.
Qed.

(** C2. In the output of [fix_heading_hierarchy] no heading is more than one
    level above the heading before it; every heading the loop writes is at
    most one level above the top of the stack it is read with; and the top
    of the stack is the level of the last heading written. *)
Theorem C2_no_heading_skips_a_level :
  (∀ content, no_skip (heading_levels (fix_heading_hierarchy content))) ∧
  (∀ heading_stack line level,
     heading_level (fix_step heading_stack line).2 = Some level →
     match heading_stack with top :: _ => level ≤ top + 1 | [] => True end) ∧
  (∀ lines,
     head (fix_loop [] lines).1 =
     last (omap heading_level (fix_loop [] lines).2)).
Proof.
  split; [|split].
  - intros content. unfold heading_levels, fix_heading_hierarchy.
    destruct (fix_loop_lines (split_lines content) []) as [Hlen Hnl].
    rewrite split_join_lines.
    + eapply chain_no_skip, fix_loop_chain.
    + intros Hnil. rewrite Hnil in Hlen. simpl in Hlen.
      pose proof (split_lines_nonempty content). by destruct (split_lines content).
    + apply Hnl, split_lines_parts.
  - intros stack line level.
    destruct (heading_level line) as [l|] eqn:El.
    + destruct (fix_step_some stack line l El) as (l' & line' & -> & Hl' & Hle & _).
      simpl. rewrite Hl'. by intros [= <-].
    + rewrite (fix_step_none stack line El). simpl. by rewrite El.
  - intros lines. rewrite fix_loop_top. simpl.
    by destruct (last _).
Qed.

(** On the repository's test text the levels 1, 3, 2 become 1, 2, 2. *)
Lemma C2_witness :
  heading_levels skipped_level = [1; 3; 2] ∧
  heading_levels (fix_heading_hierarchy skipped_level) = [1; 2; 2] ∧
  no_skip (heading_levels (fix_heading_hierarchy skipped_level)).
Proof.
  split; [by vm_compute|]. split; [by vm_compute|].
  exact (proj1 C2_no_heading_skips_a_level skipped_level).
Defined.

(** *** The table of contents *)

Lemma qualifies_spec line :
  qualifies line =
  match (if startswith (s2l "#") line then heading_match line else None) with
  | Some (hashes, _) => (length hashes <=? 3)%nat
  | None => false
  end.
Proof.
  unfold qualifies, heading_level.
  destruct (startswith (s2l "#") line); [|done].
  by destruct (heading_match line) as [[h t]|].
Qed.

Lemma toc_entries_length lines :
  length (toc_entries lines) = length (filter (λ line, qualifies line) lines).
Proof.
  induction lines as [|line rest IH]; [done|].
  cbn [toc_entries]. rewrite filter_cons.
  pose proof (qualifies_spec line) as Hq.
  destruct (if startswith (s2l "#") line then heading_match line else None)
    as [[h t]|].
  - destruct (length h <=? 3)%nat.
    + rewrite decide_True by (by apply Is_true_true). cbn [length].
      by rewrite IH.
    + rewrite decide_False by (by apply Is_true_false). done.
  - rewrite decide_False by (by apply Is_true_false). done.
Qed.

Lemma leading_hashes_span line :
  leading_hashes line = length (span (eqc "#") line).1 ∧
  drop (leading_hashes line) line = (span (eqc "#") line).2.
Proof.
  induction line as [|c line [IH1 IH2]]; [done|]. cbn [leading_hashes span].
  destruct (eqc "#" c); [|done].
  destruct (span (eqc "#") line) as [a b]. cbn [fst snd length drop] in *.
  split; [by f_equal|exact IH2].
Qed.

(** What [\s+(.+)$] needs after the hashes: a whitespace character and one
    more character. *)
Lemma rest_group_some r :
  is_Some (let '(ws, rest) := span isspace r in rest_group ws rest)
  ↔ match r with space :: _ :: _ => isspace space = true | _ => False end.
Proof.
  destruct r as [|w [|c r]]; cbn [span].
  - split; [by intros [? ?]|done].
  - destruct (isspace w); split; try done; by intros [? ?].
  - destruct (isspace w); [|split; [by intros [? ?]|done]].
    destruct (isspace c).
    + destruct (span isspace r) as [ws rest].
      split; [done|]. intros _. cbn [rest_group]. by destruct rest.
    + split; [done|]. intros _. by eexists.
Qed.

Lemma heading_up_to_3_qualifies line : heading_up_to_3 line = qualifies line.
Proof.
  rewrite qualifies_spec. unfold heading_up_to_3, heading_match. cbv zeta.
  destruct (leading_hashes_span line) as [-> ->].
  pose proof (span_app (eqc "#") line) as Happ.
  pose proof (span_all (eqc "#") line) as Hall.
  pose proof (rest_group_some (span (eqc "#") line).2) as Hsome.
  destruct (span (eqc "#") line) as [hashes r]. cbn [fst snd] in *.
  destruct hashes as [|h hashes].
  { cbn [app] in Happ. subst r. cbn [length Nat.leb andb nonempty].
    by destruct (startswith (s2l "#") line), (span isspace line). }
  assert (startswith (s2l "#") line = true) as ->.
  { subst line. apply Forall_cons in Hall as [Hh _].
    apply chr_eqb_true in Hh as <-. done. }
  cbn [nonempty]. destruct (span isspace r) as [ws rest].
  change (1 <=? length (h :: hashes)) with true. cbn [andb].
  destruct (rest_group ws rest) as [title|];
    cbn [fmap option_fmap option_map].
  - assert (Hr : match r with
                 | space :: _ :: _ => isspace space = true
                 | _ => False
                 end) by (apply Hsome; by eexists).
    destruct r as [|w [|c r]]; [done..|]. rewrite Hr. apply andb_true_r.
  - destruct r as [|w [|c r]]; [apply andb_false_r..|].
    destruct (isspace w) eqn:Ew; [|apply andb_false_r].
    apply proj2 in Hsome. by destruct (Hsome eq_refl).
Qed.

Lemma headings_up_to_3_qualifying content :
  headings_up_to_3 content = qualifying_headings content.
Proof.
  unfold headings_up_to_3, qualifying_headings. f_equal.
  apply list_filter_iff. intros line. by rewrite heading_up_to_3_qualifies.
Qed.

(** C7. [add_table_of_contents] puts a table of contents, with one entry
    for each heading of level 3 at most, before the content when the text
    has more than two such headings, and returns the content as it is
    otherwise. A heading of level 3 at most is a line of one to three
    hashes, a whitespace character and a title. *)
Theorem C7_toc_iff_more_than_two_headings content :
  (2 < headings_up_to_3 content →
   ∃ entries,
     length entries = headings_up_to_3 content ∧
     add_table_of_contents content =
     join_lines ((s2l "## Table of Contents" ++ [NL]) :: entries)
     ++ [NL; NL] ++ content) ∧
  (headings_up_to_3 content ≤ 2 →
   add_table_of_contents content = content) ∧
  (add_table_of_contents content ≠ content ↔ 2 < headings_up_to_3 content).
Proof.
  rewrite headings_up_to_3_qualifying.
  unfold add_table_of_contents, qualifying_headings.
  rewrite <- toc_entries_length.
  destruct (Nat.ltb_spec 2 (length (toc_entries (split_lines content))))
    as [Hlt|Hle].
  - split; [eauto|]. split; [lia|]. split; [done|]. intros _ Heq.
    apply (f_equal length) in Heq. rewrite !length_app in Heq.
    simpl in Heq. lia.
  - split; [lia|]. split; [done|]. split; [done|lia].
Qed.

(** The text of the repository's test of the hierarchy has three headings
    and gets a table of three entries; a text of two headings stays as it
    is. *)
Lemma C7_witness :
  (2 < headings_up_to_3 skipped_level ∧
   add_table_of_contents skipped_level
   = s2l "## Table of Contents" ++ [NL; NL]
     ++ s2l "- [Title](#title)" ++ [NL]
     ++ s2l "    - [Skipped Level](#skipped-level)" ++ [NL]
     ++ s2l "  - [Back to Level 2](#back-to-level-2)" ++ [NL; NL]
     ++ skipped_level ∧
   add_table_of_contents skipped_level ≠ skipped_level) ∧
  (headings_up_to_3 two_headings ≤ 2 ∧
   add_table_of_contents two_headings = two_headings).
Proof.
  assert (H3 : 2 < headings_up_to_3 skipped_level) by (vm_compute; lia).
  assert (H2 : headings_up_to_3 two_headings ≤ 2) by (vm_compute; lia).
  split.
  - split; [exact H3|]. split; [by vm_compute|].
    exact (proj2 (proj2 (proj2 (C7_toc_iff_more_than_two_headings skipped_level))) H3).
  - split; [exact H2|].
    exact (proj1 (proj2 (C7_toc_iff_more_than_two_headings two_headings)) H2).
Defined.

(** *** [format_lists] *)

Lemma lstrip_spec s : lstrip s = (span isspace s).2.
Proof.
  induction s as [|c s IH]; simpl; [done|].
  destruct (isspace c); [|done]. rewrite IH. by destruct (span isspace s).
Qed.

Lemma lstrip_stops s : stops isspace (lstrip s).
Proof. rewrite lstrip_spec. apply span_stops. Qed.

Lemma lstrip_sub s c : c ∈ lstrip s → c ∈ s.
Proof. rewrite lstrip_spec. intros. apply (span_sub isspace). by right. Qed.

Lemma lstrip_id s : stops isspace s → lstrip s = s.
Proof. by destruct s as [|c s]; simpl; [|intros ->]. Qed.

Lemma lstrip_rep n s :
  stops isspace s → lstrip (rep " " n ++ s) = s ∧
  length (rep " " n ++ s) - length s = n.
Proof.
  intros Hs. split.
  - rewrite lstrip_spec, span_rep; done.
  - rewrite length_app. unfold rep. rewrite length_replicate. lia.
Qed.

Lemma even_quantum n : n / 2 * 2 / 2 * 2 = n / 2 * 2.
Proof. by rewrite Nat.div_mul. Qed.

Lemma numbered_match_spec stripped num text :
  numbered_match stripped = Some (num, text) →
  num ≠ [] ∧ Forall (λ c, isdigit c = true) num ∧ group_shape text ∧
  ∀ c, c ∈ num ++ text → c ∈ stripped.
Proof.
  unfold numbered_match.
  pose proof (span_app isdigit stripped) as Happ.
  pose proof (span_all isdigit stripped) as Hall.
  destruct (span isdigit stripped) as [d r]; simpl in *.
  destruct r as [|c r]; [done|].
  pose proof (span_app isspace r) as Happ2.
  pose proof (span_all isspace r) as Hall2.
  pose proof (span_stops isspace r) as Hst2.
  destruct (span isspace r) as [ws rest]; simpl in *.
  destruct d as [|d0 d]; [done|]. cbn [nonempty andb].
  destruct (eqc "." c); [|done].
  destruct (rest_group ws rest) as [t|] eqn:Eg; [|done].
  intros [= <- <-].
  apply rest_group_shape in Eg as [Hshape Hsub]; [|done..].
  split; [done|]. split; [done|]. split; [done|].
  intros x Hx. rewrite <- Happ, <- Happ2.
  apply elem_of_app in Hx as [Hx|Hx]; [set_solver|].
  apply Hsub in Hx. set_solver.
Qed.

Lemma digit_not_space c : isdigit c = true → isspace c = false.
Proof.
  unfold isdigit, isspace, in_range. intros H.
  apply andb_true_iff in H as [H1 H2].
  apply N.leb_le in H1, H2.
  repeat match goal with
  | |- (_ || _) = false => apply orb_false_iff; split
  | |- (_ && _) = false => apply andb_false_iff
  | |- (_ =? _)%N = false => apply N.eqb_neq; lia
  end.
  - right. apply N.leb_gt. lia.
  - right. apply N.leb_gt. lia.
Qed.

Lemma digit_not_bullet c : isdigit c = true → is_bullet c = false.
Proof.
  intros H. unfold is_bullet, eqc.
  rewrite !orb_false_iff, !chr_eqb_false.
  repeat split; intros <-; by vm_compute in H.
Qed.

Lemma format_line_bullet_form n rest :
  format_line (rep " " (n / 2 * 2) ++ s2l "- " ++ rest)
  = rep " " (n / 2 * 2) ++ s2l "- " ++ rest.
Proof.
  assert (Hst : stops isspace (s2l "- " ++ rest)) by done.
  destruct (lstrip_rep (n / 2 * 2) _ Hst) as [H1 H2].
  unfold format_line. cbv zeta. rewrite H1, H2.
  change (bullet_match (s2l "- " ++ rest)) with true. cbv iota.
  by rewrite even_quantum.
Qed.

Lemma format_line_numbered_form n d num text :
  isdigit d = true → Forall (λ c, isdigit c = true) num → group_shape text →
  format_line (rep " " (n / 2 * 2) ++ (d :: num) ++ s2l ". " ++ text)
  = rep " " (n / 2 * 2) ++ (d :: num) ++ s2l ". " ++ text.
Proof.
  intros Hd Hnum Hshape.
  assert (Hst : stops isspace ((d :: num) ++ s2l ". " ++ text))
    by (by apply digit_not_space).
  destruct (lstrip_rep (n / 2 * 2) _ Hst) as [H1 H2].
  unfold format_line. cbv zeta. rewrite H1, H2.
  assert (bullet_match ((d :: num) ++ s2l ". " ++ text) = false) as ->.
  { cbn [app bullet_match]. destruct (num ++ _); [done|].
    by rewrite digit_not_bullet. }
  assert (Hspan : span isdigit ((d :: num) ++ s2l ". " ++ text)
                  = (d :: num, s2l ". " ++ text)).
  { apply span_eq; [by constructor|done]. }
  unfold numbered_prefix_match, numbered_match. rewrite Hspan.
  change (s2l ". " ++ text) with ("."%char :: " "%char :: text).
  change (eqc "." ".") with true. change (isspace " ") with true.
  cbn [nonempty andb].
  pose proof (rest_group_rebuild text Hshape) as Hr.
  change (s2l " " ++ text) with (" "%char :: text) in Hr.
  destruct (span isspace (" "%char :: text)) as [ws rest]. rewrite Hr.
  cbn [fmap option_fmap option_map]. by rewrite even_quantum.
Qed.

Lemma format_line_idempotent line :
  format_line (format_line line) = format_line line.
Proof.
  assert (Hcases :
    (∃ n rest, format_line line = rep " " (n / 2 * 2) ++ s2l "- " ++ rest) ∨
    (∃ n d num text,
       isdigit d = true ∧ Forall (λ c, isdigit c = true) num ∧
       group_shape text ∧
       format_line line
       = rep " " (n / 2 * 2) ++ (d :: num) ++ s2l ". " ++ text) ∨
    format_line line = line).
  { unfold format_line. cbv zeta.
    destruct (bullet_match (lstrip line)); [left; eauto|]. right.
    destruct (numbered_prefix_match (lstrip line)); [|by right].
    destruct (numbered_match (lstrip line)) as [[num text]|] eqn:Em;
      [|by right].
    apply numbered_match_spec in Em as (Hne & Hnum & Hshape & _).
    destruct num as [|d num]; [done|].
    apply Forall_cons in Hnum as [Hd Hnum]. left.
    by exists (length line - length (lstrip line)), d, num, text. }
  destruct Hcases as [(n & rest & ->)|[(n & d & num & text & ? & ? & ? & ->)|H]].
  - apply format_line_bullet_form.
  - by apply format_line_numbered_form.
  - by rewrite H.
Qed.

Lemma format_line_no_nl line : NL ∉ line → NL ∉ format_line line.
Proof.
  intros Hnl. unfold format_line.
  destruct (bullet_match (lstrip line)).
  - intros Hin. apply elem_of_app in Hin as [Hin|Hin].
    { by apply elem_of_rep in Hin. }
    apply elem_of_app in Hin as [Hin|Hin].
    { revert Hin. cbn. rewrite !elem_of_cons. intros [?|[?|?%elem_of_nil]]; done. }
    apply Hnl, lstrip_sub. by eapply subseteq_drop.
  - destruct (numbered_prefix_match (lstrip line)); [|done].
    destruct (numbered_match (lstrip line)) as [[num text]|] eqn:Em; [|done].
    apply numbered_match_spec in Em as (_ & _ & _ & Hsub).
    intros Hin. apply elem_of_app in Hin as [Hin|Hin].
    { by apply elem_of_rep in Hin. }
    rewrite (assoc app) in Hin.
    apply elem_of_app in Hin as [Hin|Hin].
    + apply elem_of_app in Hin as [Hin|Hin].
      * apply Hnl, lstrip_sub, Hsub. set_solver.
      * revert Hin. cbn. rewrite !elem_of_cons. intros [?|[?|?%elem_of_nil]]; done.
    + apply Hnl, lstrip_sub, Hsub. set_solver.
Qed.

Lemma format_lists_idempotent x :
  format_lists (format_lists x) = format_lists x.
Proof.
  unfold format_lists. rewrite split_join_lines.
  - rewrite <- list_fmap_compose. f_equal. apply list_fmap_ext.
    intros _ line _. apply format_line_idempotent.
  - pose proof (split_lines_nonempty x). by destruct (split_lines x).
  - apply Forall_fmap. eapply Forall_impl; [apply split_lines_parts|].
    intros l. apply format_line_no_nl.
Qed.

End FormatterFacts.

Module ImagesFacts.
Import PyStr Images.

Lemma extract_loop_spec dir doc images : ∀ idx file ref,
  (file, ref) ∈ extract_loop dir doc idx images →
  ∃ i pic,
    images !! i = Some pic ∧ pil_image pic = Some true ∧
    let filename :=
      code_filename doc (pretty (idx + i + 1)%nat)
                    (image_hash (encode (picture_str pic))) "png" in
    file = path_join dir filename ∧ ref = "/uploads/images/" +:+ filename.
Proof.
  induction images as [|pic rest IH]; intros idx file ref; simpl.
  - by intros ?%elem_of_nil.
  - assert (Hrest : (file, ref) ∈ extract_loop dir doc (S idx) rest →
      ∃ i pic', (pic :: rest) !! i = Some pic' ∧ pil_image pic' = Some true ∧
        let filename :=
          code_filename doc (pretty (idx + i + 1)%nat)
                        (image_hash (encode (picture_str pic'))) "png" in
        file = path_join dir filename ∧ ref = "/uploads/images/" +:+ filename).
    { intros Hin. destruct (IH _ _ _ Hin) as (i & pic' & Hi & Hp & Hf).
      exists (S i), pic'. split; [done|]. split; [done|].
      by replace (idx + S i + 1) with (S idx + i + 1) by lia. }
    destruct (pil_image pic) as [[|]|] eqn:Ep; [|done..].
    intros [Heq|Hin]%elem_of_cons; [|by apply Hrest].
    injection Heq as -> ->. exists 0, pic. split; [done|]. split; [done|].
    by rewrite Nat.add_0_r.
Qed.

End ImagesFacts.

Module ReFacts.
Import PyStr Re PyStrFacts.

Lemma bol_after_cons bol c a :
  bol_after bol (c :: a) = bol_after (chr_eqb c NL) a.
Proof. unfold bol_after. rewrite last_cons. by destruct (last a). Qed.

(** Passing the characters of a match. *)
Lemma sub_scan_skip {A} (m : Matcher A) repl a : ∀ bol s,
  sub_scan m repl bol (length a) (a ++ s)
  = sub_scan m repl (bol_after bol a) 0 s.
Proof.
  induction a as [|c a IH]; intros bol s; [done|].
  cbn [length app sub_scan]. by rewrite IH, bol_after_cons.
Qed.

Lemma sub_scan_elem {A} (m : Matcher A) repl x : ∀ s bol k,
  x ∈ sub_scan m repl bol k s → x ∈ repl ∨ x ∈ s.
Proof.
  induction s as [|c s IH]; intros bol k; cbn [sub_scan].
  - by intros ?%elem_of_nil.
  - destruct k as [|k].
    + destruct (m bol (c :: s)) as [[[|n] u]|].
      * intros [->|H]%elem_of_cons; [right; by left|].
        apply IH in H as [?|?]; [by left|right; by right].
      * intros [H|H]%elem_of_app; [by left|].
        apply IH in H as [?|?]; [by left|right; by right].
      * intros [->|H]%elem_of_cons; [right; by left|].
        apply IH in H as [?|?]; [by left|right; by right].
    + intros H. apply IH in H as [?|?]; [by left|right; by right].
Qed.

Lemma sub_no_nl {A} (m : Matcher A) repl s :
  NL ∉ repl → NL ∉ s → NL ∉ sub m repl s.
Proof. intros Hr Hs H. apply sub_scan_elem in H as [?|?]; done. Qed.

(** A pattern that reads one line works line by line. *)
Lemma sub_scan_line {A} (m : Matcher A) repl rest :
  line_local m → ∀ l, NL ∉ l → ∀ bol k, k ≤ length l →
  sub_scan m repl bol k (l ++ NL :: rest)
  = sub_scan m repl bol k l ++ NL :: sub m repl rest.
Proof.
  intros [Hloc Hbound]. induction l as [|c l IH]; intros Hnl bol k Hk.
  - assert (k = 0) as -> by (simpl in Hk; lia). cbn [app sub_scan].
    pose proof (Hloc bol [] rest Hnl) as Hm. cbn [app] in Hm.
    rewrite chr_eqb_refl.
    destruct (m bol (NL :: rest)) as [[[|n] u]|] eqn:Em; try done.
    symmetry in Hm. apply Hbound in Hm. simpl in Hm. lia.
  - apply not_elem_of_cons in Hnl as [Hc Hl].
    cbn [app sub_scan]. destruct k as [|k].
    + pose proof (Hloc bol (c :: l) rest) as Hm. cbn [app] in Hm.
      rewrite Hm by (by apply not_elem_of_cons).
      destruct (m bol (c :: l)) as [[[|n] u]|] eqn:Em.
      * rewrite IH; [done|done|lia].
      * apply Hbound in Em. cbn [length] in Em.
        rewrite IH; [|done|lia]. by rewrite <- (assoc app).
      * rewrite IH; [done|done|lia].
    + cbn [length] in Hk. rewrite IH; [done|done|lia].
Qed.

Lemma sub_join_lines {A} (m : Matcher A) repl ls :
  line_local m → Forall (λ l, NL ∉ l) ls →
  sub m repl (join_lines ls) = join_lines (sub m repl <$> ls).
Proof.
  intros Hm. induction 1 as [|l ls Hl Hls IH]; [done|].
  destruct ls as [|l' ls]; [done|].
  unfold join_lines in *. rewrite join_cons by done. cbn [app].
  unfold sub at 1. rewrite (sub_scan_line m repl _ Hm l Hl) by lia.
  rewrite IH. reflexivity.
Qed.

Lemma span_length p s : length (span p s).1 ≤ length s.
Proof. rewrite <- (span_app p s) at 2. rewrite length_app. lia. Qed.

Lemma span_app_nl p l rest :
  p NL = false →
  span p (l ++ NL :: rest) = ((span p l).1, (span p l).2 ++ NL :: rest).
Proof.
  intros Hp. induction l as [|c l IH]; simpl.
  - by rewrite Hp.
  - destruct (p c); [|done]. rewrite IH. by destruct (span p l).
Qed.

Lemma run_at_least_local lo p : p NL = false → line_local (run_at_least lo p).
Proof.
  intros Hp. split.
  - intros bol l rest _. unfold run_at_least.
    rewrite span_app_nl by done. by destruct (span p l).
  - intros bol s n a. unfold run_at_least.
    pose proof (span_length p s). destruct (span p s) as [x y].
    destruct (lo <=? length x)%nat; [|done]. by intros [= <- _].
Qed.

(** *** Cutting runs down *)

Section Cap.

Variable c0 : ascii.
Variable limit : nat.

Lemma cap_stops k s : stops (chr_eqb c0) s → cap c0 limit k s = cap c0 limit 0 s.
Proof. destruct s as [|c s]; [done|]. simpl. by intros ->. Qed.

Lemma cap_run j : ∀ k rest,
  cap c0 limit k (rep c0 j ++ rest)
  = rep c0 (j `min` (limit - k)) ++ cap c0 limit (k + j) rest.
Proof.
  induction j as [|j IH]; intros k rest.
  - simpl. by rewrite Nat.add_0_r.
  - cbn [rep replicate app cap]. rewrite chr_eqb_refl.
    fold (rep c0 j). rewrite IH.
    replace (S k + j) with (k + S j) by lia.
    destruct (Nat.ltb_spec k limit).
    + replace (S j `min` (limit - k)) with (S (j `min` (limit - S k))) by lia.
      done.
    + replace (j `min` (limit - S k)) with 0 by lia.
      by replace (S j `min` (limit - k)) with 0 by lia.
Qed.

Lemma run_is_rep a : Forall (λ c, chr_eqb c0 c = true) a → a = rep c0 (length a).
Proof.
  induction 1 as [|c a Hc _ IH]; [done|].
  apply chr_eqb_true in Hc as <-. cbn [length rep replicate]. by f_equal.
Qed.

(** [re.sub] with a run of more than [limit] characters [c0] as pattern
    and [limit] of them as replacement cuts the runs down to [limit]. *)
Lemma sub_cap_bounded n : ∀ s bol,
  length s ≤ n →
  sub_scan (run_at_least (S limit) (chr_eqb c0)) (rep c0 limit) bol 0 s
  = cap c0 limit 0 s.
Proof.
  induction n as [|n IH]; intros s bol Hlen.
  { destruct s; [done|simpl in Hlen; lia]. }
  destruct s as [|c t]; [done|]. cbn [length] in Hlen.
  cbn [sub_scan]. unfold run_at_least at 1.
  pose proof (span_app (chr_eqb c0) (c :: t)) as Happ.
  pose proof (span_all (chr_eqb c0) (c :: t)) as Hall.
  pose proof (span_stops (chr_eqb c0) (c :: t)) as Hst.
  destruct (span (chr_eqb c0) (c :: t)) as [a rest]. cbn [fst snd] in *.
  apply run_is_rep in Hall.
  remember (length a) as j eqn:Ej. clear Ej. subst a.
  destruct (Nat.leb_spec (S limit) j) as [Hlong|Hshort].
  - destruct j as [|j]; [lia|].
    cbn [rep replicate app] in Happ. injection Happ as <- <-.
    pose proof (sub_scan_skip (run_at_least (S limit) (chr_eqb c0))
                  (rep c0 limit) (rep c0 j) (chr_eqb c0 NL) rest) as Hskip.
    unfold rep in Hskip at 2 3. rewrite length_replicate in Hskip.
    rewrite Hskip.
    rewrite IH by (rewrite length_app in Hlen; lia).
    change (c0 :: replicate j c0 ++ rest) with (rep c0 (S j) ++ rest).
    rewrite cap_run.
    replace (S j `min` (limit - 0)) with limit by lia.
    by rewrite (cap_stops (0 + S j) rest).
  - rewrite IH by lia. cbn [cap].
    destruct (chr_eqb c0 c) eqn:Ec; [|done].
    destruct j as [|j].
    { simpl in Happ. subst rest. simpl in Hst. congruence. }
    cbn [rep replicate app] in Happ. injection Happ as _ <-.
    destruct (Nat.ltb_spec 0 limit); [|lia]. f_equal.
    fold (rep c0 j). rewrite !cap_run.
    rewrite (cap_stops (1 + j) rest), (cap_stops (0 + j) rest) by done.
    f_equal. f_equal. lia.
Qed.

Lemma sub_cap s :
  sub (run_at_least (S limit) (chr_eqb c0)) (rep c0 limit) s
  = cap c0 limit 0 s.
Proof. by apply (sub_cap_bounded (length s)). Qed.

Lemma capped_cap s : ∀ k, capped c0 limit k (cap c0 limit k s).
Proof.
  induction s as [|c s IH]; intros k; [done|]. cbn [cap].
  destruct (chr_eqb c0 c) eqn:Ec.
  - destruct (Nat.ltb_spec k limit).
    + cbn [capped]. rewrite Ec. by split.
    + specialize (IH (S k)). revert IH.
      generalize (cap c0 limit (S k) s). intros [|x u]; [done|].
      cbn [capped]. destruct (chr_eqb c0 x); [lia|done].
  - cbn [capped]. by rewrite Ec.
Qed.

Lemma capped_mono s k k' : k' ≤ k → capped c0 limit k s → capped c0 limit k' s.
Proof.
  destruct s as [|c s]; [done|]. cbn [capped].
  destruct (chr_eqb c0 c); [|done]. intros Hk [Hlt Hc]. split; [lia|].
  revert Hc. generalize (S k), (S k'), (le_n_S _ _ Hk). clear.
  induction s as [|c s IH]; intros k k' Hk; [done|]. cbn [capped].
  destruct (chr_eqb c0 c); [|done]. intros [Hlt Hc]. split; [lia|].
  apply (IH (S k) (S k')); [lia|done].
Qed.

Lemma cap_id s : ∀ k, capped c0 limit k s → cap c0 limit k s = s.
Proof.
  induction s as [|c s IH]; intros k; [done|]. cbn [cap capped].
  destruct (chr_eqb c0 c).
  - intros [Hlt Hc]. destruct (Nat.ltb_spec k limit); [|lia].
    by rewrite IH.
  - intros Hc. by rewrite IH.
Qed.

Lemma capped_app_l p q : ∀ k, capped c0 limit k (p ++ q) → capped c0 limit k p.
Proof.
  induction p as [|c p IH]; intros k; [done|]. cbn [app capped].
  destruct (chr_eqb c0 c); [|apply IH]. intros [? ?]. split; [done|]. by apply IH.
Qed.

Lemma capped_app_r p q : ∀ k, capped c0 limit k (p ++ q) → capped c0 limit 0 q.
Proof.
  induction p as [|c p IH]; intros k.
  - apply capped_mono. lia.
  - cbn [app capped]. destruct (chr_eqb c0 c); [|apply IH].
    intros [_ H]. by apply IH in H.
Qed.

Lemma capped_free l t k :
  c0 ∉ l →
  capped c0 limit k (l ++ t)
  ↔ capped c0 limit (if nonempty l then 0 else k) t.
Proof.
  destruct l as [|c l]; [done|]. intros [Hc Hl]%not_elem_of_cons.
  cbn [app capped nonempty]. rewrite chr_eqb_ne by done.
  induction l as [|x l IH]; [done|].
  apply not_elem_of_cons in Hl as [Hx Hl].
  cbn [app capped]. rewrite chr_eqb_ne by done. by apply IH.
Qed.

Lemma cap_keeps x s : x ≠ c0 → ∀ k, x ∈ s → x ∈ cap c0 limit k s.
Proof.
  intros Hx. induction s as [|c s IH]; intros k; [done|].
  cbn [cap]. intros [->|Hin]%elem_of_cons.
  - rewrite chr_eqb_ne by done. by left.
  - destruct (chr_eqb c0 c); [destruct (k <? limit)%nat|];
      [right|..|right]; by apply IH.
Qed.

Lemma cap_elem x s : ∀ k, x ∈ cap c0 limit k s → x ∈ s.
Proof.
  induction s as [|c s IH]; intros k; [done|]. cbn [cap].
  destruct (chr_eqb c0 c); [destruct (k <? limit)%nat|].
  - intros [->|H]%elem_of_cons; [by left|right; by eapply IH].
  - intros H. right. by eapply IH.
  - intros [->|H]%elem_of_cons; [by left|right; by eapply IH].
Qed.

End Cap.

End ReFacts.

Module CleanFacts.
Import PyStr Re MarkdownFormatter PyStrFacts ReFacts.

(** *** The substitutions within lines *)

Lemma leading_local : line_local leading_blanks_re.
Proof.
  destruct (run_at_least_local 1 is_sp_tab eq_refl) as [Hloc Hbound].
  split.
  - intros [] l rest Hl; [|done]. by apply Hloc.
  - intros [] s n a; [|done]. apply Hbound.
Qed.

Lemma span_forallb p s : forallb p s = negb (nonempty (span p s).2).
Proof.
  induction s as [|c s IH]; [done|]. simpl.
  destruct (p c); [|done]. rewrite IH. by destruct (span p s).
Qed.

Lemma trailing_match bol s :
  NL ∉ s →
  trailing_blanks_re bol s
  = if nonempty s && forallb is_sp_tab s then Some (length s, ()) else None.
Proof.
  intros Hnl. unfold trailing_blanks_re. rewrite span_forallb.
  pose proof (span_app is_sp_tab s) as Happ.
  destruct (span is_sp_tab s) as [a r]. cbn [fst snd] in *.
  destruct r as [|x r].
  - rewrite app_nil_r in Happ. subst a. cbn [nonempty negb orb].
    by rewrite !andb_true_r.
  - assert (x ≠ NL) as Hx.
    { intros ->. apply Hnl. rewrite <- Happ. set_solver. }
    cbn [nonempty negb orb startswith].
    rewrite (chr_eqb_ne NL x) by done. cbn [andb].
    by rewrite !andb_false_r.
Qed.

Lemma trailing_local : line_local trailing_blanks_re.
Proof.
  split.
  - intros bol l rest Hl. unfold trailing_blanks_re.
    rewrite span_app_nl by done.
    pose proof (span_app is_sp_tab l) as Happ.
    destruct (span is_sp_tab l) as [a r]. cbn [fst snd] in *.
    destruct r as [|x r]; cbn [app nonempty negb orb startswith].
    + by rewrite chr_eqb_refl.
    + done.
  - intros bol s n a. unfold trailing_blanks_re.
    pose proof (span_length is_sp_tab s). destruct (span is_sp_tab s) as [x y].
    destruct (_ && _); [|done]. by intros [= <- _].
Qed.

Lemma spaces_local : line_local (run_at_least 2 (eqc " ")).
Proof. by apply run_at_least_local. Qed.

Lemma clean_line_no_nl l : NL ∉ l → NL ∉ clean_line l.
Proof.
  intros Hl. unfold clean_line.
  apply sub_no_nl; [by intros ?%elem_of_nil|].
  apply sub_no_nl; [by intros ?%elem_of_nil|].
  apply sub_no_nl; [|done].
  by intros [?|?%elem_of_nil]%elem_of_cons.
Qed.

(** The substitutions within lines, on a text. *)
Lemma clean_lines_join ls :
  Forall (λ l, NL ∉ l) ls →
  sub trailing_blanks_re []
      (sub leading_blanks_re []
           (sub (run_at_least 2 (eqc " ")) (s2l " ") (join_lines ls)))
  = join_lines (clean_line <$> ls).
Proof.
  intros Hls.
  rewrite (sub_join_lines _ _ ls spaces_local Hls).
  rewrite sub_join_lines; [|apply leading_local|].
  2: { apply Forall_fmap. eapply Forall_impl; [exact Hls|].
       intros l Hl. apply sub_no_nl; [|done].
       by intros [?|?%elem_of_nil]%elem_of_cons. }
  rewrite sub_join_lines; [|apply trailing_local|].
  2: { do 2 apply Forall_fmap. eapply Forall_impl; [exact Hls|].
       intros l Hl. cbn [compose].
       apply sub_no_nl; [by intros ?%elem_of_nil|].
       apply sub_no_nl; [|done].
       by intros [?|?%elem_of_nil]%elem_of_cons. }
  by rewrite <- !list_fmap_compose.
Qed.

Lemma clean_markdown_lines x :
  clean_markdown x
  = join_lines (separate_headings false
                  (clean_line <$> split_lines (cap NL 2 0 x))).
Proof.
  unfold clean_markdown. cbv zeta.
  change (sub (run_at_least 3 (eqc NL)) [NL; NL] x)
    with (sub (run_at_least (S 2) (chr_eqb NL)) (rep NL 2) x).
  rewrite (sub_cap NL 2).
  rewrite <- (join_split_lines (cap NL 2 0 x)) at 1.
  rewrite clean_lines_join by apply split_lines_parts.
  rewrite split_join_lines; [done| |].
  - pose proof (split_lines_nonempty (cap NL 2 0 x)).
    by destruct (split_lines (cap NL 2 0 x)).
  - apply Forall_fmap. eapply Forall_impl; [apply split_lines_parts|].
    intros l. apply clean_line_no_nl.
Qed.

(** *** One line *)

Lemma sub_scan_skip_all {A} (m : Matcher A) repl a bol :
  sub_scan m repl bol (length a) a = [].
Proof.
  pose proof (sub_scan_skip m repl a bol []) as H.
  by rewrite app_nil_r in H.
Qed.

Lemma trail_line l : NL ∉ l → ∀ bol,
  sub_scan trailing_blanks_re [] bol 0 l = rtrim l.
Proof.
  induction l as [|c l IH]; intros Hnl bol; [done|].
  cbn [sub_scan rtrim]. rewrite trailing_match by done. cbn [nonempty andb].
  destruct (forallb is_sp_tab (c :: l)).
  - cbn [length app]. apply sub_scan_skip_all.
  - apply not_elem_of_cons in Hnl as [_ Hl]. by rewrite IH.
Qed.

Lemma lead_nobol repl s :
  NL ∉ s → sub_scan leading_blanks_re repl false 0 s = s.
Proof.
  induction s as [|c s IH]; [done|]. intros [Hc Hs]%not_elem_of_cons.
  cbn [sub_scan leading_blanks_re]. rewrite (chr_eqb_ne c NL) by done.
  by rewrite IH.
Qed.

Lemma bol_after_no_nl a : NL ∉ a → bol_after false a = false.
Proof.
  intros Ha. unfold bol_after. destruct (last a) as [x|] eqn:E; [|done].
  apply last_Some_elem_of in E. cbn. apply chr_eqb_ne. by intros ->.
Qed.

Lemma lead_line l :
  NL ∉ l → sub leading_blanks_re [] l = (span is_sp_tab l).2.
Proof.
  intros Hnl. unfold sub. destruct l as [|c l]; [done|].
  cbn [sub_scan]. unfold leading_blanks_re at 1, run_at_least.
  pose proof (span_app is_sp_tab (c :: l)) as Happ.
  destruct (span is_sp_tab (c :: l)) as [a r]. cbn [fst snd] in *.
  apply not_elem_of_cons in Hnl as [Hc Hl].
  destruct a as [|c' a].
  - cbn [length Nat.leb]. cbn [app] in Happ. subst r.
    rewrite (chr_eqb_ne c NL) by done. by rewrite lead_nobol.
  - injection Happ as -> Ha. cbn [length Nat.leb app]. subst l.
    rewrite sub_scan_skip, (chr_eqb_ne c NL) by done.
    rewrite bol_after_no_nl by set_solver.
    apply lead_nobol. set_solver.
Qed.

Lemma clean_line_spec l :
  NL ∉ l → clean_line l = rtrim (span is_sp_tab (cap " " 1 0 l)).2.
Proof.
  intros Hl. unfold clean_line.
  change (sub (run_at_least 2 (eqc " ")) (s2l " ") l)
    with (sub (run_at_least (S 1) (chr_eqb " ")) (rep " " 1) l).
  rewrite (sub_cap " " 1).
  assert (Hcap : NL ∉ cap " " 1 0 l) by (by intros ?%cap_elem).
  rewrite lead_line by done. unfold sub. apply trail_line.
  intros H. apply Hcap. apply (span_sub is_sp_tab). by right.
Qed.

Lemma rtrim_prefix s : ∃ q, s = rtrim s ++ q.
Proof.
  induction s as [|c s [q Hq]]; [by exists []|]. cbn [rtrim].
  destruct (forallb is_sp_tab (c :: s)); [by eexists|].
  exists q. cbn [app]. by rewrite <- Hq.
Qed.

Lemma rtrim_not_blank s :
  forallb is_sp_tab s = false → forallb is_sp_tab (rtrim s) = false.
Proof.
  induction s as [|c s IH]; [done|]. intros E. cbn [rtrim]. rewrite E.
  cbn [forallb] in *. apply andb_false_iff in E as [E|E]; [by rewrite E|].
  rewrite IH by done. apply andb_false_r.
Qed.

Lemma rtrim_idem s : rtrim (rtrim s) = rtrim s.
Proof.
  induction s as [|c s IH]; [done|]. cbn [rtrim].
  destruct (forallb is_sp_tab (c :: s)) eqn:E; [done|]. cbn [rtrim].
  assert (forallb is_sp_tab (c :: rtrim s) = false) as ->.
  { cbn [forallb] in *. apply andb_false_iff in E as [E|E]; [by rewrite E|].
    rewrite (rtrim_not_blank _ E). apply andb_false_r. }
  by rewrite IH.
Qed.

Lemma rtrim_keeps x s : is_sp_tab x = false → x ∈ s → x ∈ rtrim s.
Proof.
  intros Hx. induction s as [|c s IH]; [done|]. intros Hin. cbn [rtrim].
  destruct (forallb is_sp_tab (c :: s)) eqn:E.
  - exfalso. rewrite forallb_forall in E.
    apply list_elem_of_In, E in Hin. congruence.
  - apply elem_of_cons in Hin as [->|Hin]; [by left|right; by apply IH].
Qed.

Lemma rtrim_stops s : stops is_sp_tab s → stops is_sp_tab (rtrim s).
Proof.
  destruct s as [|x s]; [done|]. cbn [stops rtrim forallb].
  intros H. rewrite H. cbn [andb]. exact H.
Qed.

Lemma clean_line_idem l : NL ∉ l → clean_line (clean_line l) = clean_line l.
Proof.
  intros Hl. rewrite (clean_line_spec (clean_line l)) by (by apply clean_line_no_nl).
  rewrite (clean_line_spec l) by done.
  set (a := cap " " 1 0 l).
  pose proof (capped_cap " " 1 l 0) as Ha. fold a in Ha.
  pose proof (span_app is_sp_tab a) as Happ.
  pose proof (span_stops is_sp_tab a) as Hst.
  set (b := (span is_sp_tab a).2) in *.
  destruct (rtrim_prefix b) as [q Hq].
  assert (Hc : capped " " 1 0 (rtrim b)).
  { rewrite <- Happ in Ha. apply capped_app_r in Ha.
    rewrite Hq in Ha. by apply capped_app_l in Ha. }
  rewrite (cap_id " " 1 _ 0 Hc).
  rewrite span_none by (by apply rtrim_stops).
  apply rtrim_idem.
Qed.

(** *** Between lines *)

Lemma sep_nil p M : separate_headings p M = [] ↔ M = [].
Proof.
  destruct M as [|l M]; [done|]. cbn [separate_headings].
  split; [|done]. by destruct (_ && _).
Qed.

Lemma sep_elem l : ∀ M p, l ∈ separate_headings p M → l = [] ∨ l ∈ M.
Proof.
  induction M as [|x M IH]; intros p; cbn [separate_headings].
  - by intros ?%elem_of_nil.
  - intros [H|H]%elem_of_app.
    + destruct (_ && _); [|by apply elem_of_nil in H].
      apply list_elem_of_singleton in H. by left.
    + apply elem_of_cons in H as [->|H]; [right; by left|].
      apply IH in H as [?|?]; [by left|right; by right].
Qed.

Lemma sep_idem M : ∀ p,
  separate_headings p (separate_headings p M) = separate_headings p M.
Proof.
  remember (startswith (s2l "#")) as hd eqn:Ehd.
  assert (Hnil : hd [] = false) by (by subst).
  induction M as [|line rest IH]; intros p; [done|].
  cbn [separate_headings]. rewrite <- Ehd.
  destruct (hd line) eqn:Eh; destruct p; cbn [andb app];
    cbn [separate_headings]; rewrite <- ?Ehd, ?Hnil, ?Eh; cbn [andb app];
    cbn [separate_headings]; rewrite <- ?Ehd, ?Eh; cbn [andb app];
    by rewrite IH.
Qed.

Lemma gaps_cons k l X :
  X ≠ [] →
  gaps k (l :: X)
  ↔ (if nonempty l then 0 else k) < 2
    ∧ gaps (S (if nonempty l then 0 else k)) X.
Proof. by destruct X. Qed.

Lemma gaps_head k k' l X : nonempty l = true → gaps k (l :: X) → gaps k' (l :: X).
Proof.
  intros Hl. destruct X as [|x X]; [done|].
  rewrite (gaps_cons k), (gaps_cons k') by done. by rewrite Hl.
Qed.

Lemma gaps_capped ls :
  Forall (λ l, NL ∉ l) ls → ∀ k, ls ≠ [] →
  gaps k ls ↔ capped NL 2 k (join_lines ls).
Proof.
  induction 1 as [|l ls Hl Hls IH]; intros k Hne; [done|]. clear Hne.
  destruct ls as [|l' ls].
  - cbn [join_lines join]. split; [intros _|done].
    rewrite <- (app_nil_r l). by apply (capped_free NL 2 l [] k Hl).
  - rewrite gaps_cons by done. unfold join_lines in *.
    rewrite join_cons by done. cbn [app].
    rewrite (capped_free NL 2 l _ k Hl). cbn [capped].
    rewrite chr_eqb_refl. by rewrite <- IH.
Qed.

Lemma gaps_fmap (f : str → str) ls :
  Forall (λ l, nonempty (f l) = nonempty l) ls →
  ∀ k, gaps k ls → gaps k (f <$> ls).
Proof.
  induction 1 as [|l ls Hl Hls IH]; intros k; [done|].
  destruct ls as [|l' ls]; [done|].
  change (f <$> l :: l' :: ls) with (f l :: (f <$> l' :: ls)).
  rewrite (gaps_cons k l), (gaps_cons k (f l)) by done. rewrite Hl.
  intros [? ?].
  split; [done|]. by apply IH.
Qed.

Lemma gaps_sep M : ∀ k p,
  (p = true → k < 2) → gaps k M → gaps k (separate_headings p M).
Proof.
  remember (startswith (s2l "#")) as hd eqn:Ehd.
  assert (Hhd : ∀ l, hd l = true → nonempty l = true)
    by (subst; by intros [|??]).
  induction M as [|line rest IH]; intros k p Hp Hg; [done|].
  cbn [separate_headings]. rewrite <- Ehd.
  assert (Hrest : gaps k (line :: separate_headings (hd line) rest)).
  { destruct rest as [|l' rest']; [done|].
    rewrite gaps_cons in Hg by done. destruct Hg as [Hk Hg].
    rewrite gaps_cons by (by rewrite sep_nil). split; [done|].
    apply IH; [|done]. intros Hh. apply Hhd in Hh. rewrite Hh. lia. }
  destruct (hd line && p) eqn:E; cbn [app]; [|done].
  apply andb_true_iff in E as [Hh ->].
  rewrite gaps_cons by done. cbn [nonempty]. split; [by apply Hp|].
  eapply gaps_head; [by apply Hhd|exact Hrest].
Qed.

(** Cutting the runs of line feeds down to two removes empty lines only. *)
Lemma cap_lines s : ∀ k,
  split_lines (cap NL 2 k s) `sublist_of` split_lines s ∧
  (k < 2 → head (split_lines (cap NL 2 k s)) = head (split_lines s)).
Proof.
  unfold split_lines.
  induction s as [|c s IH]; intros k; [by split|]. cbn [cap].
  destruct (chr_eqb NL c) eqn:Ec.
  - apply chr_eqb_true in Ec as <-. destruct (IH (S k)) as [IH1 _].
    destruct (Nat.ltb_spec k 2); cbn [split_on]; rewrite chr_eqb_refl.
    + split; [by apply sublist_skip|done].
    + split; [by apply sublist_cons|lia].
  - apply chr_eqb_false in Ec. cbn [split_on].
    rewrite (chr_eqb_ne c NL) by done.
    destruct (IH 0) as [IH1 IH2]. specialize (IH2 ltac:(lia)).
    pose proof (split_on_nonempty NL (cap NL 2 0 s)).
    pose proof (split_on_nonempty NL s).
    destruct (split_on NL (cap NL 2 0 s)) as [|hq tq]; [done|].
    destruct (split_on NL s) as [|hr tr]; [done|].
    injection IH2 as ->. split; [|done].
    apply sublist_skip. by apply (sublist_app_inv_l [hr]).
Qed.

(** *** The whole text *)

Lemma capped_three_line_feeds s : ∀ k,
  k ≤ 2 →
  capped NL 2 k s ↔ ¬ three_line_feeds (rep NL k ++ s).
Proof.
  assert (Hrep : ∀ k t, rep NL k ++ NL :: t = rep NL (S k) ++ t).
  { intros k t. unfold rep. induction k as [|k IH]; [done|].
    cbn [replicate app]. by rewrite IH. }
  assert (Hskip : ∀ k c t, k ≤ 2 → c ≠ NL →
            three_line_feeds (rep NL k ++ c :: t) ↔ three_line_feeds t).
  { intros k c t Hk Hc. split.
    - intros (a & b & E).
      destruct k as [|[|[|k]]]; [| | |lia]; unfold rep in E;
        cbn [replicate app] in E.
      + destruct a as [|a0 a]; cbn [app] in E; [by injection E|].
        injection E as _ E. by exists a, b.
      + destruct a as [|a0 [|a1 a]]; cbn [app] in E;
          [by injection E|by injection E|].
        injection E as _ _ E. by exists a, b.
      + destruct a as [|a0 [|a1 [|a2 a]]]; cbn [app] in E;
          [by injection E..|].
        injection E as _ _ _ E. by exists a, b.
    - intros (a & b & ->). exists (rep NL k ++ c :: a), b.
      by rewrite <- (assoc app), <- app_comm_cons. }
  induction s as [|c s IH]; intros k Hk.
  - cbn [capped]. split; [|done]. intros _ (a & b & E).
    apply (f_equal length) in E. revert E.
    rewrite app_nil_r, !length_app. unfold rep. rewrite length_replicate.
    cbn [length]. lia.
  - cbn [capped]. destruct (chr_eqb NL c) eqn:Ec.
    + apply chr_eqb_true in Ec as <-. rewrite Hrep.
      destruct (decide (k = 2)) as [->|Hk2].
      * split; [lia|]. intros H. exfalso. apply H. by exists [], s.
      * rewrite <- IH by lia. split; [by intros [_ ?]|]. intros ?. split; [lia|done].
    + apply chr_eqb_false in Ec. rewrite Hskip by done.
      apply (IH 0). lia.
Qed.

Lemma no_three_line_feeds s : capped NL 2 0 s ↔ ¬ three_line_feeds s.
Proof. apply (capped_three_line_feeds s 0). lia. Qed.

(** After a second cleaning no text has three line feeds in a row, and a
    cleaned text stays as it is exactly when it has none. *)
Lemma clean_markdown_twice x :
  capped NL 2 0 (clean_markdown (clean_markdown x)) ∧
  (capped NL 2 0 (clean_markdown x) →
   clean_markdown (clean_markdown x) = clean_markdown x).
Proof.
  set (Lx := split_lines (cap NL 2 0 x)).
  set (M := clean_line <$> Lx).
  set (S := separate_headings false M).
  assert (HLx : Forall (λ l, NL ∉ l) Lx) by apply split_lines_parts.
  assert (HLxne : Lx ≠ []) by apply split_lines_nonempty.
  assert (HM : Forall (λ l, NL ∉ l) M).
  { apply Forall_fmap. eapply Forall_impl; [exact HLx|].
    intros l. apply clean_line_no_nl. }
  assert (HS : Forall (λ l, NL ∉ l) S).
  { apply Forall_forall. intros l [->|Hl]%sep_elem; [by intros ?%elem_of_nil|].
    by apply (proj1 (Forall_forall _ _) HM). }
  assert (HSne : S ≠ []).
  { unfold S. rewrite sep_nil. unfold M. by destruct Lx. }
  assert (Hy : clean_markdown x = join_lines S) by apply clean_markdown_lines.
  assert (Hclean : ∀ l, l ∈ S → clean_line l = l).
  { intros l [->|Hl]%sep_elem; [done|].
    apply list_elem_of_fmap in Hl as (l0 & -> & Hl0).
    apply clean_line_idem. by apply (proj1 (Forall_forall _ _) HLx). }
  split.
  - (* the lines of the second pass are lines of the first, already clean *)
    set (L2 := split_lines (cap NL 2 0 (join_lines S))).
    assert (HL2 : Forall (λ l, NL ∉ l) L2) by apply split_lines_parts.
    assert (HL2ne : L2 ≠ []) by apply split_lines_nonempty.
    assert (Hsub : L2 ⊆ S).
    { intros l Hl. pose proof (proj1 (cap_lines (join_lines S) 0)) as Hs.
      rewrite split_join_lines in Hs by done.
      by apply (sublist_subseteq _ _ Hs). }
    assert (Hid : clean_line <$> L2 = L2).
    { rewrite <- (list_fmap_id L2) at 2. apply Forall_fmap_ext_1.
      apply Forall_forall. intros l Hl. apply Hclean. by apply Hsub. }
    assert (G1 : gaps 0 L2).
    { apply gaps_capped; [done|done|]. unfold L2. rewrite join_split_lines.
      apply capped_cap. }
    rewrite Hy, clean_markdown_lines. fold L2. rewrite Hid.
    apply gaps_capped.
    + apply Forall_forall. intros l [->|Hl]%sep_elem; [by intros ?%elem_of_nil|].
      by apply (proj1 (Forall_forall _ _) HL2).
    + rewrite sep_nil. done.
    + by apply gaps_sep.
  - rewrite Hy. intros C.
    rewrite clean_markdown_lines, (cap_id NL 2 _ 0 C).
    rewrite split_join_lines by done. f_equal.
    assert (clean_line <$> S = S) as ->; [|apply sep_idem].
    rewrite <- (list_fmap_id S) at 2. apply Forall_fmap_ext_1.
    apply Forall_forall. intros l Hl. by apply Hclean.
Qed.

(** C4 fails in the code for [clean_markdown]. [format_lists] is
    idempotent on every text. [clean_markdown] is not: cleaning [a], two
    lines of one space and [b] leaves three line feeds in a row, the very
    thing its first substitution removes, and a second cleaning cuts them
    down to two. A cleaned text is a fixed point exactly when it has no
    three line feeds in a row, and a text cleaned twice never has them. *)
Theorem C4_clean_markdown_needs_a_second_pass :
  (∀ x, format_lists (format_lists x) = format_lists x) ∧
  (clean_markdown blank_lines_with_spaces
     = s2l "a" ++ [NL; NL; NL] ++ s2l "b" ∧
   clean_markdown (clean_markdown blank_lines_with_spaces)
     = s2l "a" ++ [NL; NL] ++ s2l "b") ∧
  (∀ x, clean_markdown (clean_markdown x) = clean_markdown x
        ↔ ¬ three_line_feeds (clean_markdown x)) ∧
  (∀ x, ¬ three_line_feeds (clean_markdown (clean_markdown x))).
Proof.
  split; [apply FormatterFacts.format_lists_idempotent|].
  split; [by vm_compute|].
  split.
  - intros x. rewrite <- no_three_line_feeds.
    destruct (clean_markdown_twice x) as [H2 H1]. split; [|done].
    intros E. by rewrite <- E.
  - intros x. rewrite <- no_three_line_feeds.
    apply clean_markdown_twice.
Qed.

End CleanFacts.

(** * Further properties of the code *)

(** ** Texts and numbers *)

Module TextFacts.
Import PyStr PyStrFacts.

Lemma split_lines_app_nl a b :
  split_lines (a ++ NL :: b) = split_lines a ++ split_lines b.
Proof.
  unfold split_lines. induction a as [|c a IH]; cbn [app split_on].
  - by rewrite chr_eqb_refl.
  - rewrite IH. destruct (chr_eqb c NL); [done|].
    pose proof (split_on_nonempty NL a).
    by destruct (split_on NL a).
Qed.

Lemma elem_of_join x sep parts :
  x ∈ join sep parts → x ∈ sep ∨ ∃ part, part ∈ parts ∧ x ∈ part.
Proof.
  induction parts as [|p parts IH]; [by intros ?%elem_of_nil|].
  destruct parts as [|q parts].
  - intros H. right. exists p. split; [by left|done].
  - rewrite join_cons by done. rewrite !elem_of_app.
    intros [H|[H|H]].
    + right. exists p. split; [by left|done].
    + by left.
    + apply IH in H as [H|(part & Hp & Hx)]; [by left|].
      right. exists part. split; [by right|done].
Qed.

Lemma count_elem (f : str → bool) (line : str) lines :
  line ∈ lines → f line = true → 1 ≤ length (List.filter f lines).
Proof.
  intros Hin Hf. induction lines as [|l lines IH]; [by apply elem_of_nil in Hin|].
  cbn [List.filter]. apply elem_of_cons in Hin as [<-|Hin].
  - rewrite Hf. cbn [length]. lia.
  - destruct (f l); cbn [length]; [lia|by apply IH].
Qed.

Lemma span_prefix p a b :
  Forall (λ c, p c = true) a →
  span p (a ++ b) = (a ++ (span p b).1, (span p b).2).
Proof.
  induction 1 as [|c a Hc _ IH]; cbn [app span].
  - by destruct (span p b).
  - by rewrite Hc, IH.
Qed.

Lemma s2l_app a b : s2l (a +:+ b) = s2l a ++ s2l b.
Proof.
  unfold s2l. induction a as [|c a IH]; [done|].
  simpl. by rewrite IH.
Qed.

(** Two texts that agree up to and including their first [c] each. *)
Lemma first_separator (c : ascii) a a' b b' :
  c ∉ a → c ∉ a' → a ++ c :: b = a' ++ c :: b' → a = a' ∧ b = b'.
Proof.
  revert a'. induction a as [|x a IH]; intros a' Ha Ha'.
  - destruct a' as [|x' a']; cbn [app].
    + by intros [= ->].
    + intros [= -> _]. exfalso. apply Ha'. by left.
  - destruct a' as [|x' a']; cbn [app].
    + intros [= -> _]. exfalso. apply Ha. by left.
    + intros [= -> H]. apply not_elem_of_cons in Ha as [_ Ha].
      apply not_elem_of_cons in Ha' as [_ Ha'].
      destruct (IH a' Ha Ha' H) as [-> ->]. done.
Qed.

Lemma s2l_inj a b : s2l a = s2l b → a = b.
Proof.
  intros H. apply (f_equal string_of_list_ascii) in H.
  unfold s2l in H. by rewrite !string_of_list_ascii_of_string in H.
Qed.

End TextFacts.

Module PrettyFacts.
Import PyStr.

Lemma pretty_N_char_digit x : isdigit (pretty_N_char x) = true.
Proof. unfold pretty_N_char. by repeat case_match. Qed.

Lemma pretty_N_go_digits x : ∀ s,
  Forall (λ c, isdigit c = true) (s2l s) →
  Forall (λ c, isdigit c = true) (s2l (pretty_N_go x s)).
Proof.
  induction (N.lt_wf_0 x) as [x _ IH]; intros s Hs.
  destruct (decide (x = 0)%N) as [->|Hx]; [by rewrite pretty_N_go_0|].
  rewrite pretty_N_go_step by lia. apply IH.
  - apply N.div_lt; lia.
  - constructor; [apply pretty_N_char_digit|done].
Qed.

(** The decimal digits of a number are digits. *)
Lemma pretty_digits (n : nat) : Forall (λ c, isdigit c = true) (s2l (pretty n)).
Proof.
  unfold pretty, pretty_nat, pretty, pretty_N.
  case_decide; [by repeat constructor|].
  apply pretty_N_go_digits. constructor.
Qed.

End PrettyFacts.

(** ** The status tracker *)

Module StatusTrackerFacts.
Import Hub StatusTracker HubFacts.

Lemma step_status t o d :
  conversion_status (step t o).1 !! d =
  last_published [o] d (conversion_status t !! d).
Proof.
  destruct o as [ws c|c|c d'|c d'|f d' st p msg now md]; simpl; try done.
  unfold update_status.
  destruct (broadcast_to_document_subscribers f (connection_manager t) d')
    as [m' sent]; simpl.
  case_decide as Hd.
  - subst d'. by rewrite lookup_insert_eq.
  - by rewrite lookup_insert_ne.
Qed.

Lemma last_published_app ops1 : ∀ ops2 d before,
  last_published (ops1 ++ ops2) d before =
  last_published ops2 d (last_published ops1 d before).
Proof.
  induction ops1 as [|o ops1 IH]; intros ops2 d before; simpl; [done|].
  destruct o; simpl; by rewrite ?IH.
Qed.

Lemma run_status ops : ∀ t d,
  conversion_status (run t ops).1 !! d =
  last_published ops d (conversion_status t !! d).
Proof.
  induction ops as [|o ops IH]; intros t d; [done|].
  change (o :: ops) with ([o] ++ ops) at 2.
  rewrite last_published_app, <- step_status, <- IH.
  cbn [run]. destruct (step t o) as [t1 log1]; simpl.
  by destruct (run t1 ops) as [t2 log2].
Qed.

(** X1. Whatever the clients do in between, [get_status] answers with the
    event of the last status update published for the document, and with
    the [unknown] dictionary when none was ever published: connections,
    subscriptions and failing sockets never change a stored status. *)
Theorem get_status_is_last_published t ops d now :
  get_status (run t ops).1 d now =
  from_option stored (unknown d now)
              (last_published ops d (conversion_status t !! d)).
Proof.
  unfold get_status. rewrite run_status.
  by destruct (last_published _ _ _).
Qed.

Lemma send_loop_NoDup f m l : NoDup l → NoDup (send_loop f m l).1.
Proof.
  induction 1 as [|x l Hx Hl IH]; simpl; [constructor|].
  pose proof (send_loop_sent f m l x) as Hs.
  destruct (send_loop f m l) as [sent disc]; simpl in *.
  destruct (active_connections m !! x); simpl; [|done].
  constructor; [|done]. rewrite Hs. by intros [? _].
Qed.

Lemma send_loop_disconnected f m l c :
  c ∈ (send_loop f m l).2 ↔
  c ∈ l ∧ is_Some (active_connections m !! c) ∧ f c = true.
Proof.
  induction l as [|x l IH]; simpl.
  - set_solver.
  - destruct (send_loop f m l) as [sent disc] eqn:E; simpl in *.
    destruct (active_connections m !! x) as [ws|] eqn:Ex; simpl.
    + destruct (f x) eqn:Ef.
      * rewrite !elem_of_cons, IH. split.
        -- intros [->|(? & ? & ?)]; [by rewrite Ex; eauto|eauto].
        -- intros [[->|?] [? ?]]; eauto.
      * rewrite elem_of_cons, IH. split.
        -- intros (? & ? & ?); eauto.
        -- intros [[->|?] [? ?]]; [congruence|eauto].
    + rewrite elem_of_cons, IH. split.
      * intros (? & ? & ?); eauto.
      * intros [[->|?] [Hs ?]]; [rewrite Ex in Hs; by destruct Hs|eauto].
Qed.

Lemma active_disconnect m c c' :
  active_connections (disconnect m c) !! c' =
  if decide (c' = c) then None else active_connections m !! c'.
Proof.
  unfold disconnect.
  destruct (active_connections m !! c) as [ws|] eqn:E; simpl.
  - case_decide as H; [subst; by rewrite lookup_delete_eq|by rewrite lookup_delete_ne].
  - case_decide as H; [by subst|done].
Qed.

Lemma active_foldl_disconnect l : ∀ m c',
  active_connections (foldl disconnect m l) !! c' =
  if decide (c' ∈ l) then None else active_connections m !! c'.
Proof.
  induction l as [|c l IH]; intros m c'; cbn [foldl].
  - rewrite decide_False; [done|]. intros H. by apply elem_of_nil in H.
  - rewrite IH, active_disconnect.
    destruct (decide (c' ∈ l)) as [Hl|Hl].
    + rewrite decide_True; [done|by right].
    + destruct (decide (c' = c)) as [->|Hc].
      * rewrite decide_True; [done|by left].
      * rewrite decide_False; [done|].
        intros [?|?]%elem_of_cons; done.
Qed.

Lemma subscribers_disconnect_eq m c d c' :
  c' ∈ subscribers (disconnect m c) d ↔
  c' ∈ subscribers m d ∧ ¬ (c' = c ∧ is_Some (active_connections m !! c)).
Proof.
  unfold disconnect, subscribers.
  destruct (active_connections m !! c) as [ws|] eqn:E; simpl.
  - rewrite lookup_fmap.
    destruct (document_subscribers m !! d); simpl.
    + rewrite elem_of_difference, elem_of_singleton. split.
      * intros [? ?]; split; [done|]. by intros [? _].
      * intros [? Hn]; split; [done|]. intros ->. apply Hn. eauto.
    + set_solver.
  - split; [|by intros [? _]].
    intros ?; split; [done|]. intros [_ [? ?]]; done.
Qed.

Lemma subscribers_foldl_disconnect_eq l : ∀ m d c',
  c' ∈ subscribers (foldl disconnect m l) d ↔
  c' ∈ subscribers m d ∧ ¬ (c' ∈ l ∧ is_Some (active_connections m !! c')).
Proof.
  induction l as [|c l IH]; intros m d c'; cbn [foldl].
  - split; [|by intros [? _]].
    intros Hs; split; [done|]. intros [H0 _]. by apply elem_of_nil in H0.
  - rewrite IH, subscribers_disconnect_eq, active_disconnect, elem_of_cons.
    destruct (decide (c' = c)) as [->|Hc].
    + split.
      * intros [[Hs Hn] _]. split; [done|]. intros [_ Ha]. apply Hn. done.
      * intros [Hs Hn]. split; [split; [done|]|].
        -- intros [_ Ha]. apply Hn. split; [by left|done].
        -- intros [_ [x Hx]]. done.
    + split.
      * intros [[Hs _] Hn]. split; [done|].
        intros [[Heq|Hl] Ha]; [done|]. apply Hn. done.
      * intros [Hs Hn]. split; [split; [done|by intros [Heq _]]|].
        intros [Hl Ha]. apply Hn. split; [by right|done].
Qed.

Lemma broadcast_disconnected f m d c :
  ∃ disconnected_clients,
    (broadcast_to_document_subscribers f m d).1 =
      foldl disconnect m disconnected_clients ∧
    (c ∈ disconnected_clients ↔ failing f m d c).
Proof.
  unfold broadcast_to_document_subscribers, failing, subscribers.
  destruct (document_subscribers m !! d) as [s|] eqn:Es; simpl.
  - pose proof (send_loop_disconnected f m (elements s) c) as Hd.
    destruct (send_loop f m (elements s)) as [sent disc]; simpl in *.
    exists disc. split; [done|]. by rewrite Hd, elem_of_elements.
  - exists []. split; [done|]. split.
    + intros H0. by apply elem_of_nil in H0.
    + intros [H0 _]. by apply elem_of_empty in H0.
Qed.

Lemma update_status_manager f t d st p msg now md :
  ∃ disconnected_clients,
    connection_manager (update_status f t d st p msg now md).1
    = foldl disconnect (connection_manager t) disconnected_clients.
Proof.
  destruct (broadcast_disconnected f (connection_manager t) d "")
    as (disc & Hm & _).
  exists disc. unfold update_status. rewrite <- Hm.
  by destruct (broadcast_to_document_subscribers f (connection_manager t) d).
Qed.

End StatusTrackerFacts.

Module ConnectionFacts.
Import Hub HubFacts StatusTrackerFacts.

Lemma step_keeps_disconnected t o c :
  (∀ ws, o ≠ OpConnect ws c) →
  active_connections (connection_manager t) !! c = None →
  active_connections (connection_manager (step t o).1) !! c = None.
Proof.
  intros Hne Hc. destruct o as [ws c'|c'|c' d'|c' d'|f d' st p msg now md]; simpl.
  - rewrite lookup_insert_ne; [done|]. intros ->. by apply (Hne ws).
  - rewrite active_disconnect. by case_decide.
  - done.
  - unfold unsubscribe_from_document.
    by destruct (document_subscribers (connection_manager t) !! d').
  - destruct (update_status_manager f t d' st p msg now md) as [disc ->].
    rewrite active_foldl_disconnect. by case_decide.
Qed.

Lemma run_no_delivery_disconnected ops : ∀ t c,
  Forall (λ o, ∀ ws, o ≠ OpConnect ws c) ops →
  active_connections (connection_manager t) !! c = None →
  ∀ e, (c, e) ∉ (run t ops).2.
Proof.
  induction ops as [|o ops IH]; intros t c Hall Hc e; simpl.
  - by intros ?%elem_of_nil.
  - apply Forall_cons in Hall as [Ho Hall].
    pose proof (step_keeps_disconnected t o c Ho Hc) as Hc1.
    pose proof (step_deliveries t o c e) as Hd.
    destruct (step t o) as [t1 log1]; simpl in *.
    pose proof (IH t1 c Hall Hc1 e) as IH1.
    destruct (run t1 ops) as [t2 log2]; simpl in *.
    intros [H|H]%elem_of_app; [|done].
    apply Hd in H as [_ [ws Hws]]. congruence.
Qed.

(** X4. A client that has disconnected gets no event until it connects
    again: after [disconnect], no operation of the other clients and no
    status update delivers anything to it, also for the documents it is
    still subscribed to. *)
Theorem disconnected_client_gets_nothing t c ops e :
  Forall (λ o, ∀ ws, o ≠ OpConnect ws c) ops →
  (c, e) ∉ (run (step t (OpDisconnect c)).1 ops).2.
Proof.
  intros Hall. apply run_no_delivery_disconnected; [done|].
  simpl. rewrite active_disconnect. by rewrite decide_True.
Qed.

(** Client [a] disconnects and both documents are published. *)
Lemma disconnected_client_witness :
  Forall (λ o, ∀ ws, o ≠ OpConnect ws "a") publish_both ∧
  ("a", event_D2)
    ∉ (run (step two_clients (OpDisconnect "a")).1 publish_both).2.
Proof.
  assert (H : Forall (λ o, ∀ ws, o ≠ OpConnect ws "a") publish_both)
    by (repeat constructor; discriminate).
  split; [exact H|].
  exact (disconnected_client_gets_nothing two_clients "a" publish_both
           event_D2 H).
Defined.

End ConnectionFacts.

(** ** The broadcast among other coroutines *)

Module EventLoopFacts.
Import Hub StatusTracker HubFacts StatusTrackerFacts EventLoop.

Lemma mutate_elsewhere d m mutation :
  elsewhere d mutation →
  active_connections (mutate m mutation) = active_connections m ∧
  document_subscribers (mutate m mutation) !! d = document_subscribers m !! d.
Proof.
  destruct mutation as [ws c|c|c d'|c d']; cbn [elsewhere mutate]; [done..| |].
  - intros Hd. split; [done|]. unfold subscribe_to_document. cbn.
    destruct (document_subscribers m !! d').
    + by rewrite lookup_alter_ne.
    + by rewrite lookup_alter_ne, lookup_insert_ne.
  - intros Hd. unfold unsubscribe_from_document.
    destruct (document_subscribers m !! d'); [|done]. cbn. split; [done|].
    case_decide; [by rewrite lookup_delete_ne|by rewrite lookup_insert_ne].
Qed.

Lemma interfere_elsewhere d m0 s0 it mutation :
  undisturbed d m0 s0 it → elsewhere d mutation →
  undisturbed d m0 s0 (interfere d it mutation).
Proof.
  intros (Ha & Hc & Hact & Hs) He.
  destruct (mutate_elsewhere d (manager it) mutation He) as [Hact' Hs'].
  assert (Hsome : bool_decide
            (is_Some (document_subscribers (mutate (manager it) mutation) !! d))
          = true).
  { apply bool_decide_eq_true. rewrite Hs', Hs. by eexists. }
  unfold interfere, undisturbed. cbn [attached changed manager].
  rewrite Hsome, Ha, Hc, Hact', Hs', Hact, Hs. cbn [andb orb].
  repeat split; try done.
  apply bool_decide_eq_false. intros H. apply H.
  unfold iterated, subscribers. cbn [attached manager]. by rewrite Ha, Hs', Hs.
Qed.

Lemma foldl_interfere_elsewhere d m0 s0 mutations : ∀ it,
  undisturbed d m0 s0 it → Forall (elsewhere d) mutations →
  undisturbed d m0 s0 (foldl (interfere d) it mutations).
Proof.
  induction mutations as [|mu mutations IH]; intros it Hit Hall; [done|].
  apply Forall_cons in Hall as [Hmu Hall]. cbn [foldl].
  apply IH; [|done]. by apply interfere_elsewhere.
Qed.

Lemma send_loop_active f m m' l :
  active_connections m' = active_connections m →
  Hub.send_loop f m' l = Hub.send_loop f m l.
Proof.
  intros H. induction l as [|c l IH]; [done|]. cbn [Hub.send_loop].
  by rewrite IH, H.
Qed.

(** Among quiet coroutines the loop is the loop of the hub that runs
    alone. *)
Lemma send_loop_quiet f during d m0 s0 clients : ∀ it,
  quiet d during → undisturbed d m0 s0 it →
  ∃ it',
    send_loop f during d (size s0) it clients
    = (it', (Hub.send_loop f m0 clients).1, (Hub.send_loop f m0 clients).2,
       Completed) ∧
    undisturbed d m0 s0 it'.
Proof.
  intros it Hq. revert it.
  induction clients as [|c rest IH]; intros it Hit;
    pose proof Hit as (Ha & Hc & Hact & Hs).
  - exists it. split; [|done]. cbn [send_loop].
    unfold iterated, subscribers. rewrite Ha, Hs, Hc. cbn.
    by rewrite Nat.eqb_refl.
  - cbn [send_loop Hub.send_loop].
    unfold iterated, subscribers. rewrite Ha, Hs, Hc. cbn [default].
    rewrite Nat.eqb_refl. cbn [negb]. rewrite Hact.
    destruct (active_connections m0 !! c) as [ws|].
    + destruct (IH (foldl (interfere d) it (during c))) as (it' & -> & Hit').
      { apply foldl_interfere_elsewhere; [done|apply Hq]. }
      exists it'. split; [|done].
      by destruct (Hub.send_loop f m0 rest) as [sent disc].
    + destruct (IH it Hit) as (it' & -> & Hit'). exists it'.
      split; [|done]. by destruct (Hub.send_loop f m0 rest) as [sent disc].
Qed.

Lemma broadcast_quiet order f during m d s0 :
  quiet d during → document_subscribers m !! d = Some s0 →
  ∃ m',
    broadcast_to_document_subscribers order f during m d
    = (foldl disconnect m' (Hub.send_loop f m (order s0)).2,
       (Hub.send_loop f m (order s0)).1, Completed) ∧
    active_connections m' = active_connections m ∧
    document_subscribers m' !! d = Some s0.
Proof.
  intros Hq Hs. unfold broadcast_to_document_subscribers. rewrite Hs.
  destruct (send_loop_quiet f during d m s0 (order s0)
              (mkIteration m true false) Hq) as (it' & -> & Hit'); [done|].
  exists (manager it'). split; [done|]. by destruct Hit' as (_ & _ & ? & ?).
Qed.

Lemma manager_foldl_interfere d mutations : ∀ it,
  manager (foldl (interfere d) it mutations)
  = foldl mutate (manager it) mutations.
Proof.
  induction mutations as [|mu mutations IH]; intros it; [done|].
  cbn [foldl]. by rewrite IH.
Qed.

(** The clients before an interruption are served as if the loop ran
    alone; the step after the interruption raises. *)
Lemma send_loop_interrupted f during d m0 s0 it c after : ∀ before,
  undisturbed d m0 s0 it →
  (∀ b, b ∈ before → during b = []) →
  is_Some (active_connections m0 !! c) →
  size (iterated d (foldl (interfere d) it (during c))) ≠ size s0 →
  ∃ disconnected_clients,
    send_loop f during d (size s0) it (before ++ c :: after)
    = (foldl (interfere d) it (during c),
       filter (λ b, is_Some (active_connections m0 !! b)) before ++ [c],
       disconnected_clients, SetChangedSize).
Proof.
  intros before Hit. pose proof Hit as (Ha & Hc & Hact & Hs).
  assert (Hsize : negb (size (iterated d it) =? size s0) = false).
  { unfold iterated, subscribers. rewrite Ha, Hs. cbn.
    by rewrite Nat.eqb_refl. }
  induction before as [|b before IH]; intros Hb [ws Hws] Hne.
  - cbn [app send_loop]. rewrite Hsize, Hc, Hact, Hws.
    destruct after as [|x after]; cbn [send_loop];
      apply Nat.eqb_neq in Hne; rewrite Hne; cbn [negb]; by eexists.
  - destruct IH as [disc IH]; [|by eexists|done|].
    { intros x Hx. apply Hb. by right. }
    cbn [app send_loop]. rewrite Hsize, Hc, Hact. rewrite filter_cons.
    destruct (active_connections m0 !! b) as [wb|] eqn:Eb.
    + rewrite (Hb b) by (by left). cbn [foldl]. rewrite IH.
      rewrite decide_True by (by eexists). by eexists.
    + rewrite IH. rewrite decide_False by (by intros [? ?]). by eexists.
Qed.

(** X30. A broadcast does not survive a change of the subscriber set.
    When the earlier sends went undisturbed and, while the send to a
    connected subscriber is awaited, the other coroutines leave the set of
    the document with another size (a client subscribes, unsubscribes or is
    disconnected), the next step of the loop raises [RuntimeError]: the
    subscribers that come later in the iteration are sent nothing, and the
    manager is left as the other coroutines made it, so that no client
    whose send failed is disconnected. *)
Theorem broadcast_raises_when_the_subscribers_change
    order send_fails during m document_id subs before client_id after :
  document_subscribers m !! document_id = Some subs →
  order subs = before ++ client_id :: after →
  (∀ b, b ∈ before → during b = []) →
  is_Some (active_connections m !! client_id) →
  size (set_after document_id m (during client_id)) ≠ size subs →
  broadcast_to_document_subscribers order send_fails during m document_id
  = (foldl mutate m (during client_id),
     filter (λ b, is_Some (active_connections m !! b)) before ++ [client_id],
     SetChangedSize).
Proof.
  intros Hs Ho Hb Hc Hne. unfold broadcast_to_document_subscribers.
  rewrite Hs, Ho.
  destruct (send_loop_interrupted send_fails during document_id m subs
              (mkIteration m true false) client_id after before)
    as [disc ->]; try done.
  by rewrite manager_foldl_interfere.
Qed.

Section Order.

Variable order : gset string → list string.
(** A set is iterated in some order, every element once. *)
Hypothesis order_elements : ∀ s, order s ≡ₚ elements s.

Lemma elem_of_order c (s : gset string) : c ∈ order s ↔ c ∈ s.
Proof. by rewrite order_elements, elem_of_elements. Qed.

Lemma NoDup_order (s : gset string) : NoDup (order s).
Proof. rewrite order_elements. apply NoDup_elements. Qed.

(** X2. A broadcast during which the other coroutines connect and
    disconnect nobody and leave the subscriptions to the document alone
    runs to its end and calls [send_text] exactly once for every client
    that is subscribed to the document and connected, whichever of the
    sockets fail: a failing socket does not keep the message from the
    others. *)
Theorem broadcast_reaches_every_connected_subscriber
    send_fails during m document_id :
  quiet document_id during →
  let '(_, sent, outcome) :=
    broadcast_to_document_subscribers order send_fails during m document_id in
  outcome = Completed ∧ NoDup sent ∧
  ∀ client_id,
    client_id ∈ sent ↔
    client_id ∈ subscribers m document_id ∧
    is_Some (active_connections m !! client_id).
Proof.
  intros Hq. unfold subscribers.
  destruct (document_subscribers m !! document_id) as [s0|] eqn:Hs.
  - destruct (broadcast_quiet order send_fails during m document_id s0 Hq Hs)
      as (m' & -> & _).
    split; [done|]. split.
    + apply send_loop_NoDup, NoDup_order.
    + intros c. by rewrite send_loop_sent, elem_of_order.
  - unfold broadcast_to_document_subscribers. rewrite Hs.
    split; [done|]. split; [constructor|]. set_solver.
Qed.

(** X3. A broadcast during which the other coroutines connect and
    disconnect nobody and leave the subscriptions to the document alone
    runs to its end and disconnects the clients whose socket fails, and
    nobody else: afterwards a client is connected when it was connected and
    its send did not fail, and subscribed to the document when it was and
    its send did not fail; the failing client has left the subscriber set
    of every document. *)
Theorem broadcast_disconnects_failing_clients
    send_fails during m document_id client_id :
  quiet document_id during →
  let '(m', _, outcome) :=
    broadcast_to_document_subscribers order send_fails during m document_id in
  outcome = Completed ∧
  active_connections m' !! client_id
  = (if decide (failing send_fails m document_id client_id) then None
     else active_connections m !! client_id) ∧
  (client_id ∈ subscribers m' document_id ↔
   client_id ∈ subscribers m document_id ∧
   ¬ failing send_fails m document_id client_id) ∧
  (failing send_fails m document_id client_id →
   ∀ d, client_id ∉ subscribers m' d).
Proof.
  intros Hq.
  destruct (decide (is_Some (document_subscribers m !! document_id)))
    as [[s0 Hs]|Hs%eq_None_not_Some].
  - assert (Hsub : subscribers m document_id = s0)
      by (unfold subscribers; by rewrite Hs).
    destruct (broadcast_quiet order send_fails during m document_id s0 Hq Hs)
      as (m' & -> & Hact & Hs').
    assert (Hdisc : client_id ∈ (Hub.send_loop send_fails m (order s0)).2 ↔
              failing send_fails m document_id client_id).
    { unfold failing. by rewrite send_loop_disconnected, elem_of_order, Hsub. }
    split; [done|]. split; [|split].
    + rewrite active_foldl_disconnect, Hact.
      destruct (decide (client_id ∈ _)) as [Hc|Hc].
      * rewrite decide_True; [done|by apply Hdisc].
      * rewrite decide_False; [done|]. by rewrite <- Hdisc.
    + rewrite subscribers_foldl_disconnect_eq.
      assert (subscribers m' document_id = s0) as ->
        by (unfold subscribers; by rewrite Hs').
      rewrite Hact, Hdisc, Hsub. unfold failing. rewrite Hsub. naive_solver.
    + intros Hf d. rewrite subscribers_foldl_disconnect_eq.
      intros [_ Hn]. apply Hn. rewrite Hact. split; [by apply Hdisc|].
      by destruct Hf as (_ & ? & _).
  - assert (Hsub : subscribers m document_id = ∅)
      by (unfold subscribers; by rewrite Hs).
    assert (Hnf : ¬ failing send_fails m document_id client_id).
    { unfold failing. rewrite Hsub. set_solver. }
    unfold broadcast_to_document_subscribers. rewrite Hs.
    split; [done|]. split; [|split].
    + by rewrite decide_False.
    + rewrite Hsub. set_solver.
    + done.
Qed.

End Order.

(** Clients [a] and [b] are subscribed to [D1]; the socket of [b] fails, and
    [z] subscribes to [D2] while the send to [a] is awaited. *)
Lemma broadcast_reaches_witness :
  (∀ s : gset string, elements s ≡ₚ elements s) ∧
  quiet "D1" joins_D2 ∧
  let '(_, sent, outcome) :=
    broadcast_to_document_subscribers
      elements (λ c, String.eqb c "b") joins_D2
      (connection_manager two_clients) "D1" in
  outcome = Completed ∧ NoDup sent ∧
  ∀ client_id,
    client_id ∈ sent ↔
    client_id ∈ subscribers (connection_manager two_clients) "D1" ∧
    is_Some (active_connections (connection_manager two_clients) !! client_id).
Proof.
  assert (Ho : ∀ s : gset string, elements s ≡ₚ elements s) by done.
  assert (Hq : quiet "D1" joins_D2).
  { intros c. unfold joins_D2. destruct (String.eqb c "a"); by repeat constructor. }
  split; [exact Ho|]. split; [exact Hq|].
  exact (broadcast_reaches_every_connected_subscriber
           elements Ho (λ c, String.eqb c "b") joins_D2
           (connection_manager two_clients) "D1" Hq).
Defined.

(** The same broadcast, for the client [b], whose socket fails. *)
Lemma broadcast_disconnects_witness :
  (∀ s : gset string, elements s ≡ₚ elements s) ∧
  quiet "D1" joins_D2 ∧
  let '(m', _, outcome) :=
    broadcast_to_document_subscribers
      elements (λ c, String.eqb c "b") joins_D2
      (connection_manager two_clients) "D1" in
  outcome = Completed ∧
  active_connections m' !! "b"
  = (if decide (failing (λ c, String.eqb c "b")
                        (connection_manager two_clients) "D1" "b")
     then None
     else active_connections (connection_manager two_clients) !! "b") ∧
  ("b" ∈ subscribers m' "D1" ↔
   "b" ∈ subscribers (connection_manager two_clients) "D1" ∧
   ¬ failing (λ c, String.eqb c "b") (connection_manager two_clients) "D1" "b") ∧
  (failing (λ c, String.eqb c "b") (connection_manager two_clients) "D1" "b" →
   ∀ d, "b" ∉ subscribers m' d).
Proof.
  assert (Ho : ∀ s : gset string, elements s ≡ₚ elements s) by done.
  assert (Hq : quiet "D1" joins_D2).
  { intros c. unfold joins_D2. destruct (String.eqb c "a"); by repeat constructor. }
  split; [exact Ho|]. split; [exact Hq|].
  exact (broadcast_disconnects_failing_clients
           elements Ho (λ c, String.eqb c "b") joins_D2
           (connection_manager two_clients) "D1" "b" Hq).
Defined.

(** The same hub; [z] subscribes to [D1] while the send to [a] is awaited:
    [b] is sent nothing. *)
Lemma broadcast_raises_witness :
  (document_subscribers (connection_manager two_clients) !! "D1"
   = Some {["a"; "b"]} ∧
   size (set_after "D1" (connection_manager two_clients) (joins_D1 "a"))
   ≠ size ({["a"; "b"]} : gset string)) ∧
  broadcast_to_document_subscribers
    (λ _, ["a"; "b"]) (λ _, false) joins_D1 (connection_manager two_clients)
    "D1"
  = (subscribe_to_document (connection_manager two_clients) "z" "D1",
     ["a"], SetChangedSize).
Proof.
  assert (Hs : document_subscribers (connection_manager two_clients) !! "D1"
               = Some {["a"; "b"]}) by (by vm_compute).
  assert (Hne : size (set_after "D1" (connection_manager two_clients)
                                (joins_D1 "a"))
                ≠ size ({["a"; "b"]} : gset string)) by (by vm_compute).
  split; [by split|].
  apply (broadcast_raises_when_the_subscribers_change
           (λ _, ["a"; "b"]) (λ _, false) joins_D1
           (connection_manager two_clients) "D1" {["a"; "b"]} [] "a" ["b"] Hs);
    [done|by intros b ?%elem_of_nil|vm_compute; by eexists|exact Hne].
Defined.

End EventLoopFacts.

(** ** The formatter *)

Module LayoutFacts.
Import PyStr Re MarkdownFormatter Layout PyStrFacts ReFacts FormatterFacts CleanFacts.

(** *** [fix_heading_hierarchy] *)

Lemma fix_step_again stack line :
  fix_step stack (fix_step stack line).2 = fix_step stack line.
Proof.
  destruct (heading_level line) as [l|] eqn:El;
    [|rewrite (fix_step_none stack line El); cbn [snd];
      by rewrite (fix_step_none stack line El)].
  revert El. unfold heading_level.
  destruct (startswith (s2l "#") line) eqn:Es; [|done].
  destruct (heading_match line) as [[h t]|] eqn:Em; [|done]. intros _.
  pose proof (heading_match_spec _ _ _ Em) as (Hne & Hh & Hshape & Hsub).
  assert (Hsame : fix_step stack line = (length h :: pop_to stack (length h), line)
                  → fix_step stack (fix_step stack line).2 = fix_step stack line).
  { intros E. by rewrite E. }
  destruct stack as [|top below].
  { apply Hsame. unfold fix_step. by rewrite Es, Em. }
  destruct (Nat.ltb_spec (top + 1) (length h)) as [Hlt|Hge].
  - assert (fix_step (top :: below) line
            = ((top + 1) :: pop_to (top :: below) (top + 1),
               rep "#" (top + 1) ++ s2l " " ++ t)) as E.
    { unfold fix_step. rewrite Es, Em. unfold clamp.
      by destruct (Nat.ltb_spec (top + 1) (length h)); [|lia]. }
    rewrite E. cbn [snd]. unfold fix_step.
    assert (startswith (s2l "#") (rep "#" (top + 1) ++ s2l " " ++ t) = true)
      as -> by (by rewrite Nat.add_1_r).
    rewrite heading_match_rebuild by (done || lia).
    unfold clamp.
    assert (length (rep "#" (top + 1)) = top + 1) as ->
      by (unfold rep; apply length_replicate).
    by rewrite Nat.ltb_irrefl.
  - apply Hsame. unfold fix_step. rewrite Es, Em. unfold clamp.
    by destruct (Nat.ltb_spec (top + 1) (length h)); [lia|].
Qed.

Lemma fix_loop_again lines : ∀ stack,
  fix_loop stack (fix_loop stack lines).2 = fix_loop stack lines.
Proof.
  induction lines as [|line rest IH]; intros stack; [done|].
  cbn [fix_loop].
  pose proof (fix_step_again stack line) as Hs.
  destruct (fix_step stack line) as [stack1 line1]. cbn [snd] in Hs.
  pose proof (IH stack1) as IH1.
  destruct (fix_loop stack1 rest) as [final out]. cbn [snd] in *.
  cbn [fix_loop]. by rewrite Hs, IH1.
Qed.

Lemma fix_lines content :
  split_lines (fix_heading_hierarchy content)
  = (fix_loop [] (split_lines content)).2.
Proof.
  unfold fix_heading_hierarchy.
  destruct (fix_loop_lines (split_lines content) []) as [Hlen Hnl].
  apply split_join_lines.
  - intros Hnil. rewrite Hnil in Hlen. simpl in Hlen.
    pose proof (split_lines_nonempty content).
    by destruct (split_lines content).
  - apply Hnl, split_lines_parts.
Qed.

(** X5. [fix_heading_hierarchy] is idempotent: a text whose headings were
    fixed is left as it is by a second pass. *)
Theorem fix_heading_hierarchy_idempotent content :
  fix_heading_hierarchy (fix_heading_hierarchy content)
  = fix_heading_hierarchy content.
Proof.
  unfold fix_heading_hierarchy at 1. rewrite fix_lines.
  by rewrite fix_loop_again.
Qed.

Lemma fix_step_lowers stack line :
  same_or_lowered line (fix_step stack line).2.
Proof.
  unfold fix_step.
  destruct (startswith (s2l "#") line) eqn:Es; [|by left].
  destruct (heading_match line) as [[h t]|] eqn:Em; [|by left].
  unfold clamp. destruct stack as [|top below]; [by left|].
  destruct (Nat.ltb_spec (top + 1) (length h)) as [Hlt|Hge]; [|by left].
  right. exists h, t, (top + 1). split; [done|]. split; [lia|done].
Qed.

Lemma fix_loop_lowers lines : ∀ stack,
  Forall2 same_or_lowered lines (fix_loop stack lines).2.
Proof.
  induction lines as [|line rest IH]; intros stack; [constructor|].
  cbn [fix_loop].
  pose proof (fix_step_lowers stack line) as Hs.
  destruct (fix_step stack line) as [stack1 line1]. cbn [snd] in Hs.
  pose proof (IH stack1) as IH1.
  destruct (fix_loop stack1 rest) as [final out]. cbn [snd] in *.
  by constructor.
Qed.

(** X6. [fix_heading_hierarchy] keeps the number of lines and works line
    by line: a line stays as it is, or it is a heading that is written
    again with fewer hashes, one space and the same title. A line that is
    no heading, and the title of a heading, are never changed, and no
    heading gets more hashes. *)
Theorem fix_heading_hierarchy_only_lowers content :
  Forall2 same_or_lowered (split_lines content)
          (split_lines (fix_heading_hierarchy content)).
Proof. rewrite fix_lines. apply fix_loop_lowers. Qed.

(** *** [clean_markdown] *)

Lemma clean_markdown_split x :
  split_lines (clean_markdown x)
  = separate_headings false (clean_line <$> split_lines (cap NL 2 0 x)).
Proof.
  rewrite clean_markdown_lines. apply split_join_lines.
  - rewrite sep_nil. pose proof (split_lines_nonempty (cap NL 2 0 x)).
    by destruct (split_lines (cap NL 2 0 x)).
  - apply Forall_forall.
    intros l [->|Hl]%sep_elem; [by intros ?%elem_of_nil|].
    apply list_elem_of_fmap in Hl as (l0 & -> & Hl0).
    apply clean_line_no_nl.
    by apply (proj1 (Forall_forall _ _) (split_lines_parts (cap NL 2 0 x))).
Qed.

Lemma rtrim_nil s : rtrim s = [] ↔ forallb is_sp_tab s = true.
Proof.
  destruct s as [|c s]; [done|]. cbn [rtrim].
  by destruct (forallb is_sp_tab (c :: s)).
Qed.

Lemma rtrim_last s c : last (rtrim s) = Some c → is_sp_tab c = false.
Proof.
  induction s as [|x s IH]; [done|]. cbn [rtrim].
  destruct (forallb is_sp_tab (x :: s)) eqn:E; [done|].
  rewrite last_cons. destruct (last (rtrim s)) as [y|] eqn:El.
  - intros [= ->]. by apply IH.
  - intros [= ->]. apply last_None in El. apply rtrim_nil in El.
    cbn [forallb] in E. rewrite El, andb_true_r in E. done.
Qed.

Lemma capped_single_spaced l : ∀ k, capped " " 1 k l → single_spaced l.
Proof.
  induction l as [|c l IH]; intros k Hc i Hi; [done|].
  cbn [capped] in Hc. destruct i as [|i].
  - injection Hi as ->. rewrite chr_eqb_refl in Hc. destruct Hc as [Hk Hc].
    destruct l as [|c' l]; [done|]. intros [= ->].
    cbn [capped] in Hc. rewrite chr_eqb_refl in Hc. lia.
  - destruct (chr_eqb " " c); [destruct Hc as [_ Hc]|]; by eapply IH.
Qed.

Lemma clean_line_shape l :
  NL ∉ l → no_blank_at_ends (clean_line l) ∧ single_spaced (clean_line l).
Proof.
  intros Hl. rewrite clean_line_spec by done.
  set (a := cap " " 1 0 l).
  pose proof (capped_cap " " 1 l 0) as Ha. fold a in Ha.
  pose proof (span_app is_sp_tab a) as Happ.
  pose proof (span_stops is_sp_tab a) as Hst.
  set (b := (span is_sp_tab a).2) in *.
  split; [split|].
  - intros c Hc. apply rtrim_stops in Hst.
    destruct (rtrim b) as [|y r]; [done|]. by injection Hc as ->.
  - apply rtrim_last.
  - destruct (rtrim_prefix b) as [q Hq].
    apply (capped_single_spaced _ 0).
    rewrite <- Happ in Ha. apply capped_app_r in Ha.
    rewrite Hq in Ha. by apply capped_app_l in Ha.
Qed.

Lemma sep_apart M : ∀ p,
  headings_apart (separate_headings p M) ∧
  (p = true →
   ∀ l, head (separate_headings p M) = Some l → startswith (s2l "#") l = false).
Proof.
  unfold headings_apart.
  remember (startswith (s2l "#")) as hd eqn:Ehd.
  assert (Hnil : hd [] = false) by (by subst).
  induction M as [|line rest IH]; intros p.
  { split; [by intros i a b ?|by intros _ l ?]. }
  cbn [separate_headings]. rewrite <- Ehd.
  destruct (IH (hd line)) as [IH1 IH2].
  assert (Hrest : ∀ i a b,
            (line :: separate_headings (hd line) rest) !! i = Some a →
            (line :: separate_headings (hd line) rest) !! S i = Some b →
            ¬ (hd a = true ∧ hd b = true)).
  { intros i a b Ha Hb. destruct i as [|i]; [|by eapply IH1].
    injection Ha as ->. intros [Hh Hb'].
    change (separate_headings (hd a) rest !! 0 = Some b) in Hb.
    rewrite <- head_lookup in Hb.
    specialize (IH2 Hh b Hb). congruence. }
  destruct (hd line && p) eqn:E; cbn [app].
  - apply andb_true_iff in E as [Hh ->]. split.
    + intros i a b Ha Hb. destruct i as [|i]; [|by eapply Hrest].
      injection Ha as <-. intros [? _]. congruence.
    + intros _ l [= <-]. done.
  - split; [done|]. intros -> l [= <-].
    by rewrite andb_true_r in E.
Qed.

(** X7. In the output of [clean_markdown] no line starts or ends with a
    space or a tab, no line has two spaces in a row, and no two lines in a
    row start with a hash. *)
Theorem clean_markdown_output_is_tidy x :
  Forall (λ line, no_blank_at_ends line ∧ single_spaced line)
         (split_lines (clean_markdown x)) ∧
  headings_apart (split_lines (clean_markdown x)).
Proof.
  rewrite clean_markdown_split. split; [|apply sep_apart].
  apply Forall_forall. intros l [->|Hl]%sep_elem.
  { split; [split|]; by intros ?. }
  apply list_elem_of_fmap in Hl as (l0 & -> & Hl0).
  apply clean_line_shape.
  by apply (proj1 (Forall_forall _ _) (split_lines_parts (cap NL 2 0 x))).
Qed.

Lemma ink_app a b : ink (a ++ b) = ink a ++ ink b.
Proof. apply List.filter_app. Qed.

Lemma ink_join ls : ink (join_lines ls) = concat (ink <$> ls).
Proof.
  induction ls as [|l ls IH]; [done|].
  destruct ls as [|l' ls]; [simpl; by rewrite app_nil_r|].
  unfold join_lines in *. rewrite join_cons by done.
  rewrite ink_app. change (ink <$> l :: l' :: ls) with (ink l :: (ink <$> l' :: ls)).
  rewrite concat_cons. f_equal. exact IH.
Qed.

Lemma ink_sep M : ∀ p,
  concat (ink <$> separate_headings p M) = concat (ink <$> M).
Proof.
  induction M as [|line rest IH]; intros p; [done|].
  cbn [separate_headings]. rewrite fmap_app, concat_app.
  change (ink <$> line :: separate_headings (startswith (s2l "#") line) rest)
    with (ink line :: (ink <$> separate_headings (startswith (s2l "#") line) rest)).
  change (ink <$> line :: rest) with (ink line :: (ink <$> rest)).
  rewrite !concat_cons, IH. by destruct (_ && _).
Qed.

Lemma ink_cap c0 limit s : visible c0 = false → ∀ k,
  ink (cap c0 limit k s) = ink s.
Proof.
  intros H0. induction s as [|c s IH]; intros k; [done|]. cbn [cap].
  destruct (chr_eqb c0 c) eqn:Ec.
  - apply chr_eqb_true in Ec as <-.
    destruct (k <? limit)%nat; unfold ink in *; cbn [List.filter];
      rewrite H0; apply IH.
  - unfold ink in *. cbn [List.filter]. by rewrite IH.
Qed.

Lemma ink_blanks a : Forall (λ c, is_sp_tab c = true) a → ink a = [].
Proof.
  induction 1 as [|c a Hc _ IH]; [done|].
  unfold ink, visible in *. cbn [List.filter]. by rewrite Hc.
Qed.

Lemma ink_span s : ink (span is_sp_tab s).2 = ink s.
Proof.
  rewrite <- (span_app is_sp_tab s) at 2.
  by rewrite ink_app, (ink_blanks _ (span_all is_sp_tab s)).
Qed.

Lemma ink_rtrim s : ink (rtrim s) = ink s.
Proof.
  induction s as [|c s IH]; [done|]. cbn [rtrim].
  destruct (forallb is_sp_tab (c :: s)) eqn:E.
  - symmetry. apply ink_blanks. apply Forall_forall. intros x Hx.
    rewrite forallb_forall in E. by apply E, list_elem_of_In.
  - unfold ink in *. cbn [List.filter]. by rewrite IH.
Qed.

Lemma ink_clean_line l : NL ∉ l → ink (clean_line l) = ink l.
Proof.
  intros Hl. rewrite clean_line_spec by done.
  by rewrite ink_rtrim, ink_span, ink_cap.
Qed.

(** X8. [clean_markdown] touches spaces, tabs and line feeds only: the
    other characters of the text come out as they went in, all of them and
    in their order. *)
Theorem clean_markdown_keeps_the_ink x : ink (clean_markdown x) = ink x.
Proof.
  rewrite clean_markdown_lines, ink_join, ink_sep.
  rewrite <- list_fmap_compose.
  rewrite <- (ink_cap NL 2 x eq_refl 0).
  rewrite <- (join_split_lines (cap NL 2 0 x)) at 2.
  rewrite ink_join. f_equal. apply Forall_fmap_ext_1.
  eapply Forall_impl; [apply (split_lines_parts (cap NL 2 0 x))|].
  intros l Hl. by apply ink_clean_line.
Qed.

(** *** [format_lists] *)

Lemma format_lists_split x :
  split_lines (format_lists x) = format_line <$> split_lines x.
Proof.
  unfold format_lists. apply split_join_lines.
  - pose proof (split_lines_nonempty x). by destruct (split_lines x).
  - apply Forall_fmap. eapply Forall_impl; [apply split_lines_parts|].
    intros l. apply format_line_no_nl.
Qed.

Lemma numbered_match_prefix stripped num text :
  numbered_match stripped = Some (num, text) →
  numbered_prefix_match stripped = true ∧ bullet_match stripped = false.
Proof.
  unfold numbered_match, numbered_prefix_match.
  pose proof (span_app isdigit stripped) as Happ.
  pose proof (span_all isdigit stripped) as Hall.
  destruct (span isdigit stripped) as [d r]; cbn [fst snd] in *.
  destruct r as [|c r]; [done|].
  pose proof (span_app isspace r) as Happ2.
  pose proof (span_all isspace r) as Hall2.
  destruct (span isspace r) as [ws rest]; cbn [fst snd] in *.
  destruct d as [|d0 d]; [done|]. cbn [nonempty andb].
  destruct (eqc "." c) eqn:Ec; [|done].
  destruct ws as [|w ws]; [done|]. intros _.
  apply Forall_cons in Hall2 as [Hw _]. subst r stripped.
  cbn [app]. rewrite Hw. split; [done|].
  apply Forall_cons in Hall as [Hd _].
  cbn [bullet_match]. destruct (d ++ _); [done|by rewrite digit_not_bullet].
Qed.

Lemma bullet_not_space c : is_bullet c = true → isspace c = false.
Proof.
  unfold is_bullet, eqc. rewrite !orb_true_iff, !chr_eqb_true.
  by intros [[<-|<-]|<-].
Qed.

Lemma lstrip_indent indent s :
  Forall (λ c, isspace c = true) indent → stops isspace s →
  lstrip (indent ++ s) = s.
Proof. intros Hi Hs. by rewrite lstrip_spec, span_eq. Qed.

Lemma line_indent line :
  ∃ indent, line = indent ++ lstrip line ∧
            Forall (λ c, isspace c = true) indent.
Proof.
  exists (span isspace line).1. rewrite lstrip_spec. split.
  - by rewrite span_app.
  - apply span_all.
Qed.

Lemma bullet_line_match line :
  bullet_line line ↔ bullet_match (lstrip line) = true.
Proof.
  split.
  - intros (indent & m & sp & rest & -> & Hi & Hm & Hsp).
    rewrite lstrip_indent; [|done|by apply bullet_not_space].
    cbn [bullet_match]. by rewrite Hm, Hsp.
  - destruct (line_indent line) as (indent & Hl & Hi).
    destruct (lstrip line) as [|m [|sp rest]]; [done..|].
    cbn [bullet_match]. intros [Hm Hsp]%andb_true_iff.
    by exists indent, m, sp, rest.
Qed.

Lemma numbered_line_match line :
  numbered_line line ↔ is_Some (numbered_match (lstrip line)).
Proof.
  split.
  - intros (indent & num & spaces & text & -> & Hi & Hne & Hnum & Hsne & Hsp & Ht).
    destruct num as [|d num]; [done|].
    pose proof Hnum as Hd. apply Forall_cons in Hd as [Hd _].
    rewrite lstrip_indent; [|done|by apply digit_not_space].
    unfold numbered_match.
    rewrite (span_eq isdigit (d :: num) ("."%char :: spaces ++ text))
      by done.
    change (eqc "." ".") with true. cbn [nonempty andb].
    pose proof (rest_group_some (spaces ++ text)) as Hsome.
    destruct (span isspace (spaces ++ text)) as [ws rest].
    destruct (rest_group ws rest) as [t|]; [by eexists|].
    exfalso. apply proj2 in Hsome.
    destruct spaces as [|sp spaces]; [done|].
    apply Forall_cons in Hsp as [Hsp _].
    assert (is_Some (None : option str)) as [? ?]; [|done].
    apply Hsome. cbn [app]. destruct (spaces ++ text) eqn:E; [|done].
    by apply app_eq_nil in E as [_ ->].
  - destruct (line_indent line) as (indent & Hl & Hi).
    unfold numbered_match.
    pose proof (span_app isdigit (lstrip line)) as Happ.
    pose proof (span_all isdigit (lstrip line)) as Hall.
    destruct (span isdigit (lstrip line)) as [num r]. cbn [fst snd] in *.
    destruct r as [|c r]; [by intros ?%is_Some_None|].
    pose proof (rest_group_some r) as Hsome.
    destruct (span isspace r) as [ws rest].
    destruct num as [|d num]; [by intros ?%is_Some_None|].
    cbn [nonempty andb].
    destruct (eqc "." c) eqn:Ec; [|by intros ?%is_Some_None].
    apply chr_eqb_true in Ec as <-.
    destruct (rest_group ws rest) as [t|]; [|by intros ?%is_Some_None].
    intros _.
    apply proj1 in Hsome. specialize (Hsome ltac:(by eexists)).
    destruct r as [|sp [|c r]]; [done..|].
    exists indent, (d :: num), [sp], (c :: r).
    rewrite Hl at 1. rewrite <- Happ.
    repeat split; try done. by constructor.
Qed.

Lemma group_shape_nonempty text : group_shape text → text ≠ [].
Proof. by intros [[? _]|(c & -> & _)]. Qed.

Lemma format_line_items line :
  (bullet_line (format_line line) → hyphen_item (format_line line)) ∧
  (numbered_line (format_line line) → numbered_item (format_line line)) ∧
  (¬ bullet_line line → ¬ numbered_line line → format_line line = line).
Proof.
  rewrite !bullet_line_match, !numbered_line_match.
  assert (Heven : ∀ n, n / 2 * 2 = 2 * (n / 2)) by (intros; lia).
  set (n := length line - length (lstrip line)).
  assert (Hcases :
    (bullet_match (lstrip line) = true ∧
     format_line line = rep " " (n / 2 * 2) ++ s2l "- " ++ drop 2 (lstrip line)) ∨
    (∃ d num text,
       is_Some (numbered_match (lstrip line)) ∧
       isdigit d = true ∧ Forall (λ c, isdigit c = true) num ∧
       group_shape text ∧
       format_line line
       = rep " " (n / 2 * 2) ++ (d :: num) ++ s2l ". " ++ text) ∨
    (format_line line = line ∧ bullet_match (lstrip line) = false ∧
     (numbered_prefix_match (lstrip line) = false ∨
      numbered_match (lstrip line) = None))).
  { unfold format_line. cbv zeta. fold n.
    destruct (bullet_match (lstrip line)); [by left|]. right.
    destruct (numbered_prefix_match (lstrip line)); [|right; eauto].
    destruct (numbered_match (lstrip line)) as [[num text]|] eqn:Em;
      [|right; eauto].
    apply numbered_match_spec in Em as (Hne & Hnum & Hshape & _).
    destruct num as [|d num]; [done|].
    apply Forall_cons in Hnum as [Hd Hnum]. left.
    exists d, num, text. by split; [eexists|]. }
  destruct Hcases as [[Hb ->]|[(d & num & text & Hm & Hd & Hnum & Hshape & ->)|(-> & Eb & Hn)]].
  - assert (Hst : stops isspace (s2l "- " ++ drop 2 (lstrip line))) by done.
    destruct (lstrip_rep (n / 2 * 2) _ Hst) as [-> _]. split; [|split].
    + intros _. eexists _, _. by rewrite Heven.
    + intros [x Hx]. unfold numbered_match in Hx.
      rewrite span_none in Hx by done.
      change (s2l "- " ++ drop 2 (lstrip line))
        with ("-"%char :: " "%char :: drop 2 (lstrip line)) in Hx.
      cbv iota beta in Hx.
      by destruct (span isspace (" "%char :: drop 2 (lstrip line))) in Hx.
    + intros Hnb. by rewrite Hb in Hnb.
  - assert (Hst : stops isspace ((d :: num) ++ s2l ". " ++ text))
      by (by apply digit_not_space).
    destruct (lstrip_rep (n / 2 * 2) _ Hst) as [-> _]. split; [|split].
    + cbn [app bullet_match]. destruct (num ++ _); [done|].
      by rewrite digit_not_bullet.
    + intros _. exists (n / 2), (d :: num), text. rewrite Heven.
      split; [done|]. split; [by constructor|].
      split; [by apply group_shape_nonempty|done].
    + intros _ Hnn. by destruct Hnn.
  - split; [congruence|]. split; [|done].
    intros [[num text] Hm]. destruct Hn as [Hn|Hn]; [|congruence].
    apply numbered_match_prefix in Hm as [Hm _]. congruence.
Qed.

(** X9. [format_lists] keeps the number of lines. In its output every
    bullet item is written with a hyphen and one space after an even number
    of spaces, and every numbered item with its number, a full stop, one
    space and its text after an even number of spaces. A line that is
    neither a bullet item nor a numbered item is not changed. *)
Theorem format_lists_normalises_items x :
  length (split_lines (format_lists x)) = length (split_lines x) ∧
  Forall (λ line,
            (bullet_line line → hyphen_item line) ∧
            (numbered_line line → numbered_item line))
         (split_lines (format_lists x)) ∧
  Forall2 (λ line formatted,
             ¬ bullet_line line → ¬ numbered_line line → formatted = line)
          (split_lines x) (split_lines (format_lists x)).
Proof.
  rewrite format_lists_split. split; [by rewrite length_fmap|]. split.
  - apply Forall_fmap, Forall_forall. intros line _.
    destruct (format_line_items line) as (? & ? & _). by split.
  - apply Forall2_fmap_r, Forall_Forall2_diag, Forall_forall.
    intros line _. by destruct (format_line_items line) as (_ & _ & ?).
Qed.

End LayoutFacts.

Module AnchorsFacts.
Import PyStr Re MarkdownFormatter Anchors PyStrFacts ReFacts.

Lemma sub_one_of p s : ∀ bol,
  sub_scan (one_of p) [] bol 0 s = List.filter (λ c, negb (p c)) s.
Proof.
  induction s as [|c s IH]; intros bol; [done|].
  cbn [sub_scan one_of List.filter].
  destruct (p c); cbn [negb app]; by rewrite IH.
Qed.

Lemma collapse_run q a rest :
  Forall (λ c, q c = true) a → stops q rest →
  collapse q true (a ++ rest) = collapse q false rest.
Proof.
  intros Ha Hr. induction Ha as [|c a Hc _ IH]; cbn [app collapse].
  - destruct rest as [|c rest]; [done|]. cbn in Hr. cbn [collapse].
    by rewrite Hr.
  - by rewrite Hc, IH.
Qed.

Lemma sub_collapse_bounded q n : ∀ s bol,
  length s ≤ n →
  sub_scan (run_at_least 1 q) (s2l "-") bol 0 s = collapse q false s.
Proof.
  induction n as [|n IH]; intros s bol Hlen.
  { destruct s; [done|cbn in Hlen; lia]. }
  destruct s as [|c t]; [done|]. cbn [length] in Hlen.
  cbn [sub_scan]. unfold run_at_least at 1.
  pose proof (span_app q (c :: t)) as Happ.
  pose proof (span_all q (c :: t)) as Hall.
  pose proof (span_stops q (c :: t)) as Hst.
  destruct (span q (c :: t)) as [a rest]. cbn [fst snd] in *.
  destruct a as [|x a].
  - cbn [length Nat.leb]. cbn [app] in Happ. subst rest.
    cbn in Hst. cbn [collapse]. rewrite Hst.
    by rewrite IH by lia.
  - cbn [app] in Happ. injection Happ as -> <-.
    apply Forall_cons in Hall as [Hc Ha].
    cbn [length Nat.leb]. rewrite sub_scan_skip.
    rewrite IH by (rewrite length_app in Hlen; lia).
    cbn [collapse]. rewrite Hc. by rewrite collapse_run.
Qed.

Lemma collapse_chars q s : ∀ b c,
  c ∈ collapse q b s → c = "-"%char ∨ (c ∈ s ∧ q c = false).
Proof.
  induction s as [|x s IH]; intros b c; [by intros ?%elem_of_nil|].
  cbn [collapse]. destruct (q x) eqn:Ex.
  - intros [H|H]%elem_of_app.
    + destruct b; [by apply elem_of_nil in H|].
      apply list_elem_of_singleton in H. by left.
    + apply IH in H as [?|[? ?]]; [by left|right; split; [by right|done]].
  - intros [->|H]%elem_of_cons; [right; split; [by left|done]|].
    apply IH in H as [?|[? ?]]; [by left|right; split; [by right|done]].
Qed.

Lemma collapse_single q s :
  q "-"%char = true → ∀ b,
  single_hyphens (collapse q b s) ∧
  (b = true → head (collapse q b s) ≠ Some "-"%char).
Proof.
  intros Hq. unfold single_hyphens. induction s as [|x s IH]; intros b.
  { cbn [collapse].
    split; [intros i Hi; by rewrite lookup_nil in Hi|by intros _ ?]. }
  cbn [collapse]. destruct (q x) eqn:Ex.
  - destruct (IH true) as [IH1 IH2]. specialize (IH2 eq_refl).
    destruct b; cbn [app].
    + by split.
    + split; [|done]. intros [|i] Hi Hn; [|exact (IH1 i Hi Hn)].
      change (collapse q true s !! 0 = Some "-"%char) in Hn.
      rewrite <- head_lookup in Hn. done.
  - destruct (IH false) as [IH1 _]. split.
    + intros [|i] Hi Hn; [|exact (IH1 i Hi Hn)].
      injection Hi as ->. congruence.
    + intros _ [= ->]. congruence.
Qed.

(** X10. The anchor of an entry of the table of contents is made of word
    characters and hyphens only, and it never has two hyphens in a row. *)
Theorem anchors_are_words_and_single_hyphens title :
  Forall (λ c, isword c = true ∨ c = "-"%char) (anchor_of title) ∧
  single_hyphens (anchor_of title).
Proof.
  unfold anchor_of, sub. cbv zeta.
  rewrite sub_one_of.
  rewrite (sub_collapse_bounded _ _ _ true (le_n _)).
  split.
  - apply Forall_forall. intros c Hc.
    apply collapse_chars in Hc as [->|[Hin Hq]]; [by right|]. left.
    apply list_elem_of_In, filter_In in Hin as [_ Hin].
    rewrite negb_involutive in Hin.
    apply orb_false_iff in Hq as [Hd Hs].
    rewrite Hd, Hs, !orb_false_r in Hin. done.
  - by apply collapse_single.
Qed.

End AnchorsFacts.

Module TocFacts.
Import PyStr Re MarkdownFormatter PyStrFacts TextFacts FormatterFacts.

Lemma qualifying_app_nl a b :
  qualifying_headings (a ++ NL :: b)
  = qualifying_headings a + qualifying_headings b.
Proof.
  unfold qualifying_headings.
  by rewrite split_lines_app_nl, filter_app, length_app.
Qed.

(** X11. A table of contents is not added once and for all: when
    [add_table_of_contents] has added one, its heading counts as a heading
    too, so a second call finds more than two headings again and adds a
    second table in front of the first. *)
Theorem second_table_of_contents_is_added content :
  add_table_of_contents content ≠ content →
  add_table_of_contents (add_table_of_contents content)
  ≠ add_table_of_contents content.
Proof.
  intros Hadded.
  assert (Hmany : 2 < qualifying_headings content).
  { unfold qualifying_headings. rewrite <- toc_entries_length.
    revert Hadded. unfold add_table_of_contents.
    by destruct (Nat.ltb_spec 2 (length (toc_entries (split_lines content)))). }
  assert (Hout : 2 < qualifying_headings (add_table_of_contents content)).
  { unfold add_table_of_contents at 1.
    destruct (2 <? length (toc_entries (split_lines content))); [|done].
    change ([NL; NL] ++ content) with (NL :: NL :: content).
    rewrite qualifying_app_nl.
    change (NL :: content) with ([] ++ NL :: content).
    rewrite qualifying_app_nl. lia. }
  unfold qualifying_headings in Hout. rewrite <- toc_entries_length in Hout.
  unfold add_table_of_contents at 1.
  apply Nat.ltb_lt in Hout. rewrite Hout.
  intros Heq. apply (f_equal length) in Heq.
  rewrite !length_app in Heq. cbn [length] in Heq. lia.
Qed.

(** Three headings. *)
Lemma second_table_witness :
  add_table_of_contents (s2l "# a" ++ [NL] ++ s2l "# b" ++ [NL] ++ s2l "# c")
  ≠ s2l "# a" ++ [NL] ++ s2l "# b" ++ [NL] ++ s2l "# c" ∧
  add_table_of_contents
    (add_table_of_contents
       (s2l "# a" ++ [NL] ++ s2l "# b" ++ [NL] ++ s2l "# c"))
  ≠ add_table_of_contents
      (s2l "# a" ++ [NL] ++ s2l "# b" ++ [NL] ++ s2l "# c").
Proof.
  assert (H : add_table_of_contents
                (s2l "# a" ++ [NL] ++ s2l "# b" ++ [NL] ++ s2l "# c")
              ≠ s2l "# a" ++ [NL] ++ s2l "# b" ++ [NL] ++ s2l "# c")
    by (vm_compute; discriminate).
  split; [exact H|].
  exact (second_table_of_contents_is_added _ H).
Defined.

End TocFacts.

Module TablesFacts.
Import PyStr Tables PyStrFacts.

Lemma length_join sep parts :
  parts ≠ [] →
  length (join sep parts)
  = list_sum (length <$> parts) + length sep * (length parts - 1).
Proof.
  induction parts as [|p parts IH]; [done|]. intros _.
  destruct parts as [|q parts].
  - simpl. lia.
  - rewrite join_cons by done. rewrite !length_app, IH by done.
    change (length <$> p :: q :: parts)
      with (length p :: (length <$> q :: parts)).
    change (list_sum (length p :: (length <$> q :: parts)))
      with (length p + list_sum (length <$> q :: parts)).
    change (length (p :: q :: parts)) with (S (length (q :: parts))).
    change (length (q :: parts)) with (S (length parts)).
    lia.
Qed.

Lemma length_ljust width s : length (ljust width s) = length s `max` width.
Proof. unfold ljust, rep. rewrite length_app, length_replicate. lia. Qed.

Lemma col_widths_length table_data header_row :
  length (col_widths table_data header_row) = length header_row.
Proof. unfold col_widths. by rewrite length_fmap, length_seq. Qed.

Lemma col_widths_lookup table_data header_row i :
  i < length header_row →
  col_widths table_data header_row !! i
  = Some (max_list (cell_width i <$> table_data) `max` 3).
Proof.
  intros Hi. unfold col_widths.
  by rewrite list_lookup_fmap, lookup_seq_lt.
Qed.

Lemma cell_fits table_data header_row row i :
  row ∈ table_data → i < length header_row →
  cell_width i row ≤ nth i (col_widths table_data header_row) 0.
Proof.
  intros Hrow Hi. rewrite nth_lookup, col_widths_lookup by done. cbn.
  etrans; [|apply Nat.le_max_l].
  apply max_list_elem_of_le, list_elem_of_fmap. eauto.
Qed.

Lemma header_cells table_data header_row :
  header_row ∈ table_data →
  length <$> imap (λ i cell, ljust (nth i (col_widths table_data header_row) 0)
                                   cell) header_row
  = col_widths table_data header_row.
Proof.
  intros Hin. apply list_eq. intros i.
  rewrite list_lookup_fmap, list_lookup_imap.
  destruct (header_row !! i) as [cell|] eqn:Ec.
  - pose proof (lookup_lt_Some _ _ _ Ec) as Hi.
    pose proof (cell_fits table_data header_row header_row i Hin Hi) as Hfit.
    assert (cell_width i header_row = length cell) as Hc
      by (unfold cell_width; by rewrite Ec).
    rewrite Hc in Hfit. clear Hc.
    cbn. rewrite length_ljust.
    rewrite (nth_lookup_Some _ _ 0 _ (col_widths_lookup table_data header_row i Hi)) in *.
    rewrite col_widths_lookup by done. f_equal. lia.
  - apply lookup_ge_None in Ec. cbn. symmetry.
    apply lookup_ge_None. by rewrite col_widths_length.
Qed.

Lemma data_cells table_data header_row row :
  row ∈ table_data →
  length <$> ((λ i, ljust (nth i (col_widths table_data header_row) 0)
                          (default [] (row !! i)))
                <$> seq 0 (length (col_widths table_data header_row)))
  = col_widths table_data header_row.
Proof.
  intros Hin. apply list_eq. intros i.
  rewrite !list_lookup_fmap, col_widths_length.
  destruct (decide (i < length header_row)) as [Hi|Hi].
  - rewrite lookup_seq_lt by done. cbn.
    pose proof (cell_fits table_data header_row row i Hin Hi) as Hfit.
    rewrite length_ljust.
    rewrite (nth_lookup_Some _ _ 0 _ (col_widths_lookup table_data header_row i Hi)) in *.
    rewrite col_widths_lookup by done. f_equal.
    assert (length (default [] (row !! i)) = cell_width i row) as ->
      by (unfold cell_width; by destruct (row !! i)).
    lia.
  - rewrite lookup_seq_ge by lia. cbn. symmetry.
    apply lookup_ge_None. rewrite col_widths_length. lia.
Qed.

Lemma dashes_sum widths :
  list_sum (length <$> ((λ width, rep "-" (width + 2)) <$> widths))
  = list_sum widths + 2 * length widths.
Proof.
  induction widths as [|w widths IH]; [done|].
  change (list_sum (length <$> ((λ width, rep "-" (width + 2)) <$> w :: widths)))
    with (length (rep "-" (w + 2))
          + list_sum (length <$> ((λ width, rep "-" (width + 2)) <$> widths))).
  rewrite IH. unfold rep. rewrite length_replicate.
  change (list_sum (w :: widths)) with (w + list_sum widths).
  cbn [length]. lia.
Qed.

(** X12. A table that has a first row with a cell is written as the
    header, the line of hyphens and one line for each further row, and all
    these lines have the same length: the widths of the columns, two spaces
    for each column, and the bars. A table without rows, or whose first row
    is empty, gives no line. *)
Theorem format_table_lines_are_aligned table_data :
  length (table_lines table_data)
  = match table_data with
    | (_ :: _) :: _ => length table_data + 1
    | _ => 0
    end ∧
  Forall (λ line, length line = table_width table_data)
         (table_lines table_data).
Proof.
  destruct table_data as [|header_row rows]; [by split|].
  destruct header_row as [|cell cells]; [by split|].
  set (header_row := cell :: cells). set (table_data := header_row :: rows).
  set (widths := col_widths table_data header_row).
  assert (table_lines table_data
          = header_line widths header_row :: separator_line widths
            :: (data_line widths <$> rows)) as -> by reflexivity.
  assert (Hlen : length widths = length header_row)
    by apply col_widths_length.
  assert (Hpos : 0 < length header_row) by (cbn; lia).
  split.
  { change (length (header_line widths header_row :: separator_line widths
                    :: (data_line widths <$> rows)))
      with (S (S (length (data_line widths <$> rows)))).
    rewrite length_fmap. unfold table_data. cbn [length]. lia. }
  assert (table_width table_data
          = list_sum widths + 3 * length header_row + 1) as -> by reflexivity.
  repeat apply Forall_cons_2.
  - unfold header_line. rewrite !length_app, length_join.
    + pose proof (header_cells table_data header_row ltac:(by left)) as Hh.
      fold widths in Hh. rewrite Hh.
      rewrite length_imap.
      change (length (s2l "| ")) with 2. change (length (s2l " | ")) with 3.
      change (length (s2l " |")) with 2. lia.
    + intros H. apply (f_equal length) in H. rewrite length_imap in H.
      cbn [length] in H. lia.
  - unfold separator_line. rewrite !length_app, length_join.
    + rewrite dashes_sum, length_fmap.
      change (length (s2l "|")) with 1. lia.
    + intros H. apply (f_equal length) in H. rewrite length_fmap in H.
      cbn [length] in H. lia.
  - apply Forall_fmap, Forall_forall. intros row Hrow. cbn [compose].
    unfold data_line. rewrite !length_app, length_join.
    + pose proof (data_cells table_data header_row row ltac:(by right)) as Hd.
      fold widths in Hd. rewrite Hd.
      rewrite length_fmap, length_seq.
      change (length (s2l "| ")) with 2. change (length (s2l " | ")) with 3.
      change (length (s2l " |")) with 2. lia.
    + intros H. apply (f_equal length) in H.
      rewrite length_fmap, length_seq in H. cbn [length] in H. lia.
Qed.

End TablesFacts.

Module EscapeFacts.
Import PyStr Re Escape PyStrFacts ReFacts.

Lemma unescaped_app a b : unescaped (a ++ b) = unescaped a ++ unescaped b.
Proof. apply List.filter_app. Qed.

Lemma special_not_backslash c : special c = true → c ≠ BS.
Proof. intros H ->. by vm_compute in H. Qed.

Lemma escape_scan_unescaped content : ∀ prev,
  unescaped (escape_scan prev content) = unescaped content.
Proof.
  induction content as [|c rest IH]; intros prev; [done|].
  cbn [escape_scan]. rewrite unescaped_app, IH.
  change (unescaped (c :: rest))
    with ((if negb (chr_eqb c BS) then [c] else []) ++ unescaped rest)
    || (unfold unescaped; cbn [List.filter]).
  destruct (special c && _) eqn:E.
  - unfold unescaped. cbn [List.filter]. rewrite chr_eqb_refl. cbn [negb].
    by destruct (negb (chr_eqb c BS)).
  - unfold unescaped. cbn [List.filter].
    by destruct (negb (chr_eqb c BS)).
Qed.

Lemma escape_scan_guarded content : ∀ prev,
  guarded (bool_decide (prev = Some BS)) (escape_scan prev content).
Proof.
  induction content as [|c rest IH]; intros prev; [done|].
  cbn [escape_scan].
  assert (Hc : chr_eqb c BS = bool_decide (Some c = Some BS)).
  { unfold chr_eqb. apply bool_decide_ext. split; [by intros ->|by intros [= ->]]. }
  destruct (special c && negb (bool_decide (prev = Some BS))) eqn:E.
  - apply andb_true_iff in E as [Es Ep]. apply negb_true_iff in Ep.
    rewrite Ep. cbn [app guarded]. split; [by intros H; vm_compute in H|].
    rewrite chr_eqb_refl. split; [done|]. rewrite Hc. apply IH.
  - cbn [app guarded]. split; [|rewrite Hc; apply IH].
    intros Hs _. rewrite Hs in E. cbn [andb] in E.
    by apply negb_false_iff in E.
Qed.

Lemma drops_refl s : drops s s.
Proof. induction s; by constructor. Qed.

Lemma drops_app a s t : drops s t → drops (a ++ s) (a ++ t).
Proof. intros H. induction a; [done|]. by constructor. Qed.

Lemma drops_unescaped s t : drops s t → unescaped t = unescaped s.
Proof.
  induction 1 as [|c s t _ IH|d s t Hd _ IH]; [done| |].
  - unfold unescaped in *. cbn [List.filter]. by rewrite IH.
  - rewrite IH. unfold unescaped. cbn [List.filter].
    by rewrite chr_eqb_refl.
Qed.

Lemma guarded_head b b' d s :
  d = "#"%char ∨ d = "|"%char → guarded b (d :: s) → guarded b' (d :: s).
Proof.
  intros Hd [_ H]. split; [|done].
  destruct Hd as [-> | ->]; [done|]. by intros H0; vm_compute in H0.
Qed.

Lemma drops_guarded s t : drops s t → ∀ b, guarded b s → guarded b t.
Proof.
  induction 1 as [|c s t _ IH|d s t Hd Hdrop IH]; intros b; [done| |].
  - intros [Hc Hs]. split; [done|]. by apply IH.
  - intros [_ Hs]. rewrite chr_eqb_refl in Hs. apply IH in Hs.
    inversion Hdrop as [|c s0 t0 Hst|d0 s0 t0 Hd0 Hst]; subst.
    + by apply (guarded_head true).
    + by destruct Hd as [?|?].
Qed.

Lemma heading_drops s : ∀ bol k,
  drops (drop k s) (sub_scan_with escaped_heading_re id bol k s).
Proof.
  induction s as [|c r IH]; intros bol k.
  { rewrite drop_nil. constructor. }
  cbn [sub_scan_with]. destruct k as [|k]; [|apply IH].
  cbn [drop]. unfold escaped_heading_re at 1.
  pose proof (span_app (chr_eqb "#") r) as Happ.
  pose proof (span_all (chr_eqb "#") r) as Hall.
  destruct (span (chr_eqb "#") r) as [hashes r']. cbn [fst snd] in *.
  assert (Hkeep : drops (c :: r)
                    (c :: sub_scan_with escaped_heading_re id (chr_eqb c NL) 0 r)).
  { constructor. apply (IH _ 0). }
  destruct r' as [|w rest]; [done|].
  destruct (chr_eqb c BS && (1 <=? length hashes)%nat
            && (length hashes <=? 6)%nat && isspace w) eqn:E; [|done].
  apply andb_true_iff in E as [E _]. apply andb_true_iff in E as [E _].
  apply andb_true_iff in E as [Ec Elen].
  apply chr_eqb_true in Ec as ->. apply Nat.leb_le in Elen.
  replace (1 + length hashes + 1) with (S (length hashes + 1)) by lia.
  destruct hashes as [|h hashes]; [cbn in Elen; lia|].
  apply Forall_cons in Hall as [Hh _]. apply chr_eqb_true in Hh as <-.
  subst r. cbn [id]. apply drops_backslash; [by left|].
  specialize (IH (chr_eqb BS NL) (length ("#"%char :: hashes) + 1)).
  rewrite (drop_app_add' ("#"%char :: hashes) (w :: rest) _ 1) in IH by done.
  cbn [drop] in IH. rewrite drop_0 in IH.
  apply (drops_app (("#"%char :: hashes) ++ [w])) in IH.
  rewrite <- (assoc app ("#"%char :: hashes) [w] rest) in IH.
  exact IH.
Qed.

Lemma bar_drops s : ∀ bol k,
  drops (drop k s) (sub_scan escaped_bar_re (s2l "|") bol k s).
Proof.
  induction s as [|c r IH]; intros bol k.
  { rewrite drop_nil. constructor. }
  cbn [sub_scan]. destruct k as [|k]; [|apply IH].
  cbn [drop]. unfold escaped_bar_re at 1.
  assert (Hkeep : drops (c :: r)
                    (c :: sub_scan escaped_bar_re (s2l "|") (chr_eqb c NL) 0 r)).
  { constructor. apply (IH _ 0). }
  destruct r as [|c' r]; [done|].
  destruct (chr_eqb c BS && chr_eqb c' "|" && existsb (chr_eqb "|") r) eqn:E;
    [|done].
  apply andb_true_iff in E as [E _]. apply andb_true_iff in E as [Ec Ec'].
  apply chr_eqb_true in Ec as ->. apply chr_eqb_true in Ec' as ->.
  apply drops_backslash; [by right|].
  change (s2l "|" ++ ?x) with ("|"%char :: x). constructor.
  apply (IH _ 1).
Qed.

(** X13. [escape_special_chars] adds and removes backslashes and nothing
    else: without its backslashes, the result is the text without its
    backslashes. *)
Theorem escaping_changes_backslashes_only content :
  unescaped (escape_special_chars content) = unescaped content.
Proof.
  unfold escape_special_chars, sub_with, sub. cbv zeta.
  pose proof (heading_drops (escape_scan None content) true 0) as H1.
  pose proof (bar_drops (sub_scan_with escaped_heading_re id true 0
                           (escape_scan None content)) true 0) as H2.
  rewrite drop_0 in H1, H2.
  rewrite (drops_unescaped _ _ H2), (drops_unescaped _ _ H1).
  apply escape_scan_unescaped.
Qed.

Lemma guarded_lookup s : ∀ b,
  guarded b s →
  ∀ i c, s !! i = Some c → special c = true → c ≠ "#"%char →
         match i with
         | 0 => b = true
         | S j => s !! j = Some BS
         end.
Proof.
  induction s as [|x s IH]; intros b Hg i c Hi Hs Hc; [done|].
  destruct Hg as [Hx Hg]. destruct i as [|i].
  - injection Hi as ->. by apply Hx.
  - specialize (IH _ Hg i c Hi Hs Hc). destruct i as [|i].
    + cbn. f_equal. by apply chr_eqb_true.
    + exact IH.
Qed.

(** X14. In the result of [escape_special_chars] every special character
    other than the hash has a backslash right before it: the result never
    starts with such a character, and it never has one after a character
    that is not a backslash. *)
Theorem special_characters_come_out_escaped content i c :
  escape_special_chars content !! i = Some c →
  special c = true → c ≠ "#"%char →
  ∃ j, i = S j ∧ escape_special_chars content !! j = Some BS.
Proof.
  intros Hi Hs Hc.
  assert (Hg : guarded false (escape_special_chars content)).
  { unfold escape_special_chars, sub_with, sub. cbv zeta.
    pose proof (heading_drops (escape_scan None content) true 0) as H1.
    pose proof (bar_drops (sub_scan_with escaped_heading_re id true 0
                             (escape_scan None content)) true 0) as H2.
    rewrite drop_0 in H1, H2.
    apply (drops_guarded _ _ H2), (drops_guarded _ _ H1).
    apply (escape_scan_guarded content None). }
  pose proof (guarded_lookup _ _ Hg i c Hi Hs Hc) as H.
  destruct i as [|j]; [done|]. by exists j.
Qed.

(** An asterisk in the middle of a text. *)
Lemma special_characters_witness :
  ∃ j, 2 = S j ∧ escape_special_chars (s2l "a*b") !! j = Some BS.
Proof.
  apply (special_characters_come_out_escaped (s2l "a*b") 2 "*"); by vm_compute.
Defined.

End EscapeFacts.

(** ** The quality checker *)

Module ReportFacts.
Import PyStr Re QualityChecker Report PyStrFacts ReFacts QualityCheckerFacts.

(** *** Searching *)

(** A match somewhere in the text is found by the scan, or one before it
    is. *)
Lemma scan_finds {A} (m : Matcher A) before : ∀ bol s n a,
  s ≠ [] → m (bol_after bol before) s = Some (S n, a) →
  scan m bol 0 (before ++ s) ≠ [].
Proof.
  induction before as [|c before IH]; intros bol s n a Hs Hm.
  - cbn [app]. change (bol_after bol []) with bol in Hm.
    destruct s as [|c s]; [done|]. cbn [scan]. by rewrite Hm.
  - cbn [app scan]. rewrite bol_after_cons in Hm.
    destruct (m bol (c :: before ++ s)) as [[[|k] x]|]; try done;
      by eapply IH.
Qed.

(** What the scan finds is a match somewhere in the text. *)
Lemma scan_found {A} (m : Matcher A) s : ∀ bol k,
  scan m bol k s ≠ [] →
  ∃ before rest n a,
    s = before ++ rest ∧ rest ≠ [] ∧
    m (bol_after bol before) rest = Some (S n, a).
Proof.
  induction s as [|c s IH]; intros bol k; [done|]. cbn [scan].
  assert (Hrest : ∀ k', scan m (chr_eqb c NL) k' s ≠ [] →
            ∃ before rest n a,
              c :: s = before ++ rest ∧ rest ≠ []
              ∧ m (bol_after bol before) rest = Some (S n, a)).
  { intros k' H. apply IH in H as (before & rest & n & a & -> & Hne & Hm).
    exists (c :: before), rest, n, a. by rewrite bol_after_cons. }
  destruct k as [|k]; [|apply Hrest].
  destruct (m bol (c :: s)) as [[[|n] a]|] eqn:Em; try apply Hrest.
  intros _. by exists [], (c :: s), n, a.
Qed.

Lemma search_spec {A} (m : Matcher A) s :
  search m s = true ↔
  ∃ before rest n a,
    s = before ++ rest ∧ rest ≠ [] ∧
    m (bol_after true before) rest = Some (S n, a).
Proof.
  unfold search, findall. split.
  - intros H. apply (scan_found m s true 0).
    by destruct (scan m true 0 s).
  - intros (before & rest & n & a & -> & Hne & Hm).
    pose proof (scan_finds m before true rest n a Hne Hm).
    by destruct (scan m true 0 (before ++ rest)).
Qed.

(** X15. In the structure report an image counts as a link: whenever
    [has_images] is set, [has_links] is set; and a text in which no heading
    is found has a proper hierarchy. *)
Theorem structure_flags_agree markdown :
  let checks := check_structure_preservation markdown in
  (has_images checks = true → has_links checks = true) ∧
  (has_headings checks = false → proper_hierarchy checks = true).
Proof.
  cbn [check_structure_preservation has_images has_links has_headings
       proper_hierarchy]. split.
  - rewrite !search_spec.
    intros (before & rest & n & a & -> & _ & Hm).
    unfold link_re in Hm.
    destruct rest as [|c rest]; [done|].
    destruct (eqc "!" c) eqn:Ec; [|done].
    destruct rest as [|c2 rest]; [done|].
    destruct (eqc "[" c2 && closes_link (span is_not_nl rest).1) eqn:E; [|done].
    exists (before ++ [c]), (c2 :: rest), 0, ().
    split; [by rewrite <- (assoc app)|]. split; [done|].
    unfold link_re. by rewrite E.
  - unfold search, _check_heading_hierarchy.
    by destruct (findall heading_re markdown).
Qed.

(** *** Scores *)

Lemma score_of_met count expected :
  (0 < expected)%Z → (expected ≤ Z.of_nat count)%Z →
  (score_of count expected == 100)%Q.
Proof.
  intros Hpos Hle. unfold score_of. apply Q.min_l.
  assert (1 <= inject_Z (Z.of_nat count) / inject_Z expected)%Q as H1.
  { apply Qle_shift_div_l.
    - change 0%Q with (inject_Z 0). by rewrite <- Zlt_Qlt.
    - rewrite Qmult_1_l. by rewrite <- Zle_Qle. }
  lra.
Qed.

Lemma score_for_met expected_elements key count :
  (∀ e, expected_elements !! key = Some e → (e ≤ Z.of_nat count)%Z) →
  Forall (λ q, (q == 100)%Q) (score_for expected_elements key count).
Proof.
  intros Hmet. unfold score_for.
  destruct (expected_elements !! key) as [e|]; [|constructor].
  destruct (Z.ltb_spec 0 e); [|constructor].
  repeat constructor. apply score_of_met; [done|by apply Hmet].
Qed.

Lemma score_for_scored expected_elements key count e :
  expected_elements !! key = Some e → (0 < e)%Z →
  score_for expected_elements key count ≠ [].
Proof.
  intros He Hpos. unfold score_for. rewrite He.
  by destruct (Z.ltb_spec 0 e); [|lia].
Qed.

Lemma mean_of_hundreds scores :
  Forall (λ q, (q == 100)%Q) scores → scores ≠ [] →
  (Qsum scores / inject_Z (Z.of_nat (length scores)) == 100)%Q.
Proof.
  intros Hall Hne.
  assert (Hsum : (Qsum scores == 100 * inject_Z (Z.of_nat (length scores)))%Q).
  { clear Hne. induction Hall as [|q l Hq _ IH]; [done|].
    cbn [Qsum foldr length]. fold (Qsum l). rewrite Hq, IH.
    rewrite Nat2Z.inj_succ, <- Z.add_1_r, inject_Z_plus. ring. }
  rewrite Hsum. field.
  destruct scores as [|q l]; [done|]. cbn [length].
  rewrite Nat2Z.inj_succ. intros H.
  assert (0 < inject_Z (Z.succ (Z.of_nat (length l))))%Q as Hpos.
  { change 0%Q with (inject_Z 0). rewrite <- Zlt_Qlt. lia. }
  rewrite H in Hpos. by apply Qlt_irrefl in Hpos.
Qed.

(** X16. When the text is not empty, at least one of the keys [headings],
    [tables], [lists] and [min_words] has a positive expected number, and
    the text has at least the expected number of every key given, the
    accuracy score is 100. *)
Theorem accuracy_is_100_when_expectations_are_met markdown expected_elements :
  markdown ≠ [] →
  (∃ key e, key ∈ scored_keys ∧ expected_elements !! key = Some e ∧ (0 < e)%Z) →
  (∀ key e, key ∈ scored_keys → expected_elements !! key = Some e →
            (e ≤ Z.of_nat (counted markdown key))%Z) →
  (calculate_accuracy_score markdown expected_elements == 100)%Q.
Proof.
  intros Hne (key & e & Hkey & He & Hpos) Hmet.
  unfold calculate_accuracy_score.
  destruct markdown as [|c markdown]; [done|]. cbn [nonempty negb].
  set (md := c :: markdown) in *.
  set (scores := score_for expected_elements "headings" _ ++ _).
  assert (Hall : Forall (λ q, (q == 100)%Q) scores).
  { unfold scores. repeat apply Forall_app_2; apply score_for_met; intros e' He'.
    - apply (Hmet "headings" e'); [|done]. unfold scored_keys. set_solver.
    - apply (Hmet "tables" e'); [|done]. unfold scored_keys. set_solver.
    - apply (Hmet "lists" e'); [|done]. unfold scored_keys. set_solver.
    - apply (Hmet "min_words" e'); [|done]. unfold scored_keys. set_solver. }
  assert (Hsc : scores ≠ []).
  { unfold scores, scored_keys in *.
    intros Hnil. repeat apply app_eq_nil in Hnil as [? Hnil].
    apply elem_of_cons in Hkey as [->|Hkey]; [by eapply score_for_scored|].
    apply elem_of_cons in Hkey as [->|Hkey]; [by eapply score_for_scored|].
    apply elem_of_cons in Hkey as [->|Hkey]; [by eapply score_for_scored|].
    apply list_elem_of_singleton in Hkey as ->. by eapply score_for_scored. }
  pose proof (mean_of_hundreds scores Hall Hsc) as Hmean.
  by destruct scores.
Qed.

(** A first heading and the expectation of one heading. *)
Lemma accuracy_is_100_witness :
  (calculate_accuracy_score (s2l "# Title") {[ "headings" := 1%Z ]} == 100)%Q.
Proof.
  apply accuracy_is_100_when_expectations_are_met.
  - done.
  - exists "headings", 1%Z. split; [by left|]. split; [done|lia].
  - intros key e Hkey He.
    destruct (decide (key = "headings")) as [->|Hk].
    + rewrite lookup_singleton_eq in He. injection He as <-. by vm_compute.
    + by rewrite lookup_singleton_ne in He.
Defined.

Lemma ratio_mono a b s :
  (0 < s)%Z → a ≤ b →
  (inject_Z (Z.of_nat a) / inject_Z s <= inject_Z (Z.of_nat b) / inject_Z s)%Q.
Proof.
  intros Hs Hab. unfold Qdiv. apply Qmult_le_compat_r.
  - rewrite <- Zle_Qle. lia.
  - apply Qlt_le_weak, Qinv_lt_0_compat.
    change 0%Q with (inject_Z 0). by rewrite <- Zlt_Qlt.
Qed.

(** X17. For a source that is not empty, a text of more bytes never gets a
    lower completeness score. *)
Theorem completeness_grows_with_the_text markdown1 markdown2 source_size :
  (0 < source_size)%Z →
  utf8_len markdown1 ≤ utf8_len markdown2 →
  ((calculate_completeness_score markdown1 source_size).1
   <= (calculate_completeness_score markdown2 source_size).1)%Q.
Proof.
  intros Hs Hlen. unfold calculate_completeness_score.
  destruct (Z.eqb_spec source_size 0) as [?|_]; [lia|].
  pose proof (ratio_mono _ _ _ Hs Hlen) as Hr.
  set (r1 := (inject_Z (Z.of_nat (utf8_len markdown1)) / inject_Z source_size)%Q) in *.
  set (r2 := (inject_Z (Z.of_nat (utf8_len markdown2)) / inject_Z source_size)%Q) in *.
  repeat match goal with
  | |- context [Qlt_le_dec ?a ?b] => destruct (Qlt_le_dec a b)
  end; cbn [fst]; try lra; try (by vm_compute).
Qed.

(** A text of 3 bytes and one of 50 for a source of 100 bytes: the scores
    are 30 and 85. *)
Lemma completeness_grows_witness :
  utf8_len (s2l "abc") ≤ utf8_len (rep "a" 50) ∧
  ((calculate_completeness_score (s2l "abc") 100).1
   <= (calculate_completeness_score (rep "a" 50) 100).1)%Q.
Proof.
  assert (H : utf8_len (s2l "abc") ≤ utf8_len (rep "a" 50))
    by (vm_compute; lia).
  split; [exact H|].
  exact (completeness_grows_with_the_text (s2l "abc") (rep "a" 50) 100
           eq_refl H).
Defined.

(** *** Issues *)

Lemma run_of_ten_search c markdown :
  search (run_at_least 10 (eqc c)) markdown = true ↔ has_run_of_ten c markdown.
Proof.
  rewrite search_spec. unfold has_run_of_ten, run_at_least. split.
  - intros (before & rest & n & a & -> & _ & Hm).
    pose proof (span_app (eqc c) rest) as Happ.
    pose proof (span_all (eqc c) rest) as Hall.
    destruct (span (eqc c) rest) as [run after]. cbn [fst snd] in *.
    destruct (Nat.leb_spec 10 (length run)) as [Hlen|]; [|done].
    apply (run_is_rep c) in Hall.
    exists before, (rep c (length run - 10) ++ after).
    rewrite <- Happ, Hall. unfold rep.
    rewrite length_replicate, (assoc app (replicate 10 c)), <- replicate_add.
    do 3 f_equal. lia.
  - intros (before & after & ->).
    pose proof (span_app (eqc c) (rep c 10 ++ after)) as Happ.
    pose proof (span_stops (eqc c) (rep c 10 ++ after)) as Hst.
    destruct (span (eqc c) (rep c 10 ++ after)) as [run rest] eqn:Es.
    cbn [fst snd] in *.
    assert (10 ≤ length run) as Hlen.
    { destruct (Nat.le_gt_cases 10 (length run)) as [?|Hlt]; [done|]. exfalso.
      apply (f_equal (drop (length run))) in Happ.
      rewrite drop_app_length in Happ. subst rest.
      rewrite drop_app_le in Hst by (unfold rep; rewrite length_replicate; lia).
      unfold rep in Hst. rewrite drop_replicate in Hst.
      destruct (10 - length run) as [|k] eqn:Ek; [lia|].
      cbn in Hst. unfold eqc in Hst. by rewrite chr_eqb_refl in Hst. }
    exists before, (rep c 10 ++ after), (length run - 1), ().
    split; [done|]. split; [done|]. rewrite Es.
    destruct (Nat.leb_spec 10 (length run)); [|lia].
    do 2 f_equal. lia.
Qed.

(** X18. The warning about repeated characters is among the issues exactly
    when the text has ten full stops in a row or ten underscores in a
    row. *)
Theorem repeated_characters_issue markdown :
  "Excessive repeated characters (possible OCR error)"
    ∈ detect_conversion_issues markdown
  ↔ has_run_of_ten "." markdown ∨ has_run_of_ten "_" markdown.
Proof.
  rewrite <- !run_of_ten_search. unfold detect_conversion_issues.
  rewrite !elem_of_app. split.
  - intros [H|[H|[H|[H|[H|H]]]]].
    + destruct (_ && _); [|by apply elem_of_nil in H].
      apply list_elem_of_singleton in H. discriminate.
    + destruct (_ || _) eqn:E; [|by apply elem_of_nil in H].
      by apply orb_true_iff in E.
    + cbv zeta in H. destruct (nonempty_list _); [|by apply elem_of_nil in H].
      apply list_elem_of_singleton in H. discriminate.
    + destruct (_ <? _)%nat; [|by apply elem_of_nil in H].
      apply list_elem_of_singleton in H. discriminate.
    + cbv zeta in H. destruct (_ <? _)%nat; [|by apply elem_of_nil in H].
      apply list_elem_of_singleton in H. discriminate.
    + destruct (_ <? _)%nat; [|by apply elem_of_nil in H].
      apply list_elem_of_singleton in H. discriminate.
  - intros H. right. left. apply orb_true_iff in H. rewrite H.
    by apply list_elem_of_singleton.
Qed.

End ReportFacts.

(** ** The conversion service *)

Module DoclingServiceFacts.
Import PyStr Re Tables DoclingService PyStrFacts TextFacts PrettyFacts ReFacts ReportFacts.

(** *** Image references *)

Lemma insert3 {A} (p : nat) (a b c : A) (l : list A) :
  p ≤ length l →
  list_insert (p + 2) c (list_insert (p + 1) b (list_insert p a l))
  = take p l ++ a :: b :: c :: drop p l.
Proof.
  intros Hp. unfold list_insert.
  assert (Hlen : length (take p l) = p) by (by apply length_take_le).
  rewrite (take_app_ge (take p l)), (drop_app_ge (take p l)) by lia.
  rewrite Hlen. replace (p + 1 - p) with 1 by lia. cbn [take drop].
  rewrite drop_0, take_0.
  rewrite (take_app_ge (take p l ++ [a])), (drop_app_ge (take p l ++ [a]))
    by (rewrite length_app; cbn [length]; lia).
  rewrite length_app, Hlen. cbn [length].
  replace (p + 2 - (p + 1)) with 1 by lia. cbn [take drop].
  rewrite drop_0, take_0. by rewrite <- !(assoc app).
Qed.

Lemma image_ref_no_nl idx image_path :
  NL ∉ image_path → NL ∉ image_ref idx image_path.
Proof.
  intros Hp. unfold image_ref. rewrite !elem_of_app.
  intros [H|[H|[H|[H|H]]]]; try done.
  - revert H. cbn. rewrite !elem_of_cons.
    by intros [?|[?|[?|[?|[?|[?|[?|[?|?%elem_of_nil]]]]]]]].
  - pose proof (pretty_digits (idx + 1)) as Hd.
    rewrite Forall_forall in Hd. by apply Hd in H.
  - revert H. cbn. rewrite !elem_of_cons. by intros [?|[?|?%elem_of_nil]].
  - revert H. cbn. rewrite !elem_of_cons. by intros [?|?%elem_of_nil].
Qed.

Lemma insert_reference_split markdown image_ref position :
  NL ∉ image_ref →
  split_lines (_insert_image_reference markdown image_ref position)
  = take ((position * 10) `min` length (split_lines markdown))
         (split_lines markdown)
    ++ [] :: image_ref :: []
    :: drop ((position * 10) `min` length (split_lines markdown))
            (split_lines markdown).
Proof.
  intros Href. unfold _insert_image_reference. cbv zeta.
  rewrite insert3 by lia. apply split_join_lines.
  - by destruct (take _ _).
  - pose proof (split_lines_parts markdown) as Hl.
    apply Forall_app. split; [by apply Forall_take|].
    repeat apply Forall_cons_2; try done; try (by intros ?%elem_of_nil).
    by apply Forall_drop.
Qed.

Lemma insert_references_split extracted_images : ∀ markdown idx,
  Forall (λ image_path, NL ∉ image_path) extracted_images →
  split_lines (insert_references markdown idx extracted_images)
  = insert_reference_lines (split_lines markdown) idx extracted_images.
Proof.
  induction extracted_images as [|image_path rest IH]; intros markdown idx;
    [done|].
  intros [Hp Hrest]%Forall_cons. cbn [insert_references insert_reference_lines].
  rewrite IH by done.
  by rewrite insert_reference_split by (by apply image_ref_no_nl).
Qed.

Lemma insert_reference_lines_spec extracted_images : ∀ lines idx,
  let final := insert_reference_lines lines idx extracted_images in
  length final = length lines + 3 * length extracted_images ∧
  lines `sublist_of` final ∧
  (∀ j, j < (idx * 10) `min` length lines → final !! j = lines !! j) ∧
  (∀ i image_path, extracted_images !! i = Some image_path →
     let k := ((idx + i) * 10) `min` (length lines + 3 * i) in
     final !! k = Some [] ∧
     final !! (k + 1) = Some (image_ref (idx + i) image_path) ∧
     final !! (k + 2) = Some []).
Proof.
  induction extracted_images as [|image_path rest IH]; intros lines idx.
  { cbn. split; [lia|]. split; [done|]. split; [done|]. by intros i p ?. }
  cbn [insert_reference_lines]. cbv zeta.
  set (q := (idx * 10) `min` length lines).
  set (lines' := take q lines ++ [] :: image_ref idx image_path :: []
                 :: drop q lines).
  assert (Hq : q ≤ length lines) by (unfold q; lia).
  assert (Htake : length (take q lines) = q) by (by apply length_take_le).
  assert (Hlen' : length lines' = length lines + 3).
  { unfold lines'. rewrite length_app. cbn [length].
    rewrite Htake, length_drop. lia. }
  destruct (IH lines' (S idx)) as (IH1 & IH2 & IH3 & IH4).
  assert (Hkeep : ∀ j, j < q + 3 →
            insert_reference_lines lines' (S idx) rest !! j = lines' !! j).
  { intros j Hj. apply IH3. rewrite Hlen'. unfold q in *. lia. }
  split; [rewrite IH1, Hlen'; cbn [length]; lia|].
  split.
  { etrans; [|exact IH2]. unfold lines'.
    rewrite <- (take_drop q lines) at 1.
    apply sublist_app; [done|]. by do 3 apply sublist_cons. }
  split.
  { intros j Hj. rewrite Hkeep by lia. unfold lines'.
    rewrite lookup_app_l by lia. by apply lookup_take_lt. }
  intros i p Hi. destruct i as [|i].
  - injection Hi as ->. cbn [length].
    replace (((idx + 0) * 10) `min` (length lines + 3 * 0)) with q
      by (unfold q; lia).
    replace (idx + 0) with idx by lia.
    rewrite !Hkeep by lia. unfold lines'.
    rewrite !lookup_app_r by lia. rewrite Htake.
    replace (q - q) with 0 by lia. replace (q + 1 - q) with 1 by lia.
    replace (q + 2 - q) with 2 by lia. done.
  - specialize (IH4 i p Hi). cbv zeta in IH4.
    replace ((S idx + i) * 10) with ((idx + S i) * 10) in IH4 by lia.
    replace (length lines' + 3 * i) with (length lines + 3 * S i) in IH4 by lia.
    by replace (S idx + i) with (idx + S i) in IH4 by lia.
Qed.

(** X19. The loop that puts the image references into the text adds three
    lines for each image, keeps the lines of the text in their order, and
    puts the reference of image [i], between two empty lines, at line
    [min (10 i) (n + 3 i) + 1] of the result, [n] being the number of lines
    of the text: the references follow each other in the order of the
    images. The paths hold no line feed. *)
Theorem image_references_are_inserted_in_order markdown extracted_images :
  Forall (λ image_path, NL ∉ image_path) extracted_images →
  let final := split_lines (insert_references markdown 0 extracted_images) in
  let n := length (split_lines markdown) in
  length final = n + 3 * length extracted_images ∧
  split_lines markdown `sublist_of` final ∧
  ∀ i image_path, extracted_images !! i = Some image_path →
    final !! (reference_line n i - 1) = Some [] ∧
    final !! reference_line n i = Some (image_ref i image_path) ∧
    final !! (reference_line n i + 1) = Some [].
Proof.
  intros Hnl final n. unfold final. rewrite insert_references_split by done.
  destruct (insert_reference_lines_spec extracted_images (split_lines markdown) 0)
    as (H1 & H2 & _ & H4).
  split; [done|]. split; [done|].
  intros i p Hi. specialize (H4 i p Hi). cbv zeta in H4. fold n in H4.
  unfold reference_line. cbn [Nat.add] in H4.
  replace ((i * 10) `min` (n + 3 * i) + 1 - 1)
    with ((i * 10) `min` (n + 3 * i)) by lia.
  replace ((i * 10) `min` (n + 3 * i) + 1 + 1)
    with ((i * 10) `min` (n + 3 * i) + 2) by lia.
  done.
Qed.

(** Two images in a text of two lines. *)
Lemma image_references_witness :
  let final :=
    split_lines (insert_references (s2l "a" ++ [NL] ++ s2l "b") 0
                                   [s2l "/uploads/images/d_img_1_0a.png";
                                    s2l "/uploads/images/d_img_2_0b.png"]) in
  length final = 2 + 3 * 2 ∧
  final !! 1 = Some (image_ref 0 (s2l "/uploads/images/d_img_1_0a.png")) ∧
  final !! 6 = Some (image_ref 1 (s2l "/uploads/images/d_img_2_0b.png")).
Proof.
  assert (Hnl : Forall (λ image_path, NL ∉ image_path)
                  [s2l "/uploads/images/d_img_1_0a.png";
                   s2l "/uploads/images/d_img_2_0b.png"]).
  { repeat constructor; apply (bool_decide_unpack _); by vm_compute. }
  destruct (image_references_are_inserted_in_order
              (s2l "a" ++ [NL] ++ s2l "b") _ Hnl) as (H1 & _ & H3).
  split; [exact H1|]. split.
  - exact (proj1 (proj2 (H3 0 _ eq_refl))).
  - exact (proj1 (proj2 (H3 1 _ eq_refl))).
Defined.

(** *** The accuracy of the service *)

(** X20. The accuracy that the service reports is 0 for an empty text or a
    source file of no bytes, and lies between 50 and 95 otherwise. *)
Theorem service_accuracy_is_0_or_between_50_and_95 markdown file_size :
  (markdown = [] ∨ file_size = 0%N →
   _calculate_accuracy markdown file_size = 0%Q) ∧
  (markdown ≠ [] → file_size ≠ 0%N →
   (50 <= _calculate_accuracy markdown file_size)%Q ∧
   (_calculate_accuracy markdown file_size <= 95)%Q).
Proof.
  unfold _calculate_accuracy. split.
  - intros [-> | ->]; [done|]. by destruct markdown.
  - intros Hm Hf. destruct markdown as [|c markdown]; [done|].
    cbn [nonempty negb]. destruct (N.eqb_spec file_size 0) as [?|_]; [done|].
    set (ratio := (_ / _)%Q).
    destruct (Qlt_le_dec ratio (1 # 10)) as [?|Hlo]; [split; lra|].
    destruct (Qlt_le_dec 1 ratio) as [?|Hhi]; [split; lra|].
    split.
    + apply Q.min_glb; lra.
    + apply Q.le_min_l.
Qed.

(** *** Tables *)

Lemma separator_line_chars widths c :
  c ∈ separator_line widths → c = "|"%char ∨ c = "-"%char.
Proof.
  unfold separator_line. rewrite !elem_of_app.
  intros [H|[H|H]].
  - apply list_elem_of_singleton in H. by left.
  - apply elem_of_join in H as [H|(part & Hp & Hx)].
    + apply list_elem_of_singleton in H. by left.
    + apply list_elem_of_fmap in Hp as (w & -> & _).
      apply FormatterFacts.elem_of_rep in Hx. by right.
  - apply list_elem_of_singleton in H. by left.
Qed.

Lemma separator_line_shape widths :
  widths ≠ [] →
  ∃ body rest,
    separator_line widths = "|"%char :: "-"%char :: body ++ "|"%char :: rest ∧
    Forall (λ c, c = "|"%char ∨ c = "-"%char) body.
Proof.
  intros Hne. destruct widths as [|w widths]; [done|].
  pose proof (separator_line_chars (w :: widths)) as Hchars.
  unfold separator_line in *.
  destruct widths as [|w' widths].
  - exists (rep "-" (w + 1)), []. split.
    + cbn [fmap list_fmap join app s2l list_ascii_of_string].
      replace (w + 2) with (S (w + 1)) by lia. done.
    + apply Forall_forall. intros c ->%FormatterFacts.elem_of_rep. by right.
  - rewrite fmap_cons, join_cons by done.
    exists (rep "-" (w + 1)),
           (join (s2l "|") ((λ width, rep "-" (width + 2)) <$> w' :: widths)
            ++ s2l "|").
    split.
    + replace (w + 2) with (S (w + 1)) by lia.
      cbn [rep replicate app s2l list_ascii_of_string].
      by rewrite <- !(assoc app).
    + apply Forall_forall. intros c ->%FormatterFacts.elem_of_rep. by right.
Qed.

Lemma is_separator_line widths :
  widths ≠ [] → is_separator (separator_line widths) = true.
Proof.
  intros Hne. pose proof (separator_line_chars widths) as Hchars.
  destruct (separator_line_shape widths Hne) as (body & rest & Heq & _).
  unfold is_separator. rewrite Heq in *.
  cbn [existsb]. rewrite !chr_eqb_refl. cbn [orb andb].
  rewrite orb_true_r. cbn [andb].
  apply forallb_forall. intros c Hc%list_elem_of_In.
  destruct (Hchars c Hc) as [-> | ->]; by vm_compute.
Qed.

Lemma separator_in_table table_data header_row rows :
  table_data = header_row :: rows → header_row ≠ [] →
  separator_line (col_widths table_data header_row)
    ∈ split_lines (format_table table_data).
Proof.
  intros -> Hne. unfold format_table.
  destruct header_row as [|cell cells]; [done|].
  set (table_data := (cell :: cells) :: rows).
  set (widths := col_widths table_data (cell :: cells)).
  assert (table_lines table_data
          = header_line widths (cell :: cells) :: separator_line widths
            :: (data_line widths <$> rows)) as -> by reflexivity.
  unfold join_lines. rewrite join_cons by done. cbn [app].
  fold (split_lines (header_line widths (cell :: cells)
                     ++ NL :: join [NL] (separator_line widths
                                         :: (data_line widths <$> rows)))).
  rewrite split_lines_app_nl. apply elem_of_app. right.
  assert (Hsep : NL ∉ separator_line widths).
  { intros H. by destruct (separator_line_chars _ _ H). }
  destruct (data_line widths <$> rows) as [|row1 more].
  - cbn [join]. unfold split_lines. rewrite split_on_no_sep by done.
    by left.
  - rewrite join_cons by done. cbn [app].
    fold (split_lines (separator_line widths ++ NL :: join [NL] (row1 :: more))).
    rewrite split_lines_app_nl. apply elem_of_app. left.
    unfold split_lines. rewrite split_on_no_sep by done. by left.
Qed.

Lemma last_bar_end_some cls : ∀ i pre post,
  cls = pre ++ "|"%char :: post → 1 ≤ i + length pre →
  is_Some (QualityChecker.last_bar_end cls i).
Proof.
  induction cls as [|c cls IH]; intros i pre post Heq Hi.
  { by destruct pre. }
  cbn [QualityChecker.last_bar_end].
  destruct pre as [|x pre].
  - injection Heq as -> ->.
    destruct (QualityChecker.last_bar_end post (S i)); [done|].
    unfold QualityChecker.eqc. rewrite chr_eqb_refl.
    destruct (Nat.leb_spec 1 i); [done|]. cbn [length] in Hi. lia.
  - injection Heq as -> ->.
    destruct (IH (S i) pre post eq_refl ltac:(lia)) as [e He].
    by rewrite He.
Qed.

Lemma header_line_shape widths header_row :
  header_row ≠ [] → Forall (λ cell, NL ∉ cell) header_row →
  ∃ inner,
    header_line widths header_row = "|"%char :: inner ++ s2l "|" ∧
    NL ∉ inner.
Proof.
  intros Hne Hnl. unfold header_line.
  exists (s2l " "
          ++ join (s2l " | ")
                  (imap (λ i cell, ljust (nth i widths 0) cell) header_row)
          ++ s2l " ").
  split; [by rewrite <- !(assoc app)|].
  rewrite !elem_of_app. intros [H|[H|H]].
  - by apply list_elem_of_singleton in H.
  - apply elem_of_join in H as [H|(part & Hp & Hx)].
    + revert H. cbn. rewrite !elem_of_cons.
      by intros [?|[?|[?|?%elem_of_nil]]].
    + apply list_elem_of_lookup in Hp as (i & Hp).
      rewrite list_lookup_imap in Hp.
      destruct (header_row !! i) as [cell|] eqn:Ec; [|done].
      injection Hp as <-. unfold ljust in Hx.
      apply elem_of_app in Hx as [Hx|Hx].
      * rewrite Forall_forall in Hnl. apply (Hnl cell); [|done].
        by eapply list_elem_of_lookup_2.
      * by apply FormatterFacts.elem_of_rep in Hx.
  - by apply list_elem_of_singleton in H.
Qed.

(** X21. A table written by [format_table] is found again: when its first
    row has a cell and the cells of that row hold no line feed, the
    structure check of the quality checker sets [has_tables] on the text of
    the table, and [_count_tables] of the service counts at least one
    table in it. *)
Theorem formatted_table_is_recognised table_data header_row rows :
  table_data = header_row :: rows → header_row ≠ [] →
  Forall (λ cell, NL ∉ cell) header_row →
  QualityChecker.has_tables
    (QualityChecker.check_structure_preservation (format_table table_data))
  = true ∧
  1 ≤ _count_tables (format_table table_data).
Proof.
  intros Ht Hne Hnl. split.
  - cbn [QualityChecker.check_structure_preservation QualityChecker.has_tables].
    apply search_spec.
    set (widths := col_widths table_data header_row).
    destruct (header_line_shape widths header_row Hne Hnl)
      as (inner & Hh & Hinner).
    assert (Hw : widths ≠ []).
    { intros H. apply (f_equal length) in H. unfold widths in H.
      rewrite TablesFacts.col_widths_length in H. by destruct header_row. }
    destruct (separator_line_shape widths Hw) as (body & rest & Hs & Hbody).
    assert (Htext : ∃ tail,
              format_table table_data
              = "|"%char :: (inner ++ s2l "|") ++ NL :: "|"%char
                :: ("-"%char :: body) ++ "|"%char :: tail).
    { subst table_data. unfold format_table.
      destruct header_row as [|cell cells]; [done|].
      assert (table_lines ((cell :: cells) :: rows)
              = header_line widths (cell :: cells) :: separator_line widths
                :: (data_line widths <$> rows)) as -> by reflexivity.
      unfold join_lines. rewrite join_cons by done. rewrite Hh. cbn [app].
      destruct (data_line widths <$> rows) as [|row1 more].
      - exists rest. cbn [join]. by rewrite Hs.
      - exists (rest ++ NL :: join [NL] (row1 :: more)).
        rewrite join_cons by done. rewrite Hs. cbn [app].
        by rewrite <- !(assoc app). }
    destruct Htext as (tail & Htext).
    assert (Hcls : Forall (λ c, QualityChecker.table_sep_class c = true)
                     ("-"%char :: body)).
    { constructor; [done|]. eapply Forall_impl; [exact Hbody|].
      by intros c [-> | ->]. }
    pose proof (span_prefix QualityChecker.table_sep_class _
                  ("|"%char :: tail) Hcls) as Hspan.
    cbn [span] in Hspan.
    change (QualityChecker.table_sep_class "|") with true in Hspan.
    cbv iota in Hspan.
    destruct (span QualityChecker.table_sep_class tail) as [more after] eqn:Et.
    cbn [fst snd] in Hspan.
    destruct (last_bar_end_some (("-"%char :: body) ++ "|"%char :: more) 0
                ("-"%char :: body) more eq_refl ltac:(cbn [length]; lia))
      as [e He].
    exists [], (format_table table_data),
           (length (inner ++ s2l "|") + 2 + e), ().
    split; [done|]. split; [by rewrite Htext|].
    rewrite Htext. unfold QualityChecker.table_re.
    assert (span QualityChecker.is_not_nl ((inner ++ s2l "|") ++ NL :: "|"%char
                 :: ("-"%char :: body) ++ "|"%char :: tail)
            = (inner ++ s2l "|", NL :: "|"%char
                 :: ("-"%char :: body) ++ "|"%char :: tail)) as ->.
    { apply span_eq; [|done]. apply Forall_forall. intros c Hc.
      unfold QualityChecker.is_not_nl. apply negb_true_iff, chr_eqb_ne.
      intros ->. apply elem_of_app in Hc as [Hc|Hc]; [done|].
      by apply list_elem_of_singleton in Hc. }
    assert (existsb (QualityChecker.eqc "|") (inner ++ s2l "|") = true) as ->.
    { rewrite existsb_app. cbn. by rewrite orb_true_r. }
    change (QualityChecker.eqc "|" "|") with true. cbn [andb].
    by rewrite Hspan, He.
  - unfold _count_tables.
    apply (count_elem _ (separator_line (col_widths table_data header_row))).
    + by apply (separator_in_table table_data header_row rows).
    + apply is_separator_line. intros H. apply (f_equal length) in H.
      rewrite TablesFacts.col_widths_length in H. by destruct header_row.
Qed.

(** A table of one column with a header and a row. *)
Lemma formatted_table_witness :
  QualityChecker.has_tables
    (QualityChecker.check_structure_preservation
       (format_table [[s2l "Name"]; [s2l "Ada"]]))
  = true ∧
  1 ≤ _count_tables (format_table [[s2l "Name"]; [s2l "Ada"]]).
Proof.
  refine (formatted_table_is_recognised
            [[s2l "Name"]; [s2l "Ada"]] [s2l "Name"] [[s2l "Ada"]]
            eq_refl _ _); [done|].
  repeat constructor. apply (bool_decide_unpack _). by vm_compute.
Defined.

(** *** [convert_pdf_to_markdown] *)

Lemma convert_status_cases
    fs convert extract_images image_output_dir processing_time
    file_path document_id options :
  let result :=
    convert_pdf_to_markdown fs convert extract_images image_output_dir
                            processing_time file_path document_id options in
  (status result = "success" ∧ errors result = []) ∨
  (status result = "failed" ∧ ∃ error, errors result = [error]).
Proof.
  unfold convert_pdf_to_markdown.
  destruct (convert_try _ _ _ _ _ _ _) as [[e|e]|[[md imgs] m]]; cbn;
    [right; eauto..|by left].
Qed.

Lemma validate_first_checks fs file_path :
  (PDFConverter.validate_pdf fs file_path = (false, Some "File does not exist") →
   fs !! file_path = None) ∧
  (PDFConverter.validate_pdf fs file_path = (false, Some "File is not a PDF") →
   is_Some (fs !! file_path) ∧
   negb (bool_decide (lower (PyPath.suffix (s2l file_path)) = s2l ".pdf"))
   = true).
Proof.
  unfold PDFConverter.validate_pdf, PDFConverter.validate_pdf_try.
  destruct (fs !! file_path) as [file|]; [|by split].
  destruct (negb _); [split; [done|eauto]|].
  destruct (PDFConverter.st_size file =? 0)%N; [by split|].
  destruct (PDFConverter.max_size <? PDFConverter.st_size file)%N; [by split|].
  destruct (PDFConverter.reader file) as [[|str_e]|pdf_reader];
    [by split|by split|].
  destruct (PDFConverter.is_encrypted pdf_reader); [by split|].
  destruct (PDFConverter.num_pages pdf_reader) as [[|str_e]|n];
    [by split|by split|].
  by destruct (n =? 0).
Qed.

(** X23. The service and the validator agree on the first two checks: for
    a path that [validate_pdf] rejects as missing the conversion fails with
    the error [PDF file not found] and the path as [pathlib] prints it, and
    for a file that it rejects for its extension the conversion fails with
    [Conversion error: File must be a PDF]; in both cases the converter is
    not run. *)
Theorem conversion_fails_where_validation_does
    fs convert extract_images image_output_dir processing_time
    file_path document_id options :
  let result :=
    convert_pdf_to_markdown fs convert extract_images image_output_dir
                            processing_time file_path document_id options in
  (PDFConverter.validate_pdf fs file_path = (false, Some "File does not exist") →
   errors result
   = ["PDF file not found: " +:+ PyPath.printed_path file_path]) ∧
  (PDFConverter.validate_pdf fs file_path = (false, Some "File is not a PDF") →
   errors result = ["Conversion error: File must be a PDF"]).
Proof.
  destruct (validate_first_checks fs file_path) as [Hmissing Hext].
  unfold convert_pdf_to_markdown, convert_try. split.
  - intros H. apply Hmissing in H. by rewrite H.
  - intros H. apply Hext in H as [[file Hf] Hs]. by rewrite Hf, Hs.
Qed.

(** A path with two slashes in a row that does not exist, and a text
    file. *)
Lemma conversion_fails_witness :
  (PDFConverter.validate_pdf ∅ "/tmp//missing.pdf"
   = (false, Some "File does not exist") ∧
   errors (convert_pdf_to_markdown ∅ (λ _, inl (Exception "")) true "" 0
             "/tmp//missing.pdf" "doc-1" None)
   = ["PDF file not found: /tmp/missing.pdf"]) ∧
  (PDFConverter.validate_pdf
     {[ "notes.txt" := PDFConverter.mkFile 5 (inl PDFConverter.PdfReadError) ]}
     "notes.txt"
   = (false, Some "File is not a PDF") ∧
   errors (convert_pdf_to_markdown
             {[ "notes.txt" := PDFConverter.mkFile 5 (inl PDFConverter.PdfReadError) ]}
             (λ _, inl (Exception "")) true "" 0 "notes.txt" "doc-1" None)
   = ["Conversion error: File must be a PDF"]).
Proof.
  split.
  - assert (H : PDFConverter.validate_pdf ∅ "/tmp//missing.pdf"
                = (false, Some "File does not exist")) by done.
    split; [exact H|].
    exact (proj1 (conversion_fails_where_validation_does
                    ∅ (λ _, inl (Exception "")) true "" 0
                    "/tmp//missing.pdf" "doc-1" None) H).
  - assert (H : PDFConverter.validate_pdf
                  {[ "notes.txt" := PDFConverter.mkFile 5
                                      (inl PDFConverter.PdfReadError) ]}
                  "notes.txt"
                = (false, Some "File is not a PDF")) by (by vm_compute).
    split; [exact H|].
    exact (proj2 (conversion_fails_where_validation_does
                    {[ "notes.txt" := PDFConverter.mkFile 5
                                        (inl PDFConverter.PdfReadError) ]}
                    (λ _, inl (Exception "")) true "" 0
                    "notes.txt" "doc-1" None) H).
Defined.

End DoclingServiceFacts.

(** ** The endpoints *)

Module EndpointsFacts.
Import PyStr Api Hub Endpoints Tracked.



(** When the calls on the tracker return, the endpoint answers as the
    endpoint that takes them to return, and the tracker holds the statuses
    of the calls made. *)
Lemma convert_pdf_when_calls_return
    cwd fs str_http conv broadcast now conversion_status request :
  (∀ call, broadcast call = Returned) →
  ∃ calls,
    Api.convert_pdf cwd fs str_http conv request
    = inr ((Tracked.convert_pdf cwd fs str_http conv broadcast now
                                conversion_status request).1, calls) ∧
    (Tracked.convert_pdf cwd fs str_http conv broadcast now
                         conversion_status request).2
    = foldl (λ statuses call, (update_status broadcast now statuses call).1)
            conversion_status calls.
Proof.
  intros Hret.
  unfold Api.convert_pdf, Api.convert_pdf_try, Tracked.convert_pdf,
    Tracked.convert_pdf_try. cbv zeta.
  destruct (fs !! resolve cwd (req_filePath request)); [|by exists []].
  destruct (check_pdf_encryption fs _); [by exists []|].
  unfold update_status. rewrite !Hret.
  set (result := conv _ _ _).
  destruct (bool_decide (status result = "success")); [by eexists|].
  destruct (bool_decide (status result = "failed")); by eexists.
Qed.

Section Convert.

Variable cwd : string.
Variable fs : PDFConverter.FileSystem.
Variable str_http : nat → string → string.
Variable convert : string → DoclingService.Raised + DoclingService.Document.
Variable extract_images : bool.
Variable image_output_dir : string.
Variable processing_time : Q.
Variable render : DoclingService.Metadata → gmap string string.
Variable broadcast : TrackerCall → Awaited.
Variable now : TrackerCall → string.

(** X25. The conversion endpoint with the conversion service behind it.
    When no call on the status tracker raises, a request ends with the
    statuses untouched (the file is missing or encrypted), or with a body
    of status [success] and the document [completed], or with a body of
    status [failed] and the document [failed] with the one error of the
    body in its message. When the broadcast of [start_conversion] raises,
    the request is answered with a failed body that carries the text of
    the exception, [fail_conversion] is not called and the document stays
    [processing]; a request that is answered leaves a document
    [processing] in no other way. *)
Theorem conversion_is_announced_unless_a_call_raises conversion_status request :
  let document_id := req_documentId request in
  let file_path := resolve cwd (req_filePath request) in
  let '(body, conversion_status') :=
    served cwd fs str_http convert extract_images image_output_dir
           processing_time render broadcast now conversion_status request in
  ((∀ call, broadcast call = Returned) →
   conversion_status' = conversion_status ∨
   (status body = "success" ∧
    status_of conversion_status' document_id = Some "completed") ∨
   (∃ error,
      status body = "failed" ∧ errors body = [error] ∧
      status_of conversion_status' document_id = Some "failed" ∧
      ev_message <$> conversion_status' !! document_id
      = Some ("Conversion failed: " +:+ error))) ∧
  (∀ str_e,
     is_Some (fs !! file_path) → check_pdf_encryption fs file_path = false →
     broadcast (StartConversion document_id) = Raised str_e →
     body = mkResponse document_id "" [] ∅ "failed" [str_e] ∧
     status_of conversion_status' document_id = Some "processing") ∧
  (status_of conversion_status' document_id = Some "processing" →
   status_of conversion_status document_id = Some "processing" ∨
   ∃ str_e, broadcast (StartConversion document_id) = Raised str_e).
Proof.
  intros document_id file_path.
  unfold served, convert_pdf, convert_pdf_try. cbv zeta.
  fold document_id file_path.
  destruct (fs !! file_path) as [file|] eqn:Ef.
  2:{ split; [by left|]. split; [by intros ? [? ?]|by left]. }
  destruct (check_pdf_encryption fs file_path) eqn:Ee.
  { split; [by left|]. split; [done|by left]. }
  unfold update_status at 1. cbn [status_update ev_documentId].
  destruct (broadcast (StartConversion document_id)) as [|str_e] eqn:Es.
  2:{ cbv beta iota. unfold status_of. rewrite lookup_insert_eq.
      split; [intros H; by rewrite H in Es|]. split; [|eauto].
      by intros e _ _ [= <-]. }
  pose proof (DoclingServiceFacts.convert_status_cases
                fs convert extract_images image_output_dir processing_time
                file_path document_id (req_options request)) as H.
  cbv zeta in H.
  set (result := DoclingService.convert_pdf_to_markdown _ _ _ _ _ _ _ _) in *.
  cbn [status errors response_of metadata].
  destruct H as [[Hs He]|[Hs [error He]]]; rewrite Hs, ?He.
  - rewrite bool_decide_true by done.
    unfold update_status. cbn [status_update ev_documentId].
    destruct (broadcast (CompleteConversion _ _)) as [|str_e] eqn:Ec;
      cbv beta iota; unfold status_of; rewrite lookup_insert_eq.
    + split; [|split; [done|done]]. intros _. right. left.
      cbn [status response_of]. by rewrite Hs.
    + split; [intros H; by rewrite H in Ec|]. split; [done|done].
  - rewrite bool_decide_false by done. rewrite bool_decide_true by done.
    cbn [head default].
    unfold update_status. cbn [status_update ev_documentId].
    destruct (broadcast (FailConversion _ _)) as [|str_e] eqn:Ec;
      cbv beta iota; unfold status_of; rewrite lookup_insert_eq.
    + split; [|split; [done|done]]. intros _. right. right. exists error.
      cbn [status errors response_of]. by rewrite Hs, He.
    + split; [intros H; by rewrite H in Ec|]. split; [done|done].
Qed.

End Convert.

(** A request for [doc.pdf] in the directory [/srv] whose start cannot be
    broadcast is answered as failed, and its document stays in the state
    [processing]. *)
Lemma conversion_left_processing_witness :
  (is_Some (fs_one_pdf !! resolve "/srv" "doc.pdf") ∧
   check_pdf_encryption fs_one_pdf (resolve "/srv" "doc.pdf") = false ∧
   start_raises (StartConversion "doc-1")
   = Raised "Set changed size during iteration") ∧
  (served "/srv" fs_one_pdf starlette_str (λ _, inl (DoclingService.Exception ""))
          true "" 0 (λ _, ∅) start_raises (λ _, "t0") ∅
          (mkRequest "doc-1" "doc.pdf" None)).1
  = mkResponse "doc-1" "" [] ∅ "failed" ["Set changed size during iteration"] ∧
  status_of
    (served "/srv" fs_one_pdf starlette_str (λ _, inl (DoclingService.Exception ""))
            true "" 0 (λ _, ∅) start_raises (λ _, "t0") ∅
            (mkRequest "doc-1" "doc.pdf" None)).2
    "doc-1"
  = Some "processing".
Proof.
  assert (H1 : is_Some (fs_one_pdf !! resolve "/srv" "doc.pdf"))
    by (vm_compute; by eexists).
  assert (H2 : check_pdf_encryption fs_one_pdf (resolve "/srv" "doc.pdf") = false)
    by (by vm_compute).
  assert (H3 : start_raises (StartConversion "doc-1")
               = Raised "Set changed size during iteration") by done.
  split; [by repeat split|].
  pose proof (conversion_is_announced_unless_a_call_raises
                "/srv" fs_one_pdf starlette_str
                (λ _, inl (DoclingService.Exception "")) true "" 0 (λ _, ∅)
                start_raises (λ _, "t0") ∅ (mkRequest "doc-1" "doc.pdf" None))
    as H.
  cbv zeta in H.
  destruct (served _ _ _ _ _ _ _ _ _ _ _ _) as [body st'].
  destruct H as (_ & H & _).
  destruct (H _ H1 H2 H3) as [-> Hst]. split; [done|exact Hst].
Defined.

End EndpointsFacts.

(** ** The readers and the images *)

Module PDFReadersFacts.
Import PyStr PDFConverter PDFReaders.

Lemma extract_pages_sections texts : ∀ page_num text,
  extract_pages page_num (Some <$> texts) text
  = text ++ sections page_num texts.
Proof.
  induction texts as [|page_text texts IH]; intros page_num text.
  - by rewrite app_nil_r.
  - cbn [fmap list_fmap extract_pages]. rewrite IH.
    unfold sections. rewrite imap_cons, concat_cons.
    replace (page_num + 0) with page_num by lia.
    assert (imap ((λ i page_text0, if nonempty page_text0
                                   then page_section (page_num + i) page_text0
                                   else []) ∘ S) texts
            = imap (λ i page_text0, if nonempty page_text0
                                    then page_section (S page_num + i) page_text0
                                    else []) texts) as ->.
    { apply imap_ext. intros i x _. cbn.
      by replace (page_num + S i) with (S (page_num + i)) by lia. }
    destruct (nonempty page_text); [by rewrite <- (assoc app)|done].
Qed.

Lemma extract_pages_failure texts rest : ∀ page_num text,
  extract_pages page_num ((Some <$> texts) ++ None :: rest) text
  = extract_pages page_num (Some <$> texts) text.
Proof.
  induction texts as [|page_text texts IH]; intros page_num text; [done|].
  cbn [fmap list_fmap app extract_pages]. apply IH.
Qed.

(** X26. The fallback extraction writes a section, headed by the number of
    the page counted from 1, for every page that has a text; when reading
    a page fails, it returns the sections of the pages before it, and when
    the file cannot be opened it returns the empty text. *)
Theorem fallback_text_keeps_the_pages_before_a_failure :
  (∀ texts, extract_text_fallback (Some (Some <$> texts)) = sections 0 texts) ∧
  (∀ texts rest,
     extract_text_fallback (Some ((Some <$> texts) ++ None :: rest))
     = sections 0 texts) ∧
  extract_text_fallback None = [].
Proof.
  split; [|split; [|done]].
  - intros texts. apply (extract_pages_sections texts 0 []).
  - intros texts rest. cbn [extract_text_fallback].
    rewrite extract_pages_failure. apply (extract_pages_sections texts 0 []).
Qed.

(** X27. For a file that [validate_pdf] accepts, [get_pdf_metadata]
    reports at least one page, also when the information dictionary
    cannot be read, and it reports the page count that the validator
    counted; for a path that does not exist it returns the dictionary of
    defaults. *)
Theorem metadata_of_a_valid_pdf_has_pages fs info file_path :
  (validate_pdf fs file_path = (true, None) →
   1 ≤ pages (get_pdf_metadata fs info file_path) ∧
   ∃ file pdf_reader,
     fs !! file_path = Some file ∧ reader file = inr pdf_reader ∧
     num_pages pdf_reader = inr (pages (get_pdf_metadata fs info file_path))) ∧
  (fs !! file_path = None → get_pdf_metadata fs info file_path = no_metadata).
Proof.
  split.
  - intros H.
    assert (∃ file pdf_reader n,
              fs !! file_path = Some file ∧ reader file = inr pdf_reader ∧
              num_pages pdf_reader = inr (S n)) as (file & pdf_reader & n & Ef & Er & En).
    { revert H. unfold validate_pdf, validate_pdf_try.
      destruct (fs !! file_path) as [file|] eqn:Ef; [|done].
      destruct (negb _); [done|].
      destruct (st_size file =? 0)%N; [done|].
      destruct (max_size <? st_size file)%N; [done|].
      destruct (reader file) as [[|str_e]|pdf_reader] eqn:Er; [done|done|].
      destruct (is_encrypted pdf_reader); [done|].
      destruct (num_pages pdf_reader) as [[|str_e]|n] eqn:En; [done|done|].
      destruct n as [|n]; [done|]. intros _. by exists file, pdf_reader, n. }
    assert (pages (get_pdf_metadata fs info file_path) = S n) as ->.
    { unfold get_pdf_metadata. rewrite Ef. cbn [fmap option_fmap option_map].
      rewrite Er, En.
      destruct (info file_path) as [?|[d|]]; [done| |done].
      by case_bool_decide. }
    split; [lia|]. by exists file, pdf_reader.
  - intros Hf. unfold get_pdf_metadata. by rewrite Hf.
Qed.

End PDFReadersFacts.

Module PageImagesFacts.
Import PyStr Images PageImages TextFacts PrettyFacts.

Lemma pretty_nat_no_underscore (n : nat) : "_"%char ∉ s2l (pretty n).
Proof.
  intros H. pose proof (pretty_digits n) as Hd.
  rewrite Forall_forall in Hd. by apply Hd in H.
Qed.

Lemma pretty_Z_no_underscore (z : Z) : "_"%char ∉ s2l (pretty z).
Proof.
  unfold pretty, pretty_Z. destruct z as [|p|p].
  - by intros [?|?%elem_of_nil]%elem_of_cons.
  - intros H.
    assert (Forall (λ c, isdigit c = true) (s2l (pretty (N.pos p)))) as Hd.
    { unfold pretty, pretty_N. case_decide; [done|].
      apply pretty_N_go_digits. constructor. }
    rewrite Forall_forall in Hd. by apply Hd in H.
  - rewrite s2l_app. intros [H|H]%elem_of_app.
    + by apply list_elem_of_singleton in H.
    + assert (Forall (λ c, isdigit c = true) (s2l (pretty (N.pos p)))) as Hd.
      { unfold pretty, pretty_N. case_decide; [done|].
        apply pretty_N_go_digits. constructor. }
      rewrite Forall_forall in Hd. by apply Hd in H.
Qed.

(** The name of the file tells the page and the place of the image. *)
Lemma image_index_inj page_num idx tail page_num' idx' tail' :
  image_index page_num idx +:+ "_" +:+ tail
  = image_index page_num' idx' +:+ "_" +:+ tail' →
  page_num = page_num' ∧ idx = idx'.
Proof.
  intros H. apply (f_equal s2l) in H. unfold image_index in H.
  rewrite !s2l_app in H. rewrite <- !(assoc app) in H.
  change (s2l "_") with ["_"%char] in H. cbn [app] in H.
  apply first_separator in H as [Hp H]; [|apply pretty_Z_no_underscore..].
  apply first_separator in H as [Hi _]; [|apply pretty_nat_no_underscore..].
  apply s2l_inj, (inj pretty) in Hp. apply s2l_inj, (inj pretty) in Hi.
  split; [done|lia].
Qed.

Lemma save_image_path output_dir opened save_ok image_data document_id
    image_index format saved :
  save_image output_dir opened save_ok image_data document_id image_index
             format = Some saved →
  relative_path saved
  = "/uploads/images/" +:+ document_id +:+ "_img_" +:+ image_index +:+ "_"
    +:+ image_hash image_data +:+ "." +:+ lower_string format.
Proof.
  unfold save_image. destruct opened; [|done]. destruct save_ok; [|done].
  by intros [= <-].
Qed.

Lemma extract_loop_paths output_dir document_id page_num images : ∀ idx path,
  path ∈ extract_loop output_dir document_id page_num idx images →
  ∃ i tail, idx ≤ i ∧
    path = "/uploads/images/" +:+ document_id +:+ "_img_"
           +:+ image_index page_num i +:+ "_" +:+ tail.
Proof.
  induction images as [|[image|] rest IH]; intros idx path;
    cbn [extract_loop]; try (by intros ?%elem_of_nil).
  assert (Hrest : path ∈ extract_loop output_dir document_id page_num (S idx) rest →
            ∃ i tail, idx ≤ i ∧
              path = "/uploads/images/" +:+ document_id +:+ "_img_"
                     +:+ image_index page_num i +:+ "_" +:+ tail).
  { intros H. apply IH in H as (i & tail & Hi & ->).
    exists i, tail. split; [lia|done]. }
  destruct (data image) as [image_data|]; [|done].
  destruct (save_image _ _ _ _ _ _ _) as [saved|] eqn:Es; [|done].
  intros [->|H]%elem_of_cons; [|by apply Hrest].
  apply save_image_path in Es. eexists idx, _. split; [lia|exact Es].
Qed.

Lemma extract_loop_NoDup output_dir document_id page_num images : ∀ idx,
  NoDup (extract_loop output_dir document_id page_num idx images).
Proof.
  induction images as [|[image|] rest IH]; intros idx; cbn [extract_loop];
    try constructor.
  destruct (data image) as [image_data|]; [|apply IH].
  destruct (save_image _ _ _ _ _ _ _) as [saved|] eqn:Es; [|apply IH].
  constructor; [|apply IH].
  intros Hin. apply extract_loop_paths in Hin as (i & tail & Hi & Hp).
  apply save_image_path in Es. rewrite Es in Hp.
  do 3 apply (inj (String.append _)) in Hp.
  apply image_index_inj in Hp as [_ ->]. lia.
Qed.

(** X28. The paths that [extract_images_from_page] returns for a page are
    all different: an image is saved under a name that holds the number of
    the page and its place on the page, so no image of the page overwrites
    another one; and every path returned is in [/uploads/images/] and
    starts with the document identifier and [_img_]. *)
Theorem page_images_get_different_files
    output_dir images document_id page_num :
  NoDup (extract_images_from_page output_dir images document_id page_num) ∧
  ∀ path,
    path ∈ extract_images_from_page output_dir images document_id page_num →
    ∃ i tail,
      path = "/uploads/images/" +:+ document_id +:+ "_img_"
             +:+ image_index page_num i +:+ "_" +:+ tail.
Proof.
  unfold extract_images_from_page. destruct images as [images|].
  - split; [apply extract_loop_NoDup|].
    intros path H. apply extract_loop_paths in H as (i & tail & _ & ->).
    by exists i, tail.
  - split; [constructor|]. by intros path ?%elem_of_nil.
Qed.

End PageImagesFacts.

Module MD5Facts.
Import PyStr MD5 Images HashNames.

Lemma length_le_bytes n x : length (le_bytes n x) = n.
Proof. revert x. induction n as [|n IH]; intros x; [done|]. cbn. by rewrite IH. Qed.

Lemma le_bytes_range n : ∀ x, Forall (λ b, (0 ≤ b < 256)%Z) (le_bytes n x).
Proof.
  induction n as [|n IH]; intros x; [constructor|]. cbn [le_bytes].
  constructor; [|apply IH]. apply Z.mod_pos_bound. lia.
Qed.

Lemma digest_bytes data :
  length (digest data) = 16 ∧ Forall (λ b, (0 ≤ b < 256)%Z) (digest data).
Proof.
  unfold digest. cbv zeta.
  destruct (foldl block _ _) as [[[a b] c] d].
  split.
  - by rewrite !length_app, !length_le_bytes.
  - repeat apply Forall_app_2; apply le_bytes_range.
Qed.

Lemma hex_digit_is_hex x : (0 ≤ x < 16)%Z → is_hex (hex_digit x) = true.
Proof.
  intros Hx.
  assert (x = 0 ∨ x = 1 ∨ x = 2 ∨ x = 3 ∨ x = 4 ∨ x = 5 ∨ x = 6 ∨ x = 7 ∨
          x = 8 ∨ x = 9 ∨ x = 10 ∨ x = 11 ∨ x = 12 ∨ x = 13 ∨ x = 14 ∨
          x = 15)%Z as H by lia.
  repeat (destruct H as [->|H]; [by vm_compute|]). subst. by vm_compute.
Qed.

Lemma hexdigest_shape data :
  length (hexdigest data) = 32 ∧
  Forall (λ c, is_hex c = true) (hexdigest data).
Proof.
  unfold hexdigest. destruct (digest_bytes data) as [Hlen Hall].
  revert Hlen Hall. generalize (digest data). intros bs Hlen Hall. split.
  - assert (length (concat ((λ b, [hex_digit (b `div` 16);
                                     hex_digit (b `mod` 16)]) <$> bs))
            = 2 * length bs) as ->; [|by rewrite Hlen].
    clear. induction bs as [|b bs IH]; [done|].
    change (length (hex_digit (b `div` 16) :: hex_digit (b `mod` 16)
                    :: concat ((λ b, [hex_digit (b `div` 16);
                                      hex_digit (b `mod` 16)]) <$> bs))
            = 2 * S (length bs)).
    cbn [length]. rewrite IH. lia.
  - clear Hlen. induction Hall as [|b bs Hb _ IH]; [constructor|].
    cbn [fmap list_fmap concat app].
    constructor; [apply hex_digit_is_hex|constructor; [apply hex_digit_is_hex|exact IH]].
    + split; [apply Z.div_pos; lia|apply Z.div_lt_upper_bound; lia].
    + apply Z.mod_pos_bound. lia.
Qed.

(** X29. The hash in the name of an image file is always 8 characters
    long, each of them a digit or a letter from a to f. *)
Theorem image_hash_is_eight_hex_digits data :
  length (s2l (image_hash data)) = 8 ∧
  Forall (λ c, is_hex c = true) (s2l (image_hash data)).
Proof.
  unfold image_hash, s2l. rewrite list_ascii_of_string_of_list_ascii.
  destruct (hexdigest_shape data) as [Hlen Hall]. split.
  - rewrite length_take. lia.
  - by apply Forall_take.
Qed.

End MD5Facts.

(** ** The names of the image files *)

Module ImageFilesFacts.
Import PyStr Images HashNames TextFacts PrettyFacts ImagesFacts.

Lemma hex_not_slash c : is_hex c = true → c ≠ "/"%char.
Proof. intros H ->. by vm_compute in H. Qed.

Lemma image_hash_no_slash data : no_slash (image_hash data).
Proof.
  unfold no_slash, image_hash, s2l.
  rewrite list_ascii_of_string_of_list_ascii. intros Hin.
  apply (subseteq_take 8) in Hin.
  destruct (MD5Facts.hexdigest_shape data) as [_ Hall].
  rewrite Forall_forall in Hall. by apply Hall, hex_not_slash in Hin.
Qed.

Lemma pretty_no_slash (n : nat) : no_slash (pretty n).
Proof.
  intros H. pose proof (pretty_digits n) as Hd.
  rewrite Forall_forall in Hd. by apply Hd in H.
Qed.

Lemma code_filename_no_slash document_id index hash ext :
  no_slash document_id → no_slash index → no_slash hash → no_slash ext →
  no_slash (code_filename document_id index hash ext).
Proof.
  unfold no_slash, code_filename. rewrite !s2l_app.
  intros Hd Hi Hh He. rewrite !elem_of_app.
  intros [?|[H|[?|[H|[?|[H|?]]]]]]; try done;
    revert H; cbn; rewrite ?elem_of_cons, elem_of_nil; naive_solver.
Qed.

Lemma path_join_relative directory name :
  PyPath.is_absolute name = false →
  path_join directory name = directory +:+ "/" +:+ name.
Proof. unfold path_join. by intros ->. Qed.

Lemma code_filename_relative document_id index hash ext :
  PyPath.is_absolute document_id = false →
  PyPath.is_absolute (code_filename document_id index hash ext) = false.
Proof. unfold PyPath.is_absolute, code_filename. by destruct document_id. Qed.

Lemma no_slash_relative s : no_slash s → PyPath.is_absolute s = false.
Proof.
  unfold no_slash, PyPath.is_absolute. destruct s as [|c s]; [done|].
  cbn. intros H. apply not_elem_of_cons in H as [H _].
  unfold chr_eqb. by rewrite bool_decide_false.
Qed.

(** C9, as stated, fails in three ways. Image 1 of [doc123] gets a name with
    [_img_] between the document and the index. An image of the document
    [/tmp/doc123] is written to [/tmp], not below the image directory. And
    the hash in the name of a picture that [_extract_and_save_images] saves
    is the hash of the text the picture prints as, not of its bytes. *)
Lemma C9_counterexample :
  (save_image "/srv/public/uploads/images" (Some "RGB") true red_pixel_png
              "doc123" "1" "PNG"
   = Some (mkSaved "/srv/public/uploads/images/doc123_img_1_9d3f217f.png" false
                   "/uploads/images/doc123_img_1_9d3f217f.png") ∧
   image_hash red_pixel_png = "9d3f217f" ∧
   "/uploads/images/doc123_img_1_9d3f217f.png"
   ≠ "/uploads/images/" +:+ spec_filename "doc123" "1" "9d3f217f" "png") ∧
  (save_image "/srv/public/uploads/images" (Some "RGB") true red_pixel_png
              "/tmp/doc123" "1" "PNG"
   = Some (mkSaved "/tmp/doc123_img_1_9d3f217f.png" false
                   "/uploads/images//tmp/doc123_img_1_9d3f217f.png") ∧
   ¬ under "/srv/public/uploads/images" "/tmp/doc123_img_1_9d3f217f.png") ∧
  (_extract_and_save_images "/srv/public/uploads/images" [printed_picture]
                            "doc123"
   = [("/srv/public/uploads/images/doc123_img_1_99c7c144.png",
       "/uploads/images/doc123_img_1_99c7c144.png")] ∧
   image_hash (picture_bytes printed_picture) ≠ "99c7c144").
Proof.
  split; [|split].
  - split; [by vm_compute|]. split; [by vm_compute|]. vm_compute. discriminate.
  - split; [by vm_compute|]. intros [rest H]. vm_compute in H. discriminate.
  - split; [by vm_compute|]. vm_compute. discriminate.
Qed.

Lemma lower_chr_slash c : lower_chr c = "/"%char → c = "/"%char.
Proof.
  destruct c as [[] [] [] [] [] [] [] []]; vm_compute; congruence.
Qed.

Lemma lower_string_no_slash s : no_slash s → no_slash (lower_string s).
Proof.
  unfold no_slash, lower_string, s2l, lower.
  rewrite list_ascii_of_string_of_list_ascii.
  intros Hs Hin. apply list_elem_of_fmap in Hin as (c & Hc & Hin).
  symmetry in Hc. apply lower_chr_slash in Hc as ->. done.
Qed.

(** C9, amended. An image that [save_image] saves gets the name
    [{documentId}_img_{index}_{hash}.{ext}], where the hash is the first 8
    hexadecimal digits of the MD5 of the image bytes and the extension is
    the format in lower case; it is written to the image directory joined
    with that name, and the path returned is [/uploads/images/] and that
    name. An image that [_extract_and_save_images] saves has such a name
    with its position counted from 1, the hash of the text the picture
    prints as and the extension [png]. For both, the joined path is the
    directory, a slash and the name when the document identifier does not
    start with a slash, and the name holds no slash, so that the file lies
    in the image directory itself, when the document identifier (and the
    index and the format that [save_image] is given) hold none. *)
Theorem C9_image_files_are_named_with_img :
  (∀ output_dir opened save_ok image_data document_id image_index format r,
     save_image output_dir opened save_ok image_data document_id image_index
                format = Some r →
     let filename :=
       code_filename document_id image_index (image_hash image_data)
                     (lower_string format) in
     file_path r = path_join output_dir filename ∧
     relative_path r = "/uploads/images/" +:+ filename ∧
     (PyPath.is_absolute document_id = false →
      file_path r = output_dir +:+ "/" +:+ filename) ∧
     (no_slash document_id → no_slash image_index → no_slash format →
      file_path r = output_dir +:+ "/" +:+ filename ∧ no_slash filename)) ∧
  (∀ image_output_dir images document_id file ref,
     (file, ref) ∈ _extract_and_save_images image_output_dir images
                                            document_id →
     ∃ i picture,
       images !! i = Some picture ∧
       let filename :=
         code_filename document_id (pretty (i + 1)%nat)
                       (image_hash (encode (picture_str picture))) "png" in
       file = path_join image_output_dir filename ∧
       ref = "/uploads/images/" +:+ filename ∧
       (PyPath.is_absolute document_id = false →
        file = image_output_dir +:+ "/" +:+ filename) ∧
       (no_slash document_id →
        file = image_output_dir +:+ "/" +:+ filename ∧ no_slash filename)).
Proof.
  split.
  - intros output_dir opened save_ok data doc idx fmt r.
    unfold save_image. destruct opened as [mode|]; [|done].
    destruct save_ok; [|done]. intros [= <-]. cbn [file_path relative_path].
    split; [done|]. split; [done|]. split.
    + intros Habs. by apply path_join_relative, code_filename_relative.
    + intros Hd Hi Hf. split.
      * by apply path_join_relative, code_filename_relative,
          no_slash_relative.
      * apply code_filename_no_slash;
          [done|done|apply image_hash_no_slash|by apply lower_string_no_slash].
  - intros dir images doc file ref Hin.
    apply extract_loop_spec in Hin as (i & pic & Hi & _ & Hfile & Href).
    exists i, pic. split; [done|]. split; [done|]. split; [done|]. split.
    + intros Habs. rewrite Hfile.
      by apply path_join_relative, code_filename_relative.
    + intros Hd. split.
      * rewrite Hfile.
        by apply path_join_relative, code_filename_relative,
          no_slash_relative.
      * apply code_filename_no_slash;
          [done|apply pretty_no_slash|apply image_hash_no_slash|].
        apply (bool_decide_unpack (no_slash "png")). by vm_compute.
Qed.

(** The image of the counterexample, by the amended claim. *)
Lemma C9_witness :
  save_image "/srv/public/uploads/images" (Some "RGB") true red_pixel_png
             "doc123" "1" "PNG"
  = Some (mkSaved "/srv/public/uploads/images/doc123_img_1_9d3f217f.png" false
                  "/uploads/images/doc123_img_1_9d3f217f.png") ∧
  relative_path
    (mkSaved "/srv/public/uploads/images/doc123_img_1_9d3f217f.png" false
             "/uploads/images/doc123_img_1_9d3f217f.png")
  = "/uploads/images/"
    +:+ code_filename "doc123" "1" (image_hash red_pixel_png)
                      (lower_string "PNG").
Proof.
  assert (H : save_image "/srv/public/uploads/images" (Some "RGB") true
                red_pixel_png "doc123" "1" "PNG"
              = Some (mkSaved
                  "/srv/public/uploads/images/doc123_img_1_9d3f217f.png" false
                  "/uploads/images/doc123_img_1_9d3f217f.png"))
    by (by vm_compute).
  split; [exact H|].
  exact (proj1 (proj2 (proj1 C9_image_files_are_named_with_img _ _ _ _ _ _ _ _ H))).
Defined.

End ImageFilesFacts.
